(** * RelayPool (src/relay-pool.ts): a shallow embedding and its properties

    The pool is a JavaScript object that lives on a single-threaded event
    loop.  Its methods are embedded as functions on an explicit [World]:
    the pool's own fields, the heap of [Relay] and [Sub] objects it holds
    references to, the timeouts armed on the event loop, a logical clock and
    the trace of every call that leaves the pool (calls on the relay
    collaborator and invocations of user callbacks).

    [getEventById], a promise around one [subscribe] call, is left out.

    The modules imported by relay-pool.ts (merge-similar-filters,
    group-filters-by-relay, event-cache, relay) are collaborators: the
    functions the pool calls on them are fields of the class
    [Collaborators], and every theorem holds for any implementation that
    returns.

    User callbacks are not run: an invocation is recorded in the trace.
    Where the pool's code goes on after calling a user callback (the "eose"
    listener, the [forEach] over [noticecbs]), whether the callback returns
    or throws is part of the turn in which it is invoked. *)

From Stdlib Require Import ZArith.
From stdpp Require Import base list strings sets.

#[local] Set Warnings "-clear-no-such-hyp".

Open Scope Z_scope.
Open Scope string_scope.
Open Scope list_scope.
Open Scope nat_scope.

(** ** JavaScript values used by the pool *)

(** A JS [number] as the pool uses it: a delay in milliseconds.  Finite
    values are integers; the three non-finite values are kept because the
    code compares against [Infinity] and tests numbers for truthiness. *)
Inductive number : Type :=
| Num (z : Z)
| Infinity
| NegInfinity
| NaN.

(** [ToBoolean] on a number: [0] and [NaN] are falsy. *)
Definition truthy (n : number) : bool :=
  match n with
  | Num z => negb (z =? 0)%Z
  | NaN => false
  | Infinity | NegInfinity => true
  end.

(** [a > b] on numbers; any comparison with [NaN] is false. *)
Definition gt (a b : number) : bool :=
  match a, b with
  | NaN, _ | _, NaN => false
  | NegInfinity, _ => false
  | _, Infinity => false
  | Infinity, _ => true
  | Num _, NegInfinity => true
  | Num x, Num y => (y <? x)%Z
  end.

(** [a !== Infinity]. *)
Definition not_Infinity (a : number) : bool :=
  match a with Infinity => false | _ => true end.

(** [Math.min] on two numbers, used to state what [#resetTimer] stores. *)
Definition num_min (a b : number) : number :=
  match a, b with
  | NaN, _ | _, NaN => NaN
  | NegInfinity, _ | _, NegInfinity => NegInfinity
  | Infinity, x | x, Infinity => x
  | Num x, Num y => Num (Z.min x y)
  end.

(** Truthiness of an optional number: [undefined] is falsy. *)
Definition supplied_truthy (d : option number) : bool :=
  match d with Some n => truthy n | None => false end.

(** Truthiness of an optional function: a function is truthy. *)
Definition supplied {A : Type} (f : option A) : bool :=
  match f with Some _ => true | None => false end.

(** How an invocation of a user callback ends. *)
Inductive Outcome : Type := Returns | Throws.

(** ** [Map]: insertion-ordered, keys unique

    The pool iterates its maps ([for ... of filtersByRelay],
    [relayByUrl.forEach], [relayByUrl.values()]), and a JS [Map] iterates
    in insertion order, so a map is the list of its entries in that order. *)
Module JsMap.
Section Defs.
Context {V : Type}.

Definition t := list (string * V).

Fixpoint get (k : string) (m : t) : option V :=
  match m with
  | [] => None
  | (k', v) :: m' => if decide (k = k') then Some v else get k m'
  end.

(** [m.set(k, v)]: an existing key keeps its position. *)
Fixpoint set (k : string) (v : V) (m : t) : t :=
  match m with
  | [] => [(k, v)]
  | (k', v') :: m' =>
      if decide (k = k') then (k, v) :: m' else (k', v') :: set k v m'
  end.

Definition keys (m : t) : list string := m.*1.
Definition values (m : t) : list V := m.*2.
Definition size (m : t) : nat := length m.

End Defs.
Arguments t V : clear implicits.
End JsMap.

(** [const unique = (arr) => [...new Set(arr)]]: the distinct elements in
    order of first occurrence.  [seen] is the set built so far. *)
Fixpoint unique_from (seen : list string) (arr : list string) : list string :=
  match arr with
  | [] => []
  | x :: rest =>
      if decide (x ∈ seen) then unique_from seen rest
      else x :: unique_from (x :: seen) rest
  end.

Definition unique (arr : list string) : list string := unique_from [] arr.

(** ** Collaborators *)

(** [options] of [subscribe]; both fields are optional in the source. *)
Record SubscribeOptions := mkOptions {
  allowDuplicateEvents : option bool;
  allowOlderEvents : option bool
}.

(** What relay-pool.ts imports.  [OnEvent] holds the user's callbacks and
    the wrapped callbacks the router builds from them; [OnEose] and [UrlCb]
    are user callbacks.  A callback is never run by the model: each
    invocation is recorded in the trace with its arguments. *)
Class Collaborators := {
  Filter : Type;
  Event : Type;
  OnEvent : Type;
  OnEose : Type;
  UrlCb : Type;
  EventCache : Type;
  (** [new EventCache()] and [eventCache.addEvent(event)] *)
  newEventCache : EventCache;
  addEvent : Event → EventCache → EventCache;
  (** [mergeSimilarAndRemoveEmptyFilters(filters)] *)
  mergeSimilarAndRemoveEmptyFilters : list Filter → list Filter;
  (** [batchFiltersByRelay(filtersToSubscribe)] *)
  batchFiltersByRelay :
    list (OnEvent * JsMap.t (list Filter)) → OnEvent * JsMap.t (list Filter);
  (** [groupFiltersByRelayAndEmitCacheHits(filters, relays, onEvent,
      options, eventCache)]: besides its result it may invoke callbacks
      synchronously for cache hits; those invocations are the first
      component. *)
  groupFiltersByRelayAndEmitCacheHits :
    list Filter → list string → OnEvent → SubscribeOptions →
    option EventCache →
    list (OnEvent * Event * bool * option string) *
    (OnEvent * JsMap.t (list Filter))
}.

(** ** The objects the pool holds *)

Section Pool.
Context `{C : Collaborators}.

(** The promise returned by [relay.connect()]. *)
Inductive ConnStatus : Type := Connecting | Connected | Failed.

(** A [Relay] object as the pool sees it (relay.ts itself is not among
    the sources: only what the pool does to a connection is recorded, its
    wire traffic is in the trace).  [r_notice] tells whether the
    pool's "notice" listener (the closure of [addOrGetRelay], which fans a
    notice out to [noticecbs]) is installed; [r_error] and [r_disconnect]
    are the listeners installed by [onerror] and [ondisconnect], each the
    closure [(msg) => cb(url, msg)]. *)
Record Relay : Type := mkRelay {
  r_url : string;
  r_status : ConnStatus;
  r_notice : bool;
  r_error : list (UrlCb * string);
  r_disconnect : list (UrlCb * string);
  r_closed : bool
}.

(** A [Sub] object with the two listeners [#subscribeRelay] installs on
    it.  [eventsBySub] is the variable both closures capture; [None] is
    [undefined].  [s_onEose] is [Some] exactly when the "eose" listener was
    installed. *)
Record Sub : Type := mkSub {
  s_relay : nat;
  s_url : string;
  s_filters : list Filter;
  s_onEvent : OnEvent;
  s_onEose : option OnEose;
  eventsBySub : option (list Event);
  s_unsubbed : bool
}.

(** A timeout armed on the event loop; its callback is always
    [() => this.sendSubscriptions()]. *)
Record Timer : Type := mkTimer {
  t_id : nat;
  t_delay : number;
  t_armed_at : Z
}.

(** Calls that leave the pool.  [via] is the wire subscription whose
    listener makes the call. *)
Inductive Action : Type :=
| ARelayInit (url : string) (rid : nat)
| AConnect (rid : nat)
| AWarn (msg : string)
| ASub (rid sid : nat) (filters : list Filter)
| AUnsub (sid : nat)
| APublish (rid : nat) (e : Event)
| AClose (rid : nat)
| ACacheHit (cb : OnEvent) (e : Event) (afterEose : bool) (url : option string)
| AOnEvent (via : nat) (cb : OnEvent) (e : Event) (afterEose : bool) (url : string)
| AOnEose (via : nat) (cb : OnEose) (events : option (list Event)) (url : string)
| ANotice (cb : UrlCb) (url msg : string)
| AError (cb : UrlCb) (url msg : string)
| ADisconnect (cb : UrlCb) (url msg : string).

(** The fields of [class RelayPool]. *)
Record RelayPool : Type := mkPool {
  relayByUrl : JsMap.t nat;
  noticecbs : list UrlCb;
  eventCache : option EventCache;
  minMaxDelayms : number;
  filtersToSubscribe : list (OnEvent * JsMap.t (list Filter));
  timer : option nat
}.

Record World : Type := mkWorld {
  pool : RelayPool;
  relays : list Relay;
  subs : list Sub;
  timers : list Timer;
  next_timer : nat;
  now : Z;
  trace : list Action
}.

(** The function returned by [subscribe] and [sendSubscriptions]:
    [() => {}] or [() => subs.forEach((sub) => sub.unsub())]. *)
Inductive Cancel : Type :=
| NoOp
| UnsubAll (opened : list nat).

(** A call either returns or throws; both carry the world it leaves. *)
Inductive Result (A : Type) : Type :=
| Ok (a : A) (w : World)
| Throw (msg : string) (w : World).
Arguments Ok {A} a w.
Arguments Throw {A} msg w.

(** *** Field updates *)

Definition set_relayByUrl (m : JsMap.t nat) (p : RelayPool) : RelayPool :=
  mkPool m (noticecbs p) (eventCache p) (minMaxDelayms p)
         (filtersToSubscribe p) (timer p).
Definition set_noticecbs (l : list UrlCb) (p : RelayPool) : RelayPool :=
  mkPool (relayByUrl p) l (eventCache p) (minMaxDelayms p)
         (filtersToSubscribe p) (timer p).
Definition set_eventCache (c : option EventCache) (p : RelayPool) : RelayPool :=
  mkPool (relayByUrl p) (noticecbs p) c (minMaxDelayms p)
         (filtersToSubscribe p) (timer p).
Definition set_minMaxDelayms (d : number) (p : RelayPool) : RelayPool :=
  mkPool (relayByUrl p) (noticecbs p) (eventCache p) d
         (filtersToSubscribe p) (timer p).
Definition set_filtersToSubscribe
  (l : list (OnEvent * JsMap.t (list Filter))) (p : RelayPool) : RelayPool :=
  mkPool (relayByUrl p) (noticecbs p) (eventCache p) (minMaxDelayms p)
         l (timer p).
Definition set_timer (t : option nat) (p : RelayPool) : RelayPool :=
  mkPool (relayByUrl p) (noticecbs p) (eventCache p) (minMaxDelayms p)
         (filtersToSubscribe p) t.

Definition upd_pool (f : RelayPool → RelayPool) (w : World) : World :=
  mkWorld (f (pool w)) (relays w) (subs w) (timers w) (next_timer w)
          (now w) (trace w).
Definition set_relays (l : list Relay) (w : World) : World :=
  mkWorld (pool w) l (subs w) (timers w) (next_timer w) (now w) (trace w).
Definition set_subs (l : list Sub) (w : World) : World :=
  mkWorld (pool w) (relays w) l (timers w) (next_timer w) (now w) (trace w).
Definition set_timers (l : list Timer) (w : World) : World :=
  mkWorld (pool w) (relays w) (subs w) l (next_timer w) (now w) (trace w).
Definition log (l : list Action) (w : World) : World :=
  mkWorld (pool w) (relays w) (subs w) (timers w) (next_timer w) (now w)
          (trace w ++ l).

(** ** The relay collaborator (relay.ts) *)

Definition set_status (st : ConnStatus) (r : Relay) : Relay :=
  mkRelay (r_url r) st (r_notice r) (r_error r) (r_disconnect r) (r_closed r).
Definition add_notice (r : Relay) : Relay :=
  mkRelay (r_url r) (r_status r) true (r_error r) (r_disconnect r) (r_closed r).
Definition add_error (h : UrlCb * string) (r : Relay) : Relay :=
  mkRelay (r_url r) (r_status r) (r_notice r) (r_error r ++ [h])
          (r_disconnect r) (r_closed r).
Definition add_disconnect (h : UrlCb * string) (r : Relay) : Relay :=
  mkRelay (r_url r) (r_status r) (r_notice r) (r_error r)
          (r_disconnect r ++ [h]) (r_closed r).
Definition set_closed (r : Relay) : Relay :=
  mkRelay (r_url r) (r_status r) (r_notice r) (r_error r)
          (r_disconnect r) true.

Definition set_eventsBySub (l : option (list Event)) (s : Sub) : Sub :=
  mkSub (s_relay s) (s_url s) (s_filters s) (s_onEvent s) (s_onEose s)
        l (s_unsubbed s).
Definition set_unsubbed (s : Sub) : Sub :=
  mkSub (s_relay s) (s_url s) (s_filters s) (s_onEvent s) (s_onEose s)
        (eventsBySub s) true.

(** Modelled from the spec: relay.ts is not among the sources.
    [relayInit(url)] allocates a fresh connection object, not yet connected
    and with no listeners ("creates one, registers it, and asynchronously
    connects it"). *)
Definition relayInit (url : string) : Relay :=
  mkRelay url Connecting false [] [] false.

(** Modelled from the spec: [sub.unsub()] of relay.ts, "closing
    unsubscribes from the relay". *)
Definition unsub (sid : nat) (w : World) : World :=
  log [AUnsub sid] (set_subs (alter set_unsubbed sid (subs w)) w).

(** ** The event loop's timeouts *)

(** [clearTimeout(handle)]; [clearTimeout(undefined)] does nothing. *)
Definition clearTimeout (handle : option nat) (w : World) : World :=
  match handle with
  | None => w
  | Some id => set_timers (filter (λ t, t_id t ≠ id) (timers w)) w
  end.

(** [setTimeout(() => this.sendSubscriptions(), delay)] *)
Definition setTimeout (delay : number) (w : World) : nat * World :=
  let id := next_timer w in
  (id, mkWorld (pool w) (relays w) (subs w)
               (timers w ++ [mkTimer id delay (now w)])
               (S id) (now w) (trace w)).

(** The largest delay a timeout can wait for: a 32-bit signed integer. *)
Definition TIMEOUT_MAX : Z := 2147483647.

(** Modelled from the runtime (Node.js, lib/internal/timers.js): the
    delay of [setTimeout] is used as given when it is between [1] and
    [TIMEOUT_MAX]; any other delay, a larger one included, is set to [1]. *)
Definition timeout_ms (delay : number) : Z :=
  match delay with
  | Num z => if ((1 <=? z) && (z <=? TIMEOUT_MAX))%Z then z else 1
  | _ => 1
  end.

(** The earliest time at which an armed timeout may run. *)
Definition due_at (t : Timer) : Z :=
  (t_armed_at t + timeout_ms (t_delay t))%Z.

(** ** Methods of [RelayPool] *)

(** [addOrGetRelay(relay)], lines 38-56.  The continuation of
    [connect().then] runs later, as [connect_settled]. *)
Definition addOrGetRelay (relay : string) (w : World) : nat * World :=
  match JsMap.get relay (relayByUrl (pool w)) with
  | Some origRelayInstance => (origRelayInstance, w)
  | None =>
      let relayInstance := length (relays w) in
      let w1 := set_relays (relays w ++ [relayInit relay]) w in
      let w2 := log [ARelayInit relay relayInstance] w1 in
      let w3 := upd_pool (λ p,
                  set_relayByUrl
                    (JsMap.set relay relayInstance (relayByUrl p)) p) w2 in
      (relayInstance, log [AConnect relayInstance] w3)
  end.

(** The two continuations of [relayInstance.connect().then(...)],
    lines 45-54.  A promise settles once. *)
Definition connect_settled (rid : nat) (fulfilled : bool) (w : World) : World :=
  match relays w !! rid with
  | Some r =>
      match r_status r with
      | Connecting =>
          if fulfilled then
            set_relays
              (<[rid := add_notice (set_status Connected r)]> (relays w)) w
          else
            log [AWarn ("failed to connect to relay " ++ r_url r)]
                (set_relays (<[rid := set_status Failed r]> (relays w)) w)
      | _ => w
      end
  | None => w
  end.

(** The callbacks a [forEach] over [cbs] invokes: all of them, or, when
    the callback at index [n] is the first to throw, those up to and
    including that one (the exception leaves the loop). *)
Definition invoked {A : Type} (failing : option nat) (cbs : list A) : list A :=
  match failing with
  | Some n => take (S n) cbs
  | None => cbs
  end.

(** The "notice" listener of lines 47-49, run when relay [rid] emits a
    notice with the arguments [(relay, msg)]; [failing] is the index of the
    first callback of [noticecbs] that throws, if any.  The listener
    exists only once the [connect()] promise is fulfilled (line 46). *)
Definition relay_notice (rid : nat) (relay msg : string)
    (failing : option nat) (w : World) : World :=
  match relays w !! rid with
  | Some r =>
      if r_notice r
      then log ((λ cb, ANotice cb relay msg)
                <$> invoked failing (noticecbs (pool w))) w
      else w
  | None => w
  end.

(** The "error" and "disconnect" listeners of lines 192 and 197, each a
    closure whose only statement is the call of [cb]; the relay
    collaborator runs every listener installed for the event. *)
Definition relay_error (rid : nat) (msg : string) (w : World) : World :=
  match relays w !! rid with
  | Some r => log ((λ h, AError h.1 h.2 msg) <$> r_error r) w
  | None => w
  end.

Definition relay_disconnect (rid : nat) (msg : string) (w : World) : World :=
  match relays w !! rid with
  | Some r => log ((λ h, ADisconnect h.1 h.2 msg) <$> r_disconnect r) w
  | None => w
  end.

(** A run of [addOrGetRelay] calls, as in the constructor's loop. *)
Definition add_all (urls : list string) (w : World) : World :=
  foldl (λ w relay, (addOrGetRelay relay w).2) w urls.

(** [constructor(relays?, options = {})], lines 27-36. *)
Definition empty_pool (noCache : option bool) : RelayPool :=
  mkPool [] []
         (match noCache with Some true => None | _ => Some newEventCache end)
         Infinity [] None.

Definition constructor (urls : option (list string)) (noCache : option bool)
    (t0 : Z) : World :=
  let w := mkWorld (empty_pool noCache) [] [] [] 0 t0 [] in
  match urls with
  | Some l => add_all (unique l) w
  | None => w
  end.

(** [close()], lines 58-65. *)
Definition close (w : World) : World :=
  let w1 :=
    foldl (λ w rid, log [AClose rid]
                      (set_relays (alter set_closed rid (relays w)) w))
          w (JsMap.values (relayByUrl (pool w))) in
  upd_pool (set_relayByUrl []) w1.

(** [#subscribeRelay(relay, filters, onEvent, onEose)], lines 67-93.  The
    new [Sub] carries the "event" listener and, when [onEose] is given, the
    "eose" listener; [eventsBySub] starts as [[]]. *)
Definition subscribeRelay (relay : string) (filters : list Filter)
    (onEvent : OnEvent) (onEose : option OnEose) (w : World)
    : option nat * World :=
  let mergedAndRemovedEmptyFilters :=
    mergeSimilarAndRemoveEmptyFilters filters in
  if decide (length mergedAndRemovedEmptyFilters = 0) then (None, w)
  else
    let '(instance, w1) := addOrGetRelay relay w in
    let sub := length (subs w1) in
    let w2 :=
      set_subs (subs w1 ++
                [mkSub instance relay mergedAndRemovedEmptyFilters
                       onEvent onEose (Some []) false]) w1 in
    (Some sub, log [ASub instance sub mergedAndRemovedEmptyFilters] w2).

(** The "event" listener of lines 81-85, run when the relay delivers
    [event] on wire subscription [sid].  After [unsub()] the relay
    collaborator delivers nothing more on the subscription ("no further
    events reach that call's onEvent").  The call of [onEvent] is the
    listener's last statement: the pool is left the same whether it
    returns or throws. *)
Definition sub_event (sid : nat) (event : Event) (w : World) : World :=
  match subs w !! sid with
  | Some s =>
      if s_unsubbed s then w
      else
        let w1 := upd_pool (λ p,
                    set_eventCache (addEvent event <$> eventCache p) p) w in
        let acc := (λ l, l ++ [event]) <$> eventsBySub s in
        let w2 := set_subs (<[sid := set_eventsBySub acc s]> (subs w1)) w1 in
        log [AOnEvent sid (s_onEvent s) event
                      (if acc is None then true else false) (s_url s)] w2
  | None => w
  end.

(** The "eose" listener of lines 87-90; without [onEose] no listener was
    installed and the marker is ignored.  [o] is how the call of [onEose]
    (line 88) ends: when it throws, the assignment of line 89 is not
    reached and [eventsBySub] keeps its value. *)
Definition sub_eose (sid : nat) (o : Outcome) (w : World) : World :=
  match subs w !! sid with
  | Some s =>
      if s_unsubbed s then w
      else
        match s_onEose s with
        | Some onEose =>
            let w1 := log [AOnEose sid onEose (eventsBySub s) (s_url s)] w in
            match o with
            | Returns =>
                set_subs (<[sid := set_eventsBySub None s]> (subs w1)) w1
            | Throws => w1
            end
        | None => w
        end
  | None => w
  end.

(** The loop of [#subscribeRelays], lines 100-106; [opened] is the array
    [subs]. *)
Fixpoint subscribeRelays_loop (entries : JsMap.t (list Filter))
    (onEvent : OnEvent) (onEose : option OnEose) (opened : list nat)
    (w : World) : list nat * World :=
  match entries with
  | [] => (opened, w)
  | (relay, filters) :: rest =>
      let '(sub, w1) := subscribeRelay relay filters onEvent onEose w in
      subscribeRelays_loop rest onEvent onEose
        (match sub with Some s => opened ++ [s] | None => opened end) w1
  end.

(** [#subscribeRelays(filtersByRelay, onEvent, onEose)], lines 95-108. *)
Definition subscribeRelays (filtersByRelay : JsMap.t (list Filter))
    (onEvent : OnEvent) (onEose : option OnEose) (w : World)
    : Cancel * World :=
  let '(opened, w1) := subscribeRelays_loop filtersByRelay onEvent onEose [] w in
  (UnsubAll opened, w1).

(** [sendSubscriptions(onEose?)], lines 110-120. *)
Definition sendSubscriptions (onEose : option OnEose) (w : World)
    : Cancel * World :=
  let w1 := clearTimeout (timer (pool w)) w in
  let w2 := upd_pool (set_timer None) w1 in
  let w3 := upd_pool (set_minMaxDelayms Infinity) w2 in
  let '(onEvent, filtersByRelay) :=
    batchFiltersByRelay (filtersToSubscribe (pool w3)) in
  let w4 := upd_pool (set_filtersToSubscribe []) w3 in
  subscribeRelays filtersByRelay onEvent onEose w4.

(** [#resetTimer(maxDelayms)], lines 122-135. *)
Definition resetTimer (maxDelayms : number) (w : World) : World :=
  let w1 :=
    if gt (minMaxDelayms (pool w)) maxDelayms
    then upd_pool (set_minMaxDelayms maxDelayms) w
    else w in
  let w2 := clearTimeout (timer (pool w1)) w1 in
  let w3 := upd_pool (set_timer None) w2 in
  if not_Infinity (minMaxDelayms (pool w3)) then
    let '(id, w4) := setTimeout (minMaxDelayms (pool w3)) w3 in
    upd_pool (set_timer (Some id)) w4
  else w3.

(** [subscribe(filters, relays, onEvent, maxDelayms?, onEose?, options)],
    lines 137-162. *)
Definition subscribe (filters : list Filter) (relays : list string)
    (onEvent : OnEvent) (maxDelayms : option number)
    (onEose : option OnEose) (options : SubscribeOptions) (w : World)
    : Result Cancel :=
  if supplied_truthy maxDelayms && supplied onEose then
    Throw "maxDelayms and onEose cannot be used together" w
  else
    let '(hits, (dedupedOnEvent, filtersByRelay)) :=
      groupFiltersByRelayAndEmitCacheHits
        filters relays onEvent options (eventCache (pool w)) in
    let w1 := log ((λ h, ACacheHit h.1.1.1 h.1.1.2 h.1.2 h.2) <$> hits) w in
    let w2 := upd_pool (λ p,
                set_filtersToSubscribe
                  (filtersToSubscribe p ++ [(dedupedOnEvent, filtersByRelay)])
                  p) w1 in
    match maxDelayms with
    | Some d =>
        if truthy d then Ok NoOp (resetTimer d w2)
        else let '(c, w3) := sendSubscriptions onEose w2 in Ok c w3
    | None => let '(c, w3) := sendSubscriptions onEose w2 in Ok c w3
    end.

(** Calling the function a [subscribe] or [sendSubscriptions] returned. *)
Definition call_cancel (c : Cancel) (w : World) : World :=
  match c with
  | NoOp => w
  | UnsubAll opened => foldl (λ w sid, unsub sid w) w opened
  end.

(** The timeout's callback, lines 131-133, run by the event loop once the
    timeout [id] is due; a timeout runs at most once. *)
Definition timer_fires (id : nat) (w : World) : option World :=
  match filter (λ t, t_id t = id) (timers w) with
  | t :: _ =>
      if decide (due_at t ≤ now w)%Z then
        Some (sendSubscriptions None
                (set_timers (filter (λ t, t_id t ≠ id) (timers w)) w)).2
      else None
  | [] => None
  end.

(** [publish(event, relays)], lines 181-186. *)
Definition publish_all (event : Event) (urls : list string) (w : World)
    : World :=
  foldl (λ w relay,
           let '(instance, w1) := addOrGetRelay relay w in
           log [APublish instance event] w1)
        w urls.

Definition publish (event : Event) (urls : list string) (w : World) : World :=
  publish_all event (unique urls) w.

(** [onnotice(cb)], [onerror(cb)], [ondisconnect(cb)], lines 187-199. *)
Definition onnotice (cb : UrlCb) (w : World) : World :=
  upd_pool (λ p, set_noticecbs (noticecbs p ++ [cb]) p) w.

Definition onerror (cb : UrlCb) (w : World) : World :=
  foldl (λ w entry,
           set_relays (alter (add_error (cb, entry.1)) entry.2 (relays w)) w)
        w (relayByUrl (pool w)).

Definition ondisconnect (cb : UrlCb) (w : World) : World :=
  foldl (λ w entry,
           set_relays (alter (add_disconnect (cb, entry.1)) entry.2 (relays w)) w)
        w (relayByUrl (pool w)).

(** ** Runs of the pool on the event loop *)

(** One turn of the event loop: a call on the pool, or a callback the
    environment runs (a timeout, a settled connection, a relay message). *)
Inductive Input : Type :=
| ISubscribe (filters : list Filter) (relays : list string)
    (onEvent : OnEvent) (maxDelayms : option number)
    (onEose : option OnEose) (options : SubscribeOptions)
| ISendSubscriptions (onEose : option OnEose)
| IAddOrGetRelay (relay : string)
| IPublish (event : Event) (relays : list string)
| IOnNotice (cb : UrlCb)
| IOnError (cb : UrlCb)
| IOnDisconnect (cb : UrlCb)
| IClose
| ICancel (c : Cancel)
| IAdvance (dt : N)
| ITimerFires (id : nat)
| IConnectSettled (rid : nat) (fulfilled : bool)
| IRelayNotice (rid : nat) (relay msg : string) (failing : option nat)
| IRelayError (rid : nat) (msg : string)
| IRelayDisconnect (rid : nat) (msg : string)
| ISubEvent (sid : nat) (event : Event)
| ISubEose (sid : nat) (o : Outcome).

Definition advance (dt : N) (w : World) : World :=
  mkWorld (pool w) (relays w) (subs w) (timers w) (next_timer w)
          (now w + Z.of_N dt) (trace w).

Definition step (w : World) (i : Input) : World :=
  match i with
  | ISubscribe fs rs cb d oe opts =>
      match subscribe fs rs cb d oe opts w with
      | Ok _ w' | Throw _ w' => w'
      end
  | ISendSubscriptions oe => (sendSubscriptions oe w).2
  | IAddOrGetRelay r => (addOrGetRelay r w).2
  | IPublish e rs => publish e rs w
  | IOnNotice cb => onnotice cb w
  | IOnError cb => onerror cb w
  | IOnDisconnect cb => ondisconnect cb w
  | IClose => close w
  | ICancel c => call_cancel c w
  | IAdvance dt => advance dt w
  | ITimerFires id => default w (timer_fires id w)
  | IConnectSettled rid ok => connect_settled rid ok w
  | IRelayNotice rid r msg failing => relay_notice rid r msg failing w
  | IRelayError rid msg => relay_error rid msg w
  | IRelayDisconnect rid msg => relay_disconnect rid msg w
  | ISubEvent sid e => sub_event sid e w
  | ISubEose sid o => sub_eose sid o w
  end.

Definition run (w : World) (inputs : list Input) : World :=
  foldl step w inputs.

(** ** Observations on worlds and traces *)

(** Every entry of the registry points to a live [Relay] object created
    for that URL. *)
Definition registry_ok (w : World) : Prop :=
  ∀ url rid, JsMap.get url (relayByUrl (pool w)) = Some rid →
    (r_url <$> relays w) !! rid = Some url.

(** The pool's "notice" listener is on exactly the connections whose
    [connect()] promise has been fulfilled. *)
Definition listens_ok (w : World) : Prop :=
  ∀ rid r, relays w !! rid = Some r →
    r_notice r = true ↔ r_status r = Connected.

(** The debounce state: the event loop holds no timeout but the one whose
    handle is stored in [timer], and that one waits for [minMaxDelayms]. *)
Definition timer_ok (w : World) : Prop :=
  minMaxDelayms (pool w) ≠ NaN ∧
  match timer (pool w) with
  | Some id =>
      minMaxDelayms (pool w) ≠ Infinity ∧
      ∃ t0, timers w = [mkTimer id (minMaxDelayms (pool w)) t0]
  | None => minMaxDelayms (pool w) = Infinity ∧ timers w = []
  end.

(** How one turn of the event loop may change a [Relay] object that
    exists: its URL stays, the "notice" listener stays once installed, and
    "error" ("disconnect") listeners are only ever added, by [onerror]
    ([ondisconnect]) and for the callback being registered. *)
Definition evolves (i : Input) (r r' : Relay) : Prop :=
  r_url r' = r_url r
  ∧ (r_notice r = true → r_notice r' = true)
  ∧ (r_error r' = r_error r
     ∨ ∃ cb added, i = IOnError cb ∧ r_error r' = r_error r ++ added
                   ∧ Forall (λ h, h.1 = cb) added)
  ∧ (r_disconnect r' = r_disconnect r
     ∨ ∃ cb added, i = IOnDisconnect cb
                   ∧ r_disconnect r' = r_disconnect r ++ added
                   ∧ Forall (λ h, h.1 = cb) added).

(** The turns that only move the scheduler and open connections and
    subscriptions. *)
Definition is_wire (i : Input) : bool :=
  match i with
  | ISubscribe _ _ _ _ _ _ | ISendSubscriptions _ | IAddOrGetRelay _
  | IPublish _ _ | ITimerFires _ => true
  | _ => false
  end.

(** The wire subscription a callback invocation comes from. *)
Definition via_of (a : Action) : option nat :=
  match a with
  | AOnEvent v _ _ _ _ | AOnEose v _ _ _ => Some v
  | _ => None
  end.

Definition calls_via (sid : nat) (acts : list Action) : list Action :=
  List.filter (λ a, bool_decide (via_of a = Some sid)) acts.

(** The [publish] calls of a trace: which instance, which event. *)
Definition publishes (acts : list Action) : list (nat * Event) :=
  omap (λ a, match a with APublish rid e => Some (rid, e) | _ => None end) acts.

(** What a relay sends on one wire subscription; a marker comes with the
    outcome of the [onEose] call it causes, if it causes one. *)
Inductive SubMsg : Type :=
| MEvent (e : Event)
| MEose (o : Outcome).

Definition msgs_for (sid : nat) (inputs : list Input) : list SubMsg :=
  omap (λ i, match i with
             | ISubEvent sid' e => if decide (sid' = sid) then Some (MEvent e) else None
             | ISubEose sid' o =>
                 if decide (sid' = sid) then Some (MEose o) else None
             | _ => None
             end) inputs.

(** The input calls a returned unsubscribe function that covers [sid]. *)
Definition cancels (sid : nat) (i : Input) : Prop :=
  match i with
  | ICancel (UnsubAll opened) => sid ∈ opened
  | _ => False
  end.

(** The part of [wire_frame] that also holds when the scheduler's fields
    change: objects and registry entries persist, callbacks are not run. *)
Record obj_frame (w w' : World) : Prop := mkObjFrame {
  of_noticecbs : noticecbs (pool w') = noticecbs (pool w);
  of_relays : ∃ urls, relays w' = relays w ++ (relayInit <$> urls);
  of_subs : ∃ new, subs w' = subs w ++ new;
  of_registry : ∀ url rid,
    JsMap.get url (relayByUrl (pool w)) = Some rid →
    JsMap.get url (relayByUrl (pool w')) = Some rid;
  of_registry_ok : registry_ok w → registry_ok w';
  of_trace : ∃ acts, trace w' = trace w ++ acts ∧
                     Forall (λ a, via_of a = None) acts
}.

(** The entries of a relay-to-filters mapping that get a wire
    subscription: those whose merged filter list is not empty (line 75). *)
Definition opens_sub (entry : string * list Filter) : bool :=
  negb (bool_decide (length (mergeSimilarAndRemoveEmptyFilters entry.2) = 0)).

Definition live (m : JsMap.t (list Filter)) : JsMap.t (list Filter) :=
  List.filter opens_sub m.

(** The [Sub] object opened for an entry, as [#subscribeRelay] leaves it;
    its connection is the one registered in [w'] for the entry's URL. *)
Definition sub_for (onEvent : OnEvent) (onEose : option OnEose) (w' : World)
    (entry : string * list Filter) : Sub :=
  mkSub (default 0 (JsMap.get entry.1 (relayByUrl (pool w')))) entry.1
        (mergeSimilarAndRemoveEmptyFilters entry.2) onEvent onEose
        (Some []) false.

(** The world [subscribe] reaches at line 156: cache hits delivered, the
    request appended to the pending batch. *)
Definition enqueued (filters : list Filter) (relays : list string)
    (onEvent : OnEvent) (options : SubscribeOptions) (w : World) : World :=
  let r := groupFiltersByRelayAndEmitCacheHits
             filters relays onEvent options (eventCache (pool w)) in
  upd_pool (λ p, set_filtersToSubscribe (filtersToSubscribe p ++ [r.2]) p)
    (log ((λ h, ACacheHit h.1.1.1 h.1.1.2 h.1.2 h.2) <$> r.1) w).

Definition returned (r : Cancel * World) : Result Cancel := Ok r.1 r.2.

(** What the methods that only open connections and subscriptions leave
    alone: the scheduler's fields, the event loop, and every object and
    registry entry that already exists. *)
Record wire_frame (w w' : World) : Prop := mkWireFrame {
  wf_noticecbs : noticecbs (pool w') = noticecbs (pool w);
  wf_eventCache : eventCache (pool w') = eventCache (pool w);
  wf_minMaxDelayms : minMaxDelayms (pool w') = minMaxDelayms (pool w);
  wf_filtersToSubscribe :
    filtersToSubscribe (pool w') = filtersToSubscribe (pool w);
  wf_timer : timer (pool w') = timer (pool w);
  wf_timers : timers w' = timers w;
  wf_next_timer : next_timer w' = next_timer w;
  wf_now : now w' = now w;
  wf_relays : ∃ urls, relays w' = relays w ++ (relayInit <$> urls);
  wf_subs : ∃ new, subs w' = subs w ++ new;
  wf_registry : ∀ url rid,
    JsMap.get url (relayByUrl (pool w)) = Some rid →
    JsMap.get url (relayByUrl (pool w')) = Some rid;
  wf_registry_ok : registry_ok w → registry_ok w';
  wf_trace : ∃ acts, trace w' = trace w ++ acts ∧
                     Forall (λ a, via_of a = None) acts
}.

End Pool.

Arguments Ok {C A} a w.
Arguments Throw {C A} msg w.

(** The connection registry of a world. *)
Abbreviation registry w := (relayByUrl (pool w)).

(** ** A concrete router, filter merge and cache

    Used to run the pool on concrete inputs. *)
Module Reference.

Record RFilter : Type := mkFilter {
  ids : option (list string);
  authors : option (list string);
  kinds : option (list Z);
  relay : option string
}.

Record REvent : Type := mkEvent {
  id : string;
  pubkey : string;
  kind : Z
}.

#[warnings="-register-all"]
Inductive ROnEvent : Type :=
| User (name : string)
| Deduped (cb : ROnEvent) (options : SubscribeOptions)
| Merged (cbs : list ROnEvent).

Definition no_constraint {A : Type} (f : option (list A)) : bool :=
  match f with None => true | Some _ => false end.

Definition emptied {A : Type} (f : option (list A)) : bool :=
  match f with Some [] => true | _ => false end.

(** Modelled from the spec: merge-similar-filters.ts is not among the
    sources.  A filter is dropped when it is "structurally empty (no
    constraining fields)" or had a constraining field emptied ("an identity
    list of size zero"). *)
Definition matches_nothing (f : RFilter) : bool :=
  (no_constraint (ids f) && no_constraint (authors f) && no_constraint (kinds f))
  || emptied (ids f) || emptied (authors f) || emptied (kinds f).

Definition same_but_ids (f g : RFilter) : bool :=
  bool_decide (authors f = authors g) && bool_decide (kinds f = kinds g)
  && bool_decide (relay f = relay g).

Fixpoint merge_into (f : RFilter) (acc : list RFilter) : list RFilter :=
  match acc with
  | [] => [f]
  | g :: rest =>
      match ids f, ids g with
      | Some a, Some b =>
          if same_but_ids f g
          then mkFilter (Some (b ++ filter (λ x, x ∉ b) a))
                        (authors g) (kinds g) (relay g) :: rest
          else g :: merge_into f rest
      | _, _ => g :: merge_into f rest
      end
  end.

(** Modelled from the spec: merge-similar-filters.ts is not among the
    sources.  "Drop any filter that ... can never match" and "merge filters
    that differ only in a uniquely-combinable field (e.g., two filters
    identical except for their identity lists are combined into one filter
    with the union of identity lists)". *)
Definition merge_filters (filters : list RFilter) : list RFilter :=
  foldl (λ acc f, merge_into f acc) []
        (List.filter (λ f, negb (matches_nothing f)) filters).

(** Modelled from the spec: event-cache.ts is not among the sources.
    "Idempotent insert keyed by identity, no-op if already present". *)
Definition cache_add (e : REvent) (cache : list REvent) : list REvent :=
  if decide (id e ∈ id <$> cache) then cache else cache ++ [e].

Definition push_filter (f : RFilter) (m : JsMap.t (list RFilter)) (url : string)
    : JsMap.t (list RFilter) :=
  JsMap.set url (default [] (JsMap.get url m) ++ [f]) m.

Definition cached_for (cache : option (list REvent)) (f : RFilter)
    : list REvent :=
  match cache, ids f with
  | Some c, Some l => List.filter (λ e, bool_decide (id e ∈ l)) c
  | _, _ => []
  end.

Definition narrowed (options : SubscribeOptions) (cache : option (list REvent))
    (f : RFilter) : RFilter :=
  match allowDuplicateEvents options, ids f with
  | Some true, _ | _, None => f
  | _, Some l =>
      mkFilter (Some (filter (λ x, x ∉ id <$> cached_for cache f) l))
               (authors f) (kinds f) (relay f)
  end.

(** Modelled from the spec: group-filters-by-relay.ts is not among the
    sources.  Each filter goes to "the filter's own relay override if
    present, else the request's relay list"; cached events are "delivered
    synchronously to onEvent" and the filter is "narrowed or dropped" so
    that they are not requested again. *)
Definition group_filters (filters : list RFilter) (relays : list string)
    (onEvent : ROnEvent) (options : SubscribeOptions)
    (cache : option (list REvent))
    : list (ROnEvent * REvent * bool * option string) *
      (ROnEvent * JsMap.t (list RFilter)) :=
  let hits := filters ≫= cached_for cache in
  let remaining :=
    List.filter (λ f, negb (emptied (ids f))) (narrowed options cache <$> filters) in
  let by_relay :=
    foldl (λ m f,
             foldl (push_filter f) m
                   (match relay f with Some r => [r] | None => relays end))
          [] remaining in
  ((λ e, (onEvent, e, false, None)) <$> hits,
   (Deduped onEvent options, by_relay)).

(** Modelled from the spec: group-filters-by-relay.ts is not among the
    sources.  The router produces "a single merged per-relay filter mapping
    and a single merged event callback" from the whole batch. *)
Definition batch_filters (batch : list (ROnEvent * JsMap.t (list RFilter)))
    : ROnEvent * JsMap.t (list RFilter) :=
  (Merged batch.*1,
   foldl (λ m entry,
            foldl (λ m kv, foldl (λ m f, push_filter f m kv.1) m kv.2)
                  m entry.2)
         [] batch).

#[export] Instance reference : Collaborators := {|
  Filter := RFilter;
  Event := REvent;
  OnEvent := ROnEvent;
  OnEose := string;
  UrlCb := string;
  EventCache := list REvent;
  newEventCache := [];
  addEvent := cache_add;
  mergeSimilarAndRemoveEmptyFilters := merge_filters;
  batchFiltersByRelay := batch_filters;
  groupFiltersByRelayAndEmitCacheHits := group_filters
|}.

Definition by_ids (l : list string) : RFilter :=
  mkFilter (Some l) None None None.

(** A pool built with [new RelayPool()] at time [0]. *)
Definition fresh : World := constructor None None 0.

Definition no_options : SubscribeOptions := mkOptions None None.

(** The filter [{}]. *)
Definition unconstrained : RFilter := mkFilter None None None None.

(** [subscribe([{}], ["wss://r1"], cb, 100)] on a new pool: the request
    waits for its timer. *)
Definition pending_unconstrained : World :=
  resetTimer (Num 100)
    (enqueued [unconstrained] ["wss://r1"] (User "cb") no_options fresh).

(** A request for one event id on three relays, appended to the batch of a
    new pool. *)
Definition on_three_relays : World :=
  enqueued [by_ids ["a"]] ["wss://r1"; "wss://r2"; "wss://r3"] (User "cb")
           no_options fresh.

Definition ev (i : string) : REvent := mkEvent i "alice" 1.

(** Messages of three relays on the subscriptions 0, 1 and 2, interleaved. *)
Definition interleaved : list Input :=
  [ISubEvent 0 (ev "a"); ISubEvent 1 (ev "a"); ISubEose 0 Returns;
   IRelayNotice 1 "wss://r2" "slow down" None; ISubEvent 1 (ev "b");
   ISubEvent 2 (ev "a"); ISubEose 1 Returns; ISubEvent 1 (ev "c");
   ISubEose 2 Returns].

(** A pool built with one relay. *)
Definition with_r1 : World := constructor (Some ["wss://r1"]) None 0.

(** A first call that leaves a request pending with a delay of 300 ms. *)
Definition pending_300 : list Input :=
  [ISubscribe [by_ids ["z"]] ["wss://r1"] (User "cb0") (Some (Num 300)) None
              no_options].

(** On subscription 1 the relay sends an event, its marker, and an event;
    the [onEose] call throws. *)
Definition onEose_throws : list Input :=
  [ISubEvent 1 (ev "a"); ISubEose 1 Throws; ISubEvent 1 (ev "b")].

(** The connection of [with_r1] is established, then two callbacks are
    registered with [onnotice]. *)
Definition two_notice_callbacks : list Input :=
  [IConnectSettled 0 true; IOnNotice "first"; IOnNotice "cb"].

End Reference.

(** ** Further observations on runs *)

Section Observations.
Context `{C : Collaborators}.

(** The callbacks passed to [onnotice] during a run, in call order. *)
Definition registrations (inputs : list Input) : list UrlCb :=
  omap (λ i, if i is IOnNotice cb then Some cb else None) inputs.

(** The events among the messages of a relay. *)
Definition events_of (ms : list SubMsg) : list Event :=
  omap (λ m, if m is MEvent e then Some e else None) ms.

(** The call a message causes on a subscription whose "eose" listener has
    already run: [eventsBySub] is [undefined]. *)
Definition after_marker (sid : nat) (onEvent : OnEvent) (onEose : OnEose)
    (url : string) (m : SubMsg) : Action :=
  match m with
  | MEvent e => AOnEvent sid onEvent e true url
  | MEose _ => AOnEose sid onEose None url
  end.

(** The [relayInit] and [connect] calls of a trace. *)
Definition created (acts : list Action) : list (string * nat) :=
  omap (λ a, if a is ARelayInit url rid then Some (url, rid) else None) acts.

Definition connects (acts : list Action) : list nat :=
  omap (λ a, if a is AConnect rid then Some rid else None) acts.

(** The calls [publish] may make: [relayInit], [connect()] and
    [publish] on a relay. *)
Definition publish_call (a : Action) : bool :=
  match a with
  | ARelayInit _ _ | AConnect _ | APublish _ _ => true
  | _ => false
  end.

(** From [w] to [w'] the trace and the heap of connections grow together:
    each new connection object comes with one [relayInit] and one
    [connect] call, and no other such call is made. *)
Definition grows_by (w w' : World) : Prop :=
  ∃ acts urls,
    trace w' = trace w ++ acts
    ∧ r_url <$> relays w' = (r_url <$> relays w) ++ urls
    ∧ created acts = imap (λ i u, (u, length (relays w) + i)) urls
    ∧ connects acts = seq (length (relays w)) (length urls).

(** The arguments of one debounced [subscribe] call. *)
Record Request : Type := mkRequest {
  q_filters : list Filter;
  q_relays : list string;
  q_onEvent : OnEvent;
  q_options : SubscribeOptions
}.

(** What the router makes of a request, given the cache. *)
Definition routed (cache : option EventCache) (q : Request)
    : OnEvent * JsMap.t (list Filter) :=
  (groupFiltersByRelayAndEmitCacheHits
     (q_filters q) (q_relays q) (q_onEvent q) (q_options q) cache).2.

(** A burst of [subscribe] calls, all with the delay [d], each made [gap]
    milliseconds after the one before. *)
Definition burst (d : Z) (calls : list (N * Request)) : list Input :=
  calls ≫= λ c, [IAdvance c.1;
                 ISubscribe (q_filters c.2) (q_relays c.2) (q_onEvent c.2)
                            (Some (Num d)) None (q_options c.2)].

(** The time a burst takes. *)
Definition elapsed (calls : list (N * Request)) : Z :=
  foldr (λ c t, (Z.of_N c.1 + t)%Z) 0%Z calls.

End Observations.

(** ** More concrete runs *)

Module Scenarios.
Import Reference.

(** A relay that sends its marker twice on subscription 1, among messages
    on subscription 0. *)
Definition marked_twice : list Input :=
  [ISubEvent 1 (ev "a"); ISubEvent 0 (ev "a"); ISubEose 1 Returns;
   ISubEvent 1 (ev "b"); ISubEose 1 Throws; ISubEose 0 Returns].

(** A pool built with one relay, then told that [connect()] was
    rejected; what happens afterwards. *)
Definition after_failure : list Input :=
  [IConnectSettled 0 true; IRelayNotice 0 "wss://r1" "hello" None;
   IAddOrGetRelay "wss://r1"].

Definition request (name id : string) : Request :=
  mkRequest [by_ids [id]] ["wss://r1"] (User name) no_options.

(** Three debounced calls, 60 ms apart. *)
Definition three_calls : list (N * Request) :=
  [(0%N, request "cb1" "a"); (60%N, request "cb2" "b");
   (60%N, request "cb3" "c")].

End Scenarios.

(** * Properties *)

(** ** Maps and [unique] *)

Section MapFacts.
Context {V : Type}.
Implicit Types (m : JsMap.t V) (k : string) (v : V).

Lemma get_None_keys k m : JsMap.get k m = None ↔ k ∉ JsMap.keys m.
Proof.
  unfold JsMap.keys. induction m as [|[k' v'] m IH]; simpl.
  - split; [intros _; apply not_elem_of_nil | done].
  - case_decide as Hk; subst.
    + split; [done | intros Hn; exfalso; apply Hn; left].
    + rewrite IH, not_elem_of_cons. naive_solver.
Qed.

Lemma get_Some_elem k v m : JsMap.get k m = Some v → (k, v) ∈ m.
Proof.
  induction m as [|[k' v'] m IH]; simpl; [done|].
  case_decide; subst.
  - intros [= ->]. left.
  - intros. right. auto.
Qed.

Lemma set_absent k v m : JsMap.get k m = None → JsMap.set k v m = m ++ [(k, v)].
Proof.
  induction m as [|[k' v'] m IH]; simpl; [done|].
  case_decide; [done|]. intros Hg. by rewrite IH.
Qed.

Lemma get_app k m1 m2 :
  JsMap.get k (m1 ++ m2) =
  match JsMap.get k m1 with Some v => Some v | None => JsMap.get k m2 end.
Proof.
  induction m1 as [|[k' v'] m1 IH]; simpl; [done|]. by case_decide.
Qed.

Lemma get_set_eq k v m : JsMap.get k (JsMap.set k v m) = Some v.
Proof.
  induction m as [|[k' v'] m IH]; simpl.
  - by rewrite decide_True.
  - case_decide; simpl; [by rewrite decide_True | by rewrite decide_False].
Qed.

Lemma get_set_ne k k' v m : k ≠ k' → JsMap.get k (JsMap.set k' v m) = JsMap.get k m.
Proof.
  intros Hne. induction m as [|[k0 v0] m IH]; simpl.
  - by rewrite decide_False.
  - destruct (decide (k' = k0)) as [->|]; simpl.
    + by rewrite !decide_False.
    + case_decide; [done | apply IH].
Qed.

End MapFacts.

Lemma unique_from_elem seen arr x :
  x ∈ unique_from seen arr ↔ x ∈ arr ∧ x ∉ seen.
Proof.
  revert seen. induction arr as [|y arr IH]; intros seen; simpl.
  - split; [by intros ?%elem_of_nil | by intros [?%elem_of_nil _]].
  - case_decide as Hy.
    + rewrite IH, elem_of_cons. split; [naive_solver|].
      intros [[->|?] ?]; [done | by split].
    + rewrite !elem_of_cons, IH, not_elem_of_cons.
      split; [|destruct (decide (x = y)); naive_solver].
      intros [->|[? [? ?]]]; auto.
Qed.

Lemma unique_from_NoDup seen arr : NoDup (unique_from seen arr).
Proof.
  revert seen. induction arr as [|y arr IH]; intros seen; simpl.
  - constructor.
  - case_decide; [apply IH|]. constructor; [|apply IH].
    rewrite unique_from_elem, not_elem_of_cons. naive_solver.
Qed.

(** [unique_from] looks at [seen] only as a set. *)
Lemma unique_from_ext seen seen' arr :
  (∀ x, x ∈ seen ↔ x ∈ seen') → unique_from seen arr = unique_from seen' arr.
Proof.
  revert seen seen'. induction arr as [|y arr IH]; intros seen seen' Heq; simpl.
  - done.
  - destruct (decide (y ∈ seen)) as [Hy|Hy].
    + rewrite decide_True by (by apply Heq). by apply IH.
    + rewrite decide_False by (by rewrite <- Heq). f_equal. apply IH.
      intros x. rewrite !elem_of_cons, Heq. done.
Qed.

Lemma unique_from_app seen a b :
  unique_from seen (a ++ b) =
  unique_from seen a ++ unique_from (seen ++ unique_from seen a) b.
Proof.
  revert seen. induction a as [|y a IH]; intros seen; simpl.
  - by rewrite app_nil_r.
  - case_decide as Hy; [apply IH|]. simpl. f_equal. rewrite IH. f_equal.
    apply unique_from_ext. intros x.
    set_solver.
Qed.

(** Elements already seen, or already made unique, are not repeated. *)
Lemma unique_from_idem seen arr :
  unique_from seen (unique_from seen arr) = unique_from seen arr.
Proof.
  revert seen. induction arr as [|y arr IH]; intros seen; simpl; [done|].
  case_decide as Hy; [apply IH|]. simpl. rewrite decide_False by done.
  f_equal. apply IH.
Qed.

Lemma unique_elem arr x : x ∈ unique arr ↔ x ∈ arr.
Proof.
  unfold unique. rewrite unique_from_elem. split; [naive_solver|].
  intros ?. split; [done | apply not_elem_of_nil].
Qed.

Lemma unique_NoDup arr : NoDup (unique arr).
Proof. apply unique_from_NoDup. Qed.

(** ** The connection registry *)

Section Registry.
Context `{C : Collaborators}.
Implicit Types (w : World) (url : string) (rid : nat).

Lemma addOrGetRelay_hit url rid w :
  JsMap.get url (registry w) = Some rid → addOrGetRelay url w = (rid, w).
Proof. unfold addOrGetRelay. by intros ->. Qed.

Lemma addOrGetRelay_miss url w :
  JsMap.get url (registry w) = None →
  addOrGetRelay url w =
  (length (relays w),
   mkWorld (set_relayByUrl (registry w ++ [(url, length (relays w))]) (pool w))
           (relays w ++ [relayInit url]) (subs w) (timers w) (next_timer w)
           (now w)
           (trace w ++ [ARelayInit url (length (relays w));
                        AConnect (length (relays w))])).
Proof.
  intros Hg. unfold addOrGetRelay. rewrite Hg. f_equal.
  unfold log, upd_pool, set_relays; simpl.
  by rewrite set_absent, <- app_assoc.
Qed.

(** After the call the registry maps the URL to the returned instance. *)
Lemma addOrGetRelay_registered url w :
  JsMap.get url (registry (addOrGetRelay url w).2) = Some (addOrGetRelay url w).1.
Proof.
  destruct (JsMap.get url (registry w)) as [rid|] eqn:Hg.
  - by rewrite (addOrGetRelay_hit _ _ _ Hg).
  - rewrite (addOrGetRelay_miss _ _ Hg); simpl.
    by rewrite get_app, Hg; simpl; rewrite decide_True.
Qed.

(** An entry of the registry is never replaced by [addOrGetRelay]. *)
Lemma addOrGetRelay_keeps url url' rid w :
  JsMap.get url (registry w) = Some rid →
  JsMap.get url (registry (addOrGetRelay url' w).2) = Some rid.
Proof.
  intros Hg. destruct (JsMap.get url' (registry w)) as [rid'|] eqn:Hg'.
  - by rewrite (addOrGetRelay_hit _ _ _ Hg').
  - rewrite (addOrGetRelay_miss _ _ Hg'); simpl. by rewrite get_app, Hg.
Qed.

Lemma add_all_keeps urls url rid w :
  JsMap.get url (registry w) = Some rid →
  JsMap.get url (registry (add_all urls w)) = Some rid.
Proof.
  revert w. induction urls as [|u urls IH]; intros w Hg; simpl; [done|].
  apply IH. by apply addOrGetRelay_keeps.
Qed.

Lemma add_all_keys urls w :
  JsMap.keys (registry (add_all urls w)) =
  JsMap.keys (registry w) ++ unique_from (JsMap.keys (registry w)) urls.
Proof.
  revert w. induction urls as [|u urls IH]; intros w.
  - simpl. by rewrite app_nil_r.
  - change (add_all (u :: urls) w) with (add_all urls (addOrGetRelay u w).2).
    rewrite IH. simpl.
    destruct (JsMap.get u (registry w)) as [rid|] eqn:Hg.
    + rewrite (addOrGetRelay_hit _ _ _ Hg); simpl.
      rewrite decide_True; [done|].
      destruct (decide (u ∈ JsMap.keys (registry w))) as [|Hn]; [done|].
      apply get_None_keys in Hn. congruence.
    + rewrite (addOrGetRelay_miss _ _ Hg); simpl.
      rewrite decide_False by (by apply get_None_keys).
      unfold JsMap.keys. rewrite fmap_app, <- app_assoc. simpl. do 2 f_equal.
      apply unique_from_ext. set_solver.
Qed.

(** C5. [addOrGetRelay] is idempotent.  Whatever the pool's state, a call
    for a URL that was requested before (with any [addOrGetRelay] calls in
    between) returns the instance the first call returned and leaves the
    world as it is.  For a pool built by the constructor and any sequence of
    further [addOrGetRelay] calls, the keys of [relayByUrl] are the distinct
    URLs requested so far, in order of first request, so its size is their
    number. *)
Theorem addOrGetRelay_idempotent
    (init : option (list string)) (noCache : option bool) (t0 : Z)
    (urls : list string) :
  let requested := default [] init ++ urls in
  let w := add_all urls (constructor init noCache t0) in
  JsMap.keys (registry w) = unique requested
  ∧ JsMap.size (registry w) = length (unique requested)
  ∧ NoDup (unique requested)
  ∧ (∀ url, url ∈ unique requested ↔ url ∈ requested)
  ∧ ∀ (w0 : World) url more,
      addOrGetRelay url (add_all more (addOrGetRelay url w0).2) =
      ((addOrGetRelay url w0).1, add_all more (addOrGetRelay url w0).2).
Proof.
  intros requested w.
  assert (Hkeys : JsMap.keys (registry w) = unique requested).
  { subst w requested. rewrite add_all_keys. unfold unique, constructor.
    destruct init as [l|]; simpl.
    - rewrite add_all_keys; simpl.
      by rewrite unique_from_idem, unique_from_app.
    - done. }
  split; [done|]. split; [|split; [apply unique_NoDup|split;
                                    [apply unique_elem|]]].
  - unfold JsMap.size. rewrite <- Hkeys. unfold JsMap.keys.
    by rewrite length_fmap.
  - intros w0 url more. apply addOrGetRelay_hit, add_all_keeps,
      addOrGetRelay_registered.
Qed.

End Registry.

(** ** What opening connections and subscriptions leaves alone *)

Section Frames.
Context `{C : Collaborators}.
Implicit Types (w : World) (url : string) (rid sid : nat).

Lemma wire_frame_refl w : wire_frame w w.
Proof.
  split; try done.
  - exists []. by rewrite app_nil_r.
  - exists []. by rewrite app_nil_r.
  - exists []. by rewrite app_nil_r.
Qed.

Lemma wire_frame_trans w1 w2 w3 :
  wire_frame w1 w2 → wire_frame w2 w3 → wire_frame w1 w3.
Proof.
  intros [] []. split; try congruence; try by eauto.
  - destruct wf_relays0 as [u1 E1], wf_relays1 as [u2 E2].
    exists (u1 ++ u2). by rewrite E2, E1, fmap_app, app_assoc.
  - destruct wf_subs0 as [n1 E1], wf_subs1 as [n2 E2].
    exists (n1 ++ n2). by rewrite E2, E1, app_assoc.
  - destruct wf_trace0 as (a1 & E1 & F1), wf_trace1 as (a2 & E2 & F2).
    exists (a1 ++ a2). split; [by rewrite E2, E1, app_assoc|].
    by apply Forall_app.
Qed.

Lemma addOrGetRelay_frame url w : wire_frame w (addOrGetRelay url w).2.
Proof.
  destruct (JsMap.get url (registry w)) as [rid|] eqn:Hg.
  - rewrite (addOrGetRelay_hit _ _ _ Hg). apply wire_frame_refl.
  - rewrite (addOrGetRelay_miss _ _ Hg). split; simpl; try done.
    + by exists [url].
    + exists []. by rewrite app_nil_r.
    + intros url' rid' Hg'. by rewrite get_app, Hg'.
    + intros Hok url' rid'. simpl. rewrite get_app, fmap_app.
      destruct (JsMap.get url' (registry w)) as [rid0|] eqn:Hg'.
      * intros [= <-]. by apply lookup_app_l_Some, Hok.
      * simpl. case_decide; [|done]. intros [= <-]. subst url'.
        rewrite lookup_app_r by (by rewrite length_fmap).
        by rewrite length_fmap, Nat.sub_diag.
    + eexists. split; [done|]. by repeat constructor.
Qed.

Lemma subscribeRelay_frame url fs cb oe w :
  wire_frame w (subscribeRelay url fs cb oe w).2.
Proof.
  unfold subscribeRelay. case_decide; [apply wire_frame_refl|].
  pose proof (addOrGetRelay_frame url w) as Hf.
  destruct (addOrGetRelay url w) as [rid w1]. simpl in *.
  eapply wire_frame_trans; [exact Hf|].
  split; simpl; try done.
  - exists []. by rewrite app_nil_r.
  - by eexists.
  - eexists. split; [done|]. by repeat constructor.
Qed.

Lemma subscribeRelays_loop_frame m cb oe acc w :
  wire_frame w (subscribeRelays_loop m cb oe acc w).2.
Proof.
  revert acc w. induction m as [|[url fs] m IH]; intros acc w; simpl.
  - apply wire_frame_refl.
  - pose proof (subscribeRelay_frame url fs cb oe w) as Hf.
    destruct (subscribeRelay url fs cb oe w) as [s w1].
    eapply wire_frame_trans; [exact Hf | apply IH].
Qed.

Lemma publish_all_frame e l w : wire_frame w (publish_all e l w).
Proof.
  unfold publish_all. revert w.
  induction l as [|u l IH]; intros w; simpl.
  - apply wire_frame_refl.
  - eapply wire_frame_trans; [|apply IH].
    pose proof (addOrGetRelay_frame u w) as Hf.
    destruct (addOrGetRelay u w) as [rid w1]. simpl in *.
    eapply wire_frame_trans; [exact Hf|].
    split; simpl; try done.
    + exists []. by rewrite app_nil_r.
    + exists []. by rewrite app_nil_r.
    + eexists. split; [done|]. by repeat constructor.
Qed.

Lemma publish_frame e urls w : wire_frame w (publish e urls w).
Proof. apply publish_all_frame. Qed.

Lemma add_all_frame urls w : wire_frame w (add_all urls w).
Proof.
  revert w. induction urls as [|u l IH]; intros w.
  - apply wire_frame_refl.
  - change (add_all (u :: l) w) with (add_all l (addOrGetRelay u w).2).
    eapply wire_frame_trans; [apply addOrGetRelay_frame | apply IH].
Qed.

End Frames.

(** ** Flushing the pending batch *)

Section Flush.
Context `{C : Collaborators}.
Implicit Types (w : World) (url : string) (rid sid : nat).

Lemma subscribeRelay_skip url fs cb oe w :
  mergeSimilarAndRemoveEmptyFilters fs = [] →
  subscribeRelay url fs cb oe w = (None, w).
Proof. intros E. unfold subscribeRelay. by rewrite E, decide_True. Qed.

Lemma addOrGetRelay_subs url w : subs (addOrGetRelay url w).2 = subs w.
Proof.
  destruct (JsMap.get url (registry w)) as [rid|] eqn:Hg.
  - by rewrite (addOrGetRelay_hit _ _ _ Hg).
  - by rewrite (addOrGetRelay_miss _ _ Hg).
Qed.

Lemma subscribeRelay_open url fs cb oe w :
  mergeSimilarAndRemoveEmptyFilters fs ≠ [] →
  ∃ w', subscribeRelay url fs cb oe w = (Some (length (subs w)), w')
        ∧ subs w' = subs w ++ [sub_for cb oe w' (url, fs)]
        ∧ is_Some (JsMap.get url (registry w')).
Proof.
  intros Hne. unfold subscribeRelay. rewrite decide_False.
  2:{ by destruct (mergeSimilarAndRemoveEmptyFilters fs). }
  pose proof (addOrGetRelay_registered url w) as Hreg.
  pose proof (addOrGetRelay_subs url w) as Hsubs.
  destruct (addOrGetRelay url w) as [rid w1]; simpl in *.
  eexists. split; [by rewrite Hsubs|]. simpl.
  unfold sub_for; simpl. by rewrite Hreg.
Qed.

Lemma sub_for_registry cb oe w w' entry rid :
  JsMap.get entry.1 (registry w) = Some rid →
  wire_frame w w' →
  sub_for cb oe w' entry = sub_for cb oe w entry.
Proof.
  intros Hg Hf. unfold sub_for. by rewrite Hg, (wf_registry _ _ Hf _ _ Hg).
Qed.

(** The loop opens one subscription for each live entry, in order, and
    collects exactly those. *)
Lemma subscribeRelays_loop_subs m cb oe acc w :
  (subscribeRelays_loop m cb oe acc w).1 =
    acc ++ seq (length (subs w)) (length (live m))
  ∧ subs (subscribeRelays_loop m cb oe acc w).2 =
    subs w ++ (sub_for cb oe (subscribeRelays_loop m cb oe acc w).2 <$> live m).
Proof.
  revert acc w. induction m as [|[url fs] m IH]; intros acc w; simpl.
  - by rewrite !app_nil_r.
  - destruct (decide (mergeSimilarAndRemoveEmptyFilters fs = [])) as [E|Hne].
    + rewrite (subscribeRelay_skip _ _ _ _ _ E).
      replace (opens_sub (url, fs)) with false
        by (unfold opens_sub; simpl; by rewrite E).
      apply IH.
    + destruct (subscribeRelay_open url fs cb oe w Hne)
        as (w1 & E1 & Hs1 & [rid Hrid]).
      rewrite E1.
      replace (opens_sub (url, fs)) with true.
      2:{ unfold opens_sub; simpl. rewrite bool_decide_eq_false_2; [done|].
          by destruct (mergeSimilarAndRemoveEmptyFilters fs). }
      simpl. destruct (IH (acc ++ [length (subs w)]) w1) as [IH1 IH2].
      split.
      * rewrite IH1, Hs1, length_app, <- app_assoc. simpl.
        by rewrite Nat.add_1_r.
      * rewrite IH2, Hs1, <- app_assoc. simpl. do 2 f_equal.
        symmetry. eapply (sub_for_registry _ _ w1 _ (url, fs)).
        -- exact Hrid.
        -- apply subscribeRelays_loop_frame.
Qed.

Lemma unsub_all opened w :
  pool (call_cancel (UnsubAll opened) w) = pool w
  ∧ relays (call_cancel (UnsubAll opened) w) = relays w
  ∧ timers (call_cancel (UnsubAll opened) w) = timers w
  ∧ subs (call_cancel (UnsubAll opened) w) =
      foldl (λ ss sid, alter set_unsubbed sid ss) (subs w) opened
  ∧ trace (call_cancel (UnsubAll opened) w) = trace w ++ (AUnsub <$> opened).
Proof.
  simpl. revert w. induction opened as [|sid l IH]; intros w; simpl.
  - by rewrite app_nil_r.
  - destruct (IH (unsub sid w)) as (-> & -> & -> & -> & ->). simpl.
    by rewrite <- app_assoc.
Qed.

Lemma unsub_fresh (pre news : list Sub) :
  foldl (λ ss sid, alter set_unsubbed sid ss) (pre ++ news)
        (seq (length pre) (length news)) =
  pre ++ (set_unsubbed <$> news).
Proof.
  revert pre. induction news as [|s news IH]; intros pre; simpl; [done|].
  rewrite alter_app_r_alt, Nat.sub_diag by done. simpl.
  replace (pre ++ set_unsubbed s :: news)
    with ((pre ++ [set_unsubbed s]) ++ news) by (by rewrite <- app_assoc).
  replace (S (length pre)) with (length (pre ++ [set_unsubbed s]))
    by (rewrite length_app; simpl; lia).
  rewrite IH. by rewrite <- app_assoc.
Qed.

Lemma clearTimeout_pool h w : pool (clearTimeout h w) = pool w.
Proof. by destruct h. Qed.

Lemma clearTimeout_subs h w : subs (clearTimeout h w) = subs w.
Proof. by destruct h. Qed.

Lemma clearTimeout_relays h w : relays (clearTimeout h w) = relays w.
Proof. by destruct h. Qed.

(** [sendSubscriptions] is the loop run on the routed batch, in the world
    where the timer is cancelled, the debounce state reset and the batch
    cleared. *)
Lemma sendSubscriptions_unfold oe w :
  sendSubscriptions oe w =
  (UnsubAll
     (subscribeRelays_loop (batchFiltersByRelay (filtersToSubscribe (pool w))).2
        (batchFiltersByRelay (filtersToSubscribe (pool w))).1 oe []
        (upd_pool (set_filtersToSubscribe [])
           (upd_pool (set_minMaxDelayms Infinity)
              (upd_pool (set_timer None)
                 (clearTimeout (timer (pool w)) w))))).1,
   (subscribeRelays_loop (batchFiltersByRelay (filtersToSubscribe (pool w))).2
      (batchFiltersByRelay (filtersToSubscribe (pool w))).1 oe []
      (upd_pool (set_filtersToSubscribe [])
         (upd_pool (set_minMaxDelayms Infinity)
            (upd_pool (set_timer None)
               (clearTimeout (timer (pool w)) w))))).2).
Proof.
  unfold sendSubscriptions, subscribeRelays. simpl.
  rewrite clearTimeout_pool.
  destruct (batchFiltersByRelay (filtersToSubscribe (pool w))) as [cb m].
  simpl. by destruct (subscribeRelays_loop _ _ _ _ _).
Qed.

(** What a flush does, field by field. *)
Lemma flush_spec (oe : option OnEose) (w : World) :
  let cb := (batchFiltersByRelay (filtersToSubscribe (pool w))).1 in
  let m := (batchFiltersByRelay (filtersToSubscribe (pool w))).2 in
  let w' := (sendSubscriptions oe w).2 in
  let opened := seq (length (subs w)) (length (live m)) in
  timers w' = timers (clearTimeout (timer (pool w)) w)
  ∧ timer (pool w') = None
  ∧ minMaxDelayms (pool w') = Infinity
  ∧ filtersToSubscribe (pool w') = []
  ∧ subs w' = subs w ++ (sub_for cb oe w' <$> live m)
  ∧ (sendSubscriptions oe w).1 = UnsubAll opened
  ∧ subs (call_cancel (UnsubAll opened) w') =
      subs w ++ (set_unsubbed <$> (sub_for cb oe w' <$> live m))
  ∧ trace (call_cancel (UnsubAll opened) w') = trace w' ++ (AUnsub <$> opened).
Proof.
  intros cb m w' opened. subst w'. rewrite sendSubscriptions_unfold. simpl.
  fold cb m.
  set (w0 := upd_pool _ (upd_pool _ (upd_pool _ (clearTimeout _ w)))).
  destruct (subscribeRelays_loop_subs m cb oe [] w0) as [Ho Hs].
  pose proof (subscribeRelays_loop_frame m cb oe [] w0) as Hf.
  set (w' := (subscribeRelays_loop m cb oe [] w0).2) in *.
  assert (Hsw : subs w0 = subs w) by (subst w0; simpl; apply clearTimeout_subs).
  rewrite Hsw in *.
  destruct (unsub_all opened w') as (_ & _ & _ & Hu & Ht).
  repeat split.
  - by rewrite (wf_timers _ _ Hf).
  - by rewrite (wf_timer _ _ Hf).
  - by rewrite (wf_minMaxDelayms _ _ Hf).
  - by rewrite (wf_filtersToSubscribe _ _ Hf).
  - done.
  - by rewrite Ho.
  - simpl in Hu. rewrite Hu, Hs. subst opened.
    rewrite <- (length_fmap (sub_for cb oe w')). apply unsub_fresh.
  - exact Ht.
Qed.

(** C3, as the code has it.  [sendSubscriptions] cancels the pending
    timer, resets the debounce state ([minMaxDelayms] back to [Infinity],
    [timer] cleared), hands the whole pending batch to the router, which
    yields one merged callback and one relay-to-filters mapping, clears the
    batch, and opens one wire subscription for every relay of the mapping
    whose merged filter list is not empty (and none for the others), each
    on the connection registered for its URL.  It returns a function whose
    invocation unsubscribes every wire subscription this flush opened. *)
Theorem sendSubscriptions_flushes (oe : option OnEose) (w : World) :
  let cb := (batchFiltersByRelay (filtersToSubscribe (pool w))).1 in
  let m := (batchFiltersByRelay (filtersToSubscribe (pool w))).2 in
  let w' := (sendSubscriptions oe w).2 in
  let opened := seq (length (subs w)) (length (live m)) in
  timers w' = match timer (pool w) with
              | Some id => filter (λ t, t_id t ≠ id) (timers w)
              | None => timers w
              end
  ∧ timer (pool w') = None
  ∧ minMaxDelayms (pool w') = Infinity
  ∧ filtersToSubscribe (pool w') = []
  ∧ subs w' = subs w ++ (sub_for cb oe w' <$> live m)
  ∧ (sendSubscriptions oe w).1 = UnsubAll opened
  ∧ subs (call_cancel (UnsubAll opened) w') =
      subs w ++ (set_unsubbed <$> (sub_for cb oe w' <$> live m))
  ∧ trace (call_cancel (UnsubAll opened) w') = trace w' ++ (AUnsub <$> opened).
Proof.
  intros cb m w' opened.
  destruct (flush_spec oe w) as (Ht & Hrest). split; [|exact Hrest].
  fold w' in Ht. rewrite Ht. by destruct (timer (pool w)).
Qed.

End Flush.

(** ** Relays whose filters merge to nothing *)

Section EmptyMerge.
Context `{C : Collaborators}.
Implicit Types (w : World) (url : string).

Lemma subscribeRelay_other url u fs cb oe w :
  u ≠ url →
  JsMap.get url (registry (subscribeRelay u fs cb oe w).2) =
    JsMap.get url (registry w)
  ∧ ∃ urls, relays (subscribeRelay u fs cb oe w).2 =
              relays w ++ (relayInit <$> urls) ∧ url ∉ urls.
Proof.
  intros Hne. unfold subscribeRelay. case_decide.
  { split; [done|]. exists []. split; [by rewrite app_nil_r | set_solver]. }
  destruct (JsMap.get u (registry w)) as [rid|] eqn:Hg.
  - rewrite (addOrGetRelay_hit _ _ _ Hg). simpl.
    split; [done|]. exists []. split; [by rewrite app_nil_r | set_solver].
  - rewrite (addOrGetRelay_miss _ _ Hg). simpl. split.
    + rewrite get_app. destruct (JsMap.get url (registry w)); [done|].
      simpl. by rewrite decide_False.
    + exists [u]. split; [done | set_solver].
Qed.

Lemma subscribeRelays_loop_untouched url m cb oe acc w :
  (∀ fs, (url, fs) ∈ m → mergeSimilarAndRemoveEmptyFilters fs = []) →
  JsMap.get url (registry (subscribeRelays_loop m cb oe acc w).2) =
    JsMap.get url (registry w)
  ∧ ∃ urls, relays (subscribeRelays_loop m cb oe acc w).2 =
              relays w ++ (relayInit <$> urls) ∧ url ∉ urls.
Proof.
  revert acc w. induction m as [|[u fs] m IH]; intros acc w Hm; simpl.
  { split; [done|]. exists []. split; [by rewrite app_nil_r | set_solver]. }
  assert (Hm' : ∀ fs', (url, fs') ∈ m →
                       mergeSimilarAndRemoveEmptyFilters fs' = []).
  { intros fs' Hin. apply Hm. by right. }
  destruct (decide (mergeSimilarAndRemoveEmptyFilters fs = [])) as [E|Hne].
  - rewrite (subscribeRelay_skip _ _ _ _ _ E). by apply IH.
  - assert (Hu : u ≠ url).
    { intros ->. apply Hne, Hm. left. }
    destruct (subscribeRelay_other url u fs cb oe w Hu) as (Hg & us & Hr & Hn).
    destruct (subscribeRelay u fs cb oe w) as [s w1]. simpl in *.
    destruct (IH (match s with Some s0 => acc ++ [s0] | None => acc end) w1 Hm')
      as (Hg' & us' & Hr' & Hn').
    split; [congruence|]. exists (us ++ us'). split; [|set_solver].
    by rewrite Hr', Hr, fmap_app, app_assoc.
Qed.

(** C7. A relay whose filter list merges-and-removes-empties to the empty
    list makes [#subscribeRelay] return before [addOrGetRelay]: the world is
    untouched.  So when the pending batch is flushed, for a relay of the
    mapping whose filters merge to nothing, no wire subscription is opened
    for it, the registry has the same entry (or none) for it as before, and
    none of the connections the flush creates is for it. *)
Theorem empty_merge_opens_nothing (oe : option OnEose) (w : World)
    (url : string) (filters : list Filter) :
  let m := (batchFiltersByRelay (filtersToSubscribe (pool w))).2 in
  let w' := (sendSubscriptions oe w).2 in
  (url, filters) ∈ m →
  (∀ fs, (url, fs) ∈ m → mergeSimilarAndRemoveEmptyFilters fs = []) →
  (∀ cb w0, subscribeRelay url filters cb oe w0 = (None, w0))
  ∧ JsMap.get url (registry w') = JsMap.get url (registry w)
  ∧ (∃ urls, relays w' = relays w ++ (relayInit <$> urls) ∧ url ∉ urls)
  ∧ (∃ new, subs w' = subs w ++ new ∧ ∀ s, s ∈ new → s_url s ≠ url).
Proof.
  intros m w' Hin Hm.
  split; [intros; apply subscribeRelay_skip; by apply Hm|].
  destruct (flush_spec oe w) as (_ & _ & _ & _ & Hs & _).
  fold w' m in Hs.
  subst w'. rewrite sendSubscriptions_unfold in *. simpl in *. fold m in Hs |- *.
  set (cb := (batchFiltersByRelay (filtersToSubscribe (pool w))).1) in *.
  set (w0 := upd_pool _ (upd_pool _ (upd_pool _ (clearTimeout _ w)))) in *.
  destruct (subscribeRelays_loop_untouched url m cb oe [] w0 Hm)
    as (Hg & us & Hr & Hn).
  split; [|split].
  - rewrite Hg. subst w0. simpl. by rewrite clearTimeout_pool.
  - exists us. split; [|done]. rewrite Hr. subst w0. simpl.
    by rewrite clearTimeout_relays.
  - eexists. split; [exact Hs|]. intros s [entry [-> He]]%list_elem_of_fmap.
    simpl. intros Heq. apply list_elem_of_In, filter_In in He as [He Ho].
    apply list_elem_of_In in He. destruct entry as [u fs]. simpl in *.
    subst u. unfold opens_sub in Ho. simpl in Ho.
    rewrite (Hm _ He) in Ho. done.
Qed.

End EmptyMerge.

(** ** [subscribe]: the configuration error and the two ways out *)

Section Subscribe.
Context `{C : Collaborators}.
Implicit Types (w : World) (d : number).

(** The three outcomes of [subscribe], by the truthiness of its optional
    arguments. *)
Lemma subscribe_cases fs rs cb (md : option number) oe opts w :
  subscribe fs rs cb md oe opts w =
  if supplied_truthy md && supplied oe
  then Throw "maxDelayms and onEose cannot be used together" w
  else match md with
       | Some d =>
           if truthy d then Ok NoOp (resetTimer d (enqueued fs rs cb opts w))
           else returned (sendSubscriptions oe (enqueued fs rs cb opts w))
       | None => returned (sendSubscriptions oe (enqueued fs rs cb opts w))
       end.
Proof.
  unfold subscribe, enqueued, returned.
  destruct (supplied_truthy md && supplied oe); [done|].
  destruct (groupFiltersByRelayAndEmitCacheHits _ _ _ _ _) as [hits [cb' m]].
  simpl. destruct md as [d|].
  - destruct (truthy d); [done|]. by destruct (sendSubscriptions _ _).
  - by destruct (sendSubscriptions _ _).
Qed.

(** C1, as the code has it.  When [maxDelayms] is truthy (a number other
    than [0] and [NaN]) and [onEose] is supplied, [subscribe] throws the
    configuration error and leaves the world exactly as it found it:
    nothing is appended to the pending batch, no cache hit is delivered, no
    wire subscription is opened, no connection is created, no timer is
    armed. *)
Theorem subscribe_rejects_delay_with_onEose
    (filters : list Filter) (relays : list string) (onEvent : OnEvent)
    (maxDelayms : number) (onEose : OnEose) (options : SubscribeOptions)
    (w : World) :
  truthy maxDelayms = true →
  subscribe filters relays onEvent (Some maxDelayms) (Some onEose) options w =
  Throw "maxDelayms and onEose cannot be used together" w.
Proof. intros Ht. rewrite subscribe_cases. simpl. by rewrite Ht. Qed.

(** C9. [subscribe] with [maxDelayms = 0] does what it does with no
    [maxDelayms] at all: it returns (it never throws, with or without
    [onEose]) the result of flushing, in the same turn, the batch with the
    request appended, passing [onEose] on to the flush.  The flush is the
    whole of it: the armed timeout is cancelled and none is armed, the
    debounce state is reset, the batch is emptied, and one wire
    subscription is opened, with [onEose], for each relay of the mapping
    routed from the pending batch and the request whose merged filter list
    is not empty; the function returned covers exactly those. *)
Theorem subscribe_zero_delay_is_no_delay
    (filters : list Filter) (relays : list string) (onEvent : OnEvent)
    (onEose : option OnEose) (options : SubscribeOptions) (w : World) :
  let batch :=
    filtersToSubscribe (pool w) ++
    [routed (eventCache (pool w))
            (mkRequest filters relays onEvent options)] in
  let w' := (sendSubscriptions onEose
               (enqueued filters relays onEvent options w)).2 in
  let new := sub_for (batchFiltersByRelay batch).1 onEose w'
             <$> live (batchFiltersByRelay batch).2 in
  subscribe filters relays onEvent (Some (Num 0)) onEose options w =
    subscribe filters relays onEvent None onEose options w
  ∧ subscribe filters relays onEvent (Some (Num 0)) onEose options w =
    returned (sendSubscriptions onEose
                (enqueued filters relays onEvent options w))
  ∧ subscribe filters relays onEvent (Some (Num 0)) onEose options w =
    Ok (UnsubAll (seq (length (subs w)) (length new))) w'
  ∧ timer (pool w') = None
  ∧ timers w' = match timer (pool w) with
                | Some id => filter (λ t, t_id t ≠ id) (timers w)
                | None => timers w
                end
  ∧ minMaxDelayms (pool w') = Infinity
  ∧ filtersToSubscribe (pool w') = []
  ∧ subs w' = subs w ++ new.
Proof.
  intros batch w' new. rewrite !subscribe_cases. simpl.
  destruct (flush_spec onEose
              (enqueued filters relays onEvent options w))
    as (Htm & Ht & Hmin & Hb & Hs & Ho & _).
  fold w' in Htm, Ht, Hmin, Hb, Hs.
  change (subs (enqueued filters relays onEvent options w))
    with (subs w) in *.
  change (filtersToSubscribe (pool (enqueued filters relays onEvent options w)))
    with batch in *.
  fold new in Hs.
  split; [done|]. split; [done|]. split.
  { unfold returned. rewrite Ho. subst new. by rewrite length_fmap. }
  split; [done|]. split.
  { rewrite Htm. simpl. by destruct (timer (pool w)). }
  done.
Qed.

(** [#resetTimer] opens and closes nothing, and leaves the batch alone. *)
Lemma resetTimer_keeps d w :
  subs (resetTimer d w) = subs w
  ∧ relays (resetTimer d w) = relays w
  ∧ trace (resetTimer d w) = trace w
  ∧ filtersToSubscribe (pool (resetTimer d w)) = filtersToSubscribe (pool w).
Proof.
  unfold resetTimer.
  destruct (gt (minMaxDelayms (pool w)) d); simpl;
    rewrite ?clearTimeout_pool; simpl;
    destruct (not_Infinity _); simpl;
    rewrite ?clearTimeout_pool, ?clearTimeout_subs, ?clearTimeout_relays;
    simpl; repeat split; try done;
    by destruct (timer (pool w)).
Qed.

(** C6. With a truthy [maxDelayms] (and no [onEose], which would be the
    configuration error) [subscribe] flushes nothing: the request joins
    the pending batch and no wire subscription is opened; it returns
    [() => {}], and calling that leaves any world as it is.  Without
    [maxDelayms] it flushes in the same turn: the batch is emptied, no
    timeout stays armed, and one wire subscription is opened for each
    relay of the mapping routed from the pending batch and the request
    whose merged filter list is not empty.  It returns the flush's
    unsubscribe function: the wire subscriptions opened by the flush are
    exactly those it covers, and calling it marks each of them
    unsubscribed, with one [unsub] call each, and touches no other
    subscription. *)
Theorem subscribe_returns
    (filters : list Filter) (relays : list string) (onEvent : OnEvent)
    (maxDelayms : number) (onEose : option OnEose)
    (options : SubscribeOptions) (w : World) :
  let batch :=
    filtersToSubscribe (pool w) ++
    [routed (eventCache (pool w))
            (mkRequest filters relays onEvent options)] in
  truthy maxDelayms = true →
  (let w1 := resetTimer maxDelayms
               (enqueued filters relays onEvent options w) in
   subscribe filters relays onEvent (Some maxDelayms) None options w =
     Ok NoOp w1
   ∧ (∀ w0, call_cancel NoOp w0 = w0)
   ∧ filtersToSubscribe (pool w1) = batch
   ∧ subs w1 = subs w)
  ∧ (let w' := (sendSubscriptions onEose
                  (enqueued filters relays onEvent options w)).2 in
     let new := sub_for (batchFiltersByRelay batch).1 onEose w'
                <$> live (batchFiltersByRelay batch).2 in
     let opened := seq (length (subs w)) (length new) in
     subscribe filters relays onEvent None onEose options w =
       Ok (UnsubAll opened) w'
     ∧ filtersToSubscribe (pool w') = []
     ∧ timer (pool w') = None
     ∧ timers w' = match timer (pool w) with
                   | Some id => filter (λ t, t_id t ≠ id) (timers w)
                   | None => timers w
                   end
     ∧ subs w' = subs w ++ new
     ∧ subs (call_cancel (UnsubAll opened) w') =
         subs w ++ (set_unsubbed <$> new)
     ∧ trace (call_cancel (UnsubAll opened) w') =
         trace w' ++ (AUnsub <$> opened)).
Proof.
  intros batch Ht. split.
  - intros w1. rewrite subscribe_cases. simpl. rewrite Ht.
    destruct (resetTimer_keeps maxDelayms
                (enqueued filters relays onEvent options w))
      as (Hs & _ & _ & Hb).
    fold w1 in Hs, Hb. by repeat split.
  - intros w' new opened. rewrite subscribe_cases. simpl. unfold returned.
    destruct (flush_spec onEose
                (enqueued filters relays onEvent options w))
      as (Htm & Htr0 & _ & Hb & Hs & Ho & Hu & Htr).
    fold w' in Htm, Htr0, Hb, Hs, Hu, Htr.
    change (subs (enqueued filters relays onEvent options w))
      with (subs w) in *.
    change (filtersToSubscribe
              (pool (enqueued filters relays onEvent options w)))
      with batch in *.
    assert (Hop : opened = seq (length (subs w))
                             (length (live (batchFiltersByRelay batch).2))).
    { unfold opened, new. by rewrite length_fmap. }
    rewrite Hop. unfold new.
    split; [by rewrite Ho|]. split; [done|]. split; [done|]. split.
    { rewrite Htm. simpl. by destruct (timer (pool w)). }
    split; [exact Hs|]. split; [exact Hu | exact Htr].
Qed.

End Subscribe.

(** ** Methods that move the scheduler *)

Section Scheduler.
Context `{C : Collaborators}.
Implicit Types (w : World) (d : number).

Lemma obj_frame_refl w : obj_frame w w.
Proof.
  split; try done; exists []; by rewrite app_nil_r.
Qed.

Lemma obj_frame_trans w1 w2 w3 :
  obj_frame w1 w2 → obj_frame w2 w3 → obj_frame w1 w3.
Proof.
  intros [] []. split; try congruence; try by eauto.
  - destruct of_relays0 as [u1 E1], of_relays1 as [u2 E2].
    exists (u1 ++ u2). by rewrite E2, E1, fmap_app, app_assoc.
  - destruct of_subs0 as [n1 E1], of_subs1 as [n2 E2].
    exists (n1 ++ n2). by rewrite E2, E1, app_assoc.
  - destruct of_trace0 as (a1 & E1 & F1), of_trace1 as (a2 & E2 & F2).
    exists (a1 ++ a2). split; [by rewrite E2, E1, app_assoc|].
    by apply Forall_app.
Qed.

Lemma wire_frame_obj w w' : wire_frame w w' → obj_frame w w'.
Proof. intros []. by split. Qed.

(** A world that differs only in the scheduler's fields, the event loop's
    timeouts and the clock. *)
Lemma obj_frame_sched w w' :
  relayByUrl (pool w') = relayByUrl (pool w) →
  noticecbs (pool w') = noticecbs (pool w) →
  relays w' = relays w → subs w' = subs w → trace w' = trace w →
  obj_frame w w'.
Proof.
  intros HR HN Hr Hs Ht. split; try done.
  - exists []. by rewrite app_nil_r.
  - exists []. by rewrite app_nil_r.
  - intros url rid. by rewrite HR.
  - unfold registry_ok. by rewrite HR, Hr.
  - exists []. by rewrite app_nil_r.
Qed.

Lemma enqueued_frame fs rs cb opts w : obj_frame w (enqueued fs rs cb opts w).
Proof.
  unfold enqueued. split; simpl; try done.
  - exists []. by rewrite app_nil_r.
  - exists []. by rewrite app_nil_r.
  - eexists. split; [done|]. apply Forall_fmap, Forall_true. done.
Qed.

Lemma resetTimer_frame d w : obj_frame w (resetTimer d w).
Proof.
  unfold resetTimer.
  destruct (gt (minMaxDelayms (pool w)) d);
    destruct (timer (pool _)); simpl;
    match goal with |- context [not_Infinity ?x] => destruct (not_Infinity x) end;
    by apply obj_frame_sched.
Qed.

Lemma sendSubscriptions_frame oe w : obj_frame w (sendSubscriptions oe w).2.
Proof.
  rewrite sendSubscriptions_unfold. simpl.
  eapply obj_frame_trans;
    [|apply wire_frame_obj, subscribeRelays_loop_frame].
  destruct (timer (pool w)); by apply obj_frame_sched.
Qed.

Lemma subscribe_frame fs rs cb md oe opts w :
  obj_frame w (step w (ISubscribe fs rs cb md oe opts)).
Proof.
  simpl. rewrite subscribe_cases.
  destruct (supplied_truthy md && supplied oe); [apply obj_frame_refl|].
  pose proof (enqueued_frame fs rs cb opts w) as He.
  destruct md as [d|]; [destruct (truthy d)|]; simpl;
    (eapply obj_frame_trans; [exact He|]);
    auto using resetTimer_frame, sendSubscriptions_frame.
Qed.

Lemma timer_fires_frame id w : obj_frame w (default w (timer_fires id w)).
Proof.
  unfold timer_fires. destruct (filter _ (timers w)) as [|t ?]; simpl.
  { apply obj_frame_refl. }
  case_decide; simpl; [|apply obj_frame_refl].
  eapply obj_frame_trans; [|apply sendSubscriptions_frame].
  by apply obj_frame_sched.
Qed.

End Scheduler.

(** ** The debounce timer *)

Section Debounce.
Context `{C : Collaborators}.
Implicit Types (w : World) (d : number).

Lemma foldl_keeps {A B : Type} (f : World → A → World) (g : World → B) :
  (∀ w a, g (f w a) = g w) → ∀ l w, g (foldl f w l) = g w.
Proof.
  intros Hf l. induction l as [|a l IH]; intros w; simpl; [done|].
  by rewrite IH, Hf.
Qed.

Lemma onerror_fields cb w :
  pool (onerror cb w) = pool w ∧ subs (onerror cb w) = subs w
  ∧ timers (onerror cb w) = timers w ∧ trace (onerror cb w) = trace w.
Proof.
  unfold onerror. generalize (relayByUrl (pool w)) as l. intros l.
  by rewrite (foldl_keeps _ pool), (foldl_keeps _ subs),
    (foldl_keeps _ timers), (foldl_keeps _ trace).
Qed.

Lemma ondisconnect_fields cb w :
  pool (ondisconnect cb w) = pool w ∧ subs (ondisconnect cb w) = subs w
  ∧ timers (ondisconnect cb w) = timers w
  ∧ trace (ondisconnect cb w) = trace w.
Proof.
  unfold ondisconnect. generalize (relayByUrl (pool w)) as l. intros l.
  by rewrite (foldl_keeps _ pool), (foldl_keeps _ subs),
    (foldl_keeps _ timers), (foldl_keeps _ trace).
Qed.

Lemma close_fields w :
  pool (close w) = set_relayByUrl [] (pool w) ∧ subs (close w) = subs w
  ∧ timers (close w) = timers w.
Proof.
  unfold close. simpl.
  by rewrite (foldl_keeps _ pool), (foldl_keeps _ subs), (foldl_keeps _ timers).
Qed.

Lemma timer_ok_ext w w' :
  timer (pool w') = timer (pool w) →
  minMaxDelayms (pool w') = minMaxDelayms (pool w) →
  timers w' = timers w →
  timer_ok w → timer_ok w'.
Proof. unfold timer_ok. by intros -> -> ->. Qed.

Lemma timer_ok_one w : timer_ok w → length (timers w) ≤ 1.
Proof.
  intros [_ H]. destruct (timer (pool w)).
  - destruct H as (_ & t0 & ->). done.
  - destruct H as [_ ->]. simpl. lia.
Qed.

Lemma timer_ok_cleared w :
  timer_ok w → timers (clearTimeout (timer (pool w)) w) = [].
Proof.
  intros [_ H]. destruct (timer (pool w)) as [id|]; simpl.
  - destruct H as (_ & t0 & ->). rewrite filter_cons. simpl.
    case_decide; [congruence | done].
  - by destruct H.
Qed.

Lemma sendSubscriptions_timer_ok oe w :
  timers (clearTimeout (timer (pool w)) w) = [] →
  timer_ok (sendSubscriptions oe w).2.
Proof.
  intros Hc.
  destruct (flush_spec oe w) as (Ht & Hn & Hm & _).
  unfold timer_ok. by rewrite Hn, Hm, Ht, Hc.
Qed.

(** The assignment of lines 123-125 stores the minimum. *)
Lemma lowered_is_min (a d : number) :
  a ≠ NaN → d ≠ NaN → (if gt a d then d else a) = num_min a d.
Proof.
  intros Ha Hd. destruct a as [x| | |], d as [y| | |]; simpl; try done.
  destruct (Z.ltb_spec y x); f_equal; lia.
Qed.

Lemma truthy_not_NaN d : truthy d = true → d ≠ NaN.
Proof. by destruct d. Qed.

Lemma num_min_not_NaN (a d : number) : a ≠ NaN → d ≠ NaN → num_min a d ≠ NaN.
Proof. by destruct a, d. Qed.

(** [#resetTimer] in a world whose debounce state is consistent: the
    stored minimum is lowered to the minimum, the armed timeout (if any) is
    gone, and one timeout is armed, from now, unless the minimum is
    [Infinity]. *)
Lemma resetTimer_spec d w :
  timer_ok w → d ≠ NaN →
  let lowest := num_min (minMaxDelayms (pool w)) d in
  minMaxDelayms (pool (resetTimer d w)) = lowest
  ∧ filtersToSubscribe (pool (resetTimer d w)) = filtersToSubscribe (pool w)
  ∧ eventCache (pool (resetTimer d w)) = eventCache (pool w)
  ∧ now (resetTimer d w) = now w
  ∧ subs (resetTimer d w) = subs w
  ∧ (if not_Infinity lowest
     then timers (resetTimer d w) = [mkTimer (next_timer w) lowest (now w)]
          ∧ timer (pool (resetTimer d w)) = Some (next_timer w)
          ∧ next_timer (resetTimer d w) = S (next_timer w)
     else timers (resetTimer d w) = []
          ∧ timer (pool (resetTimer d w)) = None
          ∧ next_timer (resetTimer d w) = next_timer w).
Proof.
  intros Hok Hd lowest. pose proof (timer_ok_cleared w Hok) as Hc.
  destruct Hok as [Ha _].
  pose proof (lowered_is_min _ _ Ha Hd) as Hmin. fold lowest in Hmin.
  unfold resetTimer.
  destruct (gt (minMaxDelayms (pool w)) d); simpl in *;
    rewrite ?clearTimeout_pool; simpl; rewrite Hmin;
    destruct (not_Infinity lowest); simpl;
    rewrite ?clearTimeout_pool; simpl;
    destruct (timer (pool w)); simpl in *; by rewrite ?Hc.
Qed.

Lemma resetTimer_timer_ok d w :
  timer_ok w → d ≠ NaN → timer_ok (resetTimer d w).
Proof.
  intros Hok Hd.
  destruct (resetTimer_spec d w Hok Hd) as (Hm & _ & _ & _ & _ & Hl).
  pose proof (num_min_not_NaN _ _ (proj1 Hok) Hd) as Hn.
  unfold timer_ok. rewrite Hm.
  destruct (num_min (minMaxDelayms (pool w)) d) eqn:E; simpl in Hl;
    destruct Hl as (-> & -> & _); try done; eauto.
Qed.

Lemma wire_frame_timer_ok w w' : wire_frame w w' → timer_ok w → timer_ok w'.
Proof. intros []. by apply timer_ok_ext. Qed.

Lemma step_timer_ok w i : timer_ok w → timer_ok (step w i).
Proof.
  intros Hok. destruct i; simpl.
  - rewrite subscribe_cases.
    destruct (supplied_truthy maxDelayms && supplied onEose); [done|].
    assert (He : timer_ok (enqueued filters relays0 onEvent options w))
      by (by apply (timer_ok_ext w)).
    destruct maxDelayms as [d|]; [destruct (truthy d) eqn:Ht|]; simpl.
    + by apply resetTimer_timer_ok, truthy_not_NaN.
    + by apply sendSubscriptions_timer_ok, timer_ok_cleared.
    + by apply sendSubscriptions_timer_ok, timer_ok_cleared.
  - by apply sendSubscriptions_timer_ok, timer_ok_cleared.
  - eapply wire_frame_timer_ok; [apply addOrGetRelay_frame | done].
  - eapply wire_frame_timer_ok; [apply publish_frame | done].
  - by apply (timer_ok_ext w).
  - destruct (onerror_fields cb w) as (Hp & _ & Ht & _).
    apply (timer_ok_ext w); by rewrite ?Hp.
  - destruct (ondisconnect_fields cb w) as (Hp & _ & Ht & _).
    apply (timer_ok_ext w); by rewrite ?Hp.
  - destruct (close_fields w) as (Hp & _ & Ht).
    apply (timer_ok_ext w); by rewrite ?Hp.
  - destruct c as [|opened]; [done|].
    destruct (unsub_all opened w) as (Hp & _ & Ht & _).
    apply (timer_ok_ext w); by rewrite ?Hp.
  - by apply (timer_ok_ext w).
  - unfold timer_fires. destruct (filter _ (timers w)) as [|t l] eqn:Hf; [done|].
    case_decide; [|done]. simpl. apply sendSubscriptions_timer_ok.
    destruct Hok as [_ Hok]. simpl.
    destruct (timer (pool w)) as [id0|]; simpl.
    + destruct Hok as (_ & t0 & Hts). rewrite Hts in *.
      rewrite filter_cons, filter_nil in Hf |- *. simpl in *.
      destruct (decide (id0 = id)) as [->|Hne]; [|done].
      rewrite decide_False by naive_solver. by rewrite filter_nil.
    + destruct Hok as [_ Hts]. by rewrite Hts in Hf.
  - unfold connect_settled. destruct (relays w !! rid) as [r|]; [|done].
    destruct (r_status r); [destruct fulfilled| |]; by apply (timer_ok_ext w).
  - unfold relay_notice. destruct (relays w !! rid) as [r|]; [|done].
    destruct (r_notice r); by apply (timer_ok_ext w).
  - unfold relay_error. destruct (relays w !! rid) as [r|]; [|done].
    by apply (timer_ok_ext w).
  - unfold relay_disconnect. destruct (relays w !! rid) as [r|]; [|done].
    by apply (timer_ok_ext w).
  - unfold sub_event. destruct (subs w !! sid) as [s|]; [|done].
    destruct (s_unsubbed s); by apply (timer_ok_ext w).
  - unfold sub_eose. destruct (subs w !! sid) as [s|]; [|done].
    destruct (s_unsubbed s); [done|].
    destruct (s_onEose s); [destruct o|]; by apply (timer_ok_ext w).
Qed.

Lemma constructor_timer_ok init noCache t0 :
  timer_ok (constructor init noCache t0).
Proof.
  unfold constructor. set (w0 := mkWorld _ _ _ _ _ _ _).
  assert (H0 : timer_ok w0) by done.
  destruct init as [l|]; [|done].
  eapply wire_frame_timer_ok; [apply add_all_frame | done].
Qed.

Lemma run_timer_ok w inputs : timer_ok w → timer_ok (run w inputs).
Proof.
  revert w. induction inputs as [|i l IH]; intros w Hok; simpl; [done|].
  by apply IH, step_timer_ok.
Qed.

(** The flush run by a due timeout is the flush of the world it fires in. *)
Lemma timer_fires_armed id t w :
  timer (pool w) = Some id → timers w = [t] → t_id t = id →
  timer_fires id w =
  if decide (due_at t ≤ now w)%Z then Some (sendSubscriptions None w).2
  else None.
Proof.
  intros Hp Ht Hid. unfold timer_fires. rewrite Ht, !filter_cons, !filter_nil.
  rewrite decide_True by done. case_decide; [|done].
  rewrite decide_False by naive_solver. f_equal.
  assert (E : clearTimeout (timer (pool w)) (set_timers [] w) =
              clearTimeout (timer (pool w)) w).
  { rewrite Hp. unfold clearTimeout, set_timers. simpl.
    rewrite Ht, filter_cons, !filter_nil.
    by rewrite decide_False by naive_solver. }
  rewrite !sendSubscriptions_unfold. simpl. by rewrite E.
Qed.

Lemma timer_fires_unarmed id w : timers w = [] → timer_fires id w = None.
Proof. intros Ht. unfold timer_fires. by rewrite Ht. Qed.

(** C2, as the code has it.  In every world a constructed pool can reach,
    by any calls and any turns of the event loop, at most one timeout is
    armed: none when [timer] is unset, else the one [timer] holds, waiting
    for [minMaxDelayms].  A [subscribe] with a truthy [maxDelayms] (and no [onEose])
    appends the request, stores the minimum of the previous minimum and
    [maxDelayms], cancels the armed timeout and, unless that minimum is
    [Infinity] (then none is armed), arms one timeout from now with the
    minimum.  So when no request with a delay shorter than 100 is pending
    (the stored minimum is not below 100), two calls with delays 500 and
    then 100 leave one timeout, armed at the second call for 100 ms;
    it cannot run earlier, and when it runs it flushes the batch holding
    both requests, after which nothing is pending and no timeout is left to
    cause another flush. *)
Theorem debounce_timer
    (init : option (list string)) (noCache : option bool) (t0 : Z)
    (inputs : list Input) :
  let w := run (constructor init noCache t0) inputs in
  (length (timers w) ≤ 1 ∧ timer_ok w)
  ∧ (∀ fs rs cb d opts,
       truthy d = true →
       let w' := resetTimer d (enqueued fs rs cb opts w) in
       let lowest := num_min (minMaxDelayms (pool w)) d in
       subscribe fs rs cb (Some d) None opts w = Ok NoOp w'
       ∧ minMaxDelayms (pool w') = lowest
       ∧ timers w' =
           (if not_Infinity lowest
            then [mkTimer (next_timer w) lowest (now w)] else [])
       ∧ filtersToSubscribe (pool w') =
           filtersToSubscribe (pool w) ++
           [(groupFiltersByRelayAndEmitCacheHits
               fs rs cb opts (eventCache (pool w))).2])
  ∧ (∀ fs1 rs1 cb1 opts1 fs2 rs2 cb2 opts2 (dt : N),
       num_min (minMaxDelayms (pool w)) (Num 100) = Num 100 →
       let w1 := step w (ISubscribe fs1 rs1 cb1 (Some (Num 500)) None opts1) in
       let w2 := step (advance dt w1)
                   (ISubscribe fs2 rs2 cb2 (Some (Num 100)) None opts2) in
       let batch :=
         filtersToSubscribe (pool w) ++
         [(groupFiltersByRelayAndEmitCacheHits
             fs1 rs1 cb1 opts1 (eventCache (pool w))).2;
          (groupFiltersByRelayAndEmitCacheHits
             fs2 rs2 cb2 opts2 (eventCache (pool w))).2] in
       timers w2 = [mkTimer (S (next_timer w)) (Num 100) (now w + Z.of_N dt)]
       ∧ filtersToSubscribe (pool w2) = batch
       ∧ (∀ id (wait : N),
            timer_fires id (advance wait w2) =
            if decide (id = S (next_timer w) ∧ (100 ≤ wait)%N)
            then Some (sendSubscriptions None (advance wait w2)).2
            else None)
       ∧ (∀ (wait : N),
            let w3 := (sendSubscriptions None (advance wait w2)).2 in
            filtersToSubscribe (pool w3) = []
            ∧ timers w3 = []
            ∧ subs w3 =
                subs w ++
                (sub_for (batchFiltersByRelay batch).1 None w3 <$>
                 live (batchFiltersByRelay batch).2)
            ∧ ∀ id (wait' : N), timer_fires id (advance wait' w3) = None)).
Proof.
  intros w.
  assert (Hok : timer_ok w)
    by apply run_timer_ok, constructor_timer_ok.
  split; [split; [by apply timer_ok_one | done]|]. split.
  - intros fs rs cb d opts Ht w' lowest.
    assert (He : timer_ok (enqueued fs rs cb opts w))
      by (by apply (timer_ok_ext w)).
    destruct (resetTimer_spec d _ He (truthy_not_NaN _ Ht))
      as (Hm & Hb & _ & _ & _ & Hl).
    rewrite subscribe_cases. simpl. rewrite Ht.
    repeat split; try done.
    simpl in Hl. fold lowest in Hl. by destruct (not_Infinity lowest), Hl.
  - intros fs1 rs1 cb1 opts1 fs2 rs2 cb2 opts2 dt Hinf w1 w2 batch.
    assert (He1 : timer_ok (enqueued fs1 rs1 cb1 opts1 w))
      by (by apply (timer_ok_ext w)).
    destruct (resetTimer_spec (Num 500) _ He1 ltac:(done))
      as (Hm1 & Hb1 & Hc1 & Hn1 & Hs1 & Hl1).
    simpl in Hm1, Hb1, Hc1, Hn1, Hs1, Hl1.
    assert (Hlow1 : ∃ z, num_min (minMaxDelayms (pool w)) (Num 500) = Num z
                         ∧ (100 ≤ z)%Z).
    { destruct (minMaxDelayms (pool w)) as [z| | |]; simpl in Hinf |- *;
        try done.
      - injection Hinf as Hz. exists (Z.min z 500). split; [done | lia].
      - exists 500%Z. split; [done | lia]. }
    destruct Hlow1 as (z1 & Hz1 & Hge1).
    rewrite Hz1 in Hm1, Hl1. simpl in Hl1. destruct Hl1 as (Ht1 & Hp1 & Hx1).
    assert (E1 : w1 = resetTimer (Num 500) (enqueued fs1 rs1 cb1 opts1 w)).
    { subst w1. simpl. by rewrite subscribe_cases. }
    assert (Hok1 : timer_ok (advance dt w1)).
    { apply (step_timer_ok _ (IAdvance dt)). rewrite E1.
      by apply resetTimer_timer_ok. }
    assert (He2 : timer_ok (enqueued fs2 rs2 cb2 opts2 (advance dt w1)))
      by (by apply (timer_ok_ext (advance dt w1))).
    destruct (resetTimer_spec (Num 100) _ He2 ltac:(done))
      as (Hm2 & Hb2 & _ & Hn2 & Hs2 & Hl2).
    assert (E2 : w2 = resetTimer (Num 100)
                        (enqueued fs2 rs2 cb2 opts2 (advance dt w1))).
    { subst w2. simpl. by rewrite subscribe_cases. }
    rewrite <- E2 in *. simpl in Hm2, Hb2, Hn2, Hs2, Hl2.
    rewrite <- E1 in *. rewrite Hm1 in Hm2, Hl2. simpl in Hm2, Hl2.
    replace (Z.min z1 100) with 100%Z in Hm2, Hl2 by lia. simpl in Hl2.
    rewrite Hx1, Hn1 in Hl2. rewrite Hn1 in Hn2. rewrite Hs1 in Hs2.
    rewrite Hb1, Hc1, <- app_assoc in Hb2. simpl in Hb2.
    destruct Hl2 as (Ht2 & Hp2 & _).
    split; [done|]. split; [done|].
    assert (Hfire : ∀ id (wait : N),
              timer_fires id (advance wait w2) =
              if decide (id = S (next_timer w) ∧ (100 ≤ wait)%N)
              then Some (sendSubscriptions None (advance wait w2)).2
              else None).
    { intros id wait. destruct (decide (id = S (next_timer w))) as [->|Hne].
      - rewrite (timer_fires_armed _ _ (advance wait w2) Hp2 Ht2 eq_refl).
        unfold due_at. simpl. rewrite Hn2.
        destruct (decide (100 ≤ wait)%N).
        + rewrite decide_True by lia. by rewrite decide_True.
        + rewrite decide_False by lia. by rewrite decide_False by naive_solver.
      - rewrite decide_False by naive_solver.
        unfold timer_fires. simpl. rewrite Ht2, filter_cons, filter_nil.
        simpl. by rewrite decide_False. }
    split; [exact Hfire|].
    intros wait w3.
    destruct (flush_spec None (advance wait w2))
      as (Htm & _ & _ & Hb3 & Hs3 & _).
    fold w3 in Htm, Hb3, Hs3. simpl in Htm, Hs3.
    rewrite Hp2 in Htm. rewrite Hb2, Hs2 in Hs3. fold batch in Hs3.
    assert (Ht3 : timers w3 = []).
    { rewrite Htm. simpl. rewrite Ht2, filter_cons, filter_nil. simpl.
      by rewrite decide_False by naive_solver. }
    repeat split; try done.
    intros id wait'. by apply timer_fires_unarmed.
Qed.

End Debounce.

(** ** What a turn of the event loop does to the objects *)

Section Turns.
Context `{C : Collaborators}.
Implicit Types (w : World) (i : Input) (rid sid : nat).

Lemma step_wire i w : is_wire i = true → obj_frame w (step w i).
Proof.
  destruct i; try done; intros _.
  - apply subscribe_frame.
  - apply sendSubscriptions_frame.
  - apply wire_frame_obj, addOrGetRelay_frame.
  - apply wire_frame_obj, publish_frame.
  - apply timer_fires_frame.
Qed.

Lemma evolves_refl i r : evolves i r r.
Proof. unfold evolves. auto. Qed.

(** [onerror] and [ondisconnect] on the heap of relays. *)
Lemma add_listeners_lookup (add : UrlCb * string → Relay → Relay) cb
    (m : JsMap.t nat) (l : list Relay) rid r
    (fld : Relay → list (UrlCb * string)) :
  (∀ h r0, fld (add h r0) = fld r0 ++ [h]) →
  l !! rid = Some r →
  ∃ r' added,
    foldl (λ l entry, alter (add (cb, entry.1)) entry.2 l) l m !! rid = Some r'
    ∧ fld r' = fld r ++ added
    ∧ Forall (λ h, h.1 = cb) added
    ∧ (∀ url, (url, rid) ∈ m → (cb, url) ∈ added)
    ∧ (rid ∉ m.*2 → r' = r)
    ∧ ∀ P : Relay → Prop, P r → (∀ h r0, P r0 → P (add h r0)) → P r'.
Proof.
  intros Hadd. revert l r. induction m as [|[u j] m IH]; intros l r Hl; simpl.
  - exists r, []. rewrite app_nil_r. repeat split; try done.
    intros url Hin. by apply elem_of_nil in Hin.
  - destruct (decide (j = rid)) as [->|Hne].
    + destruct (IH (alter (add (cb, u)) rid l) (add (cb, u) r))
        as (r' & added & Hr' & Hf & Hall & Hin & Hnot & HP).
      { by rewrite list_lookup_alter_eq, Hl. }
      exists r', ((cb, u) :: added). rewrite Hr'. repeat split; try done.
      * by rewrite Hf, Hadd, <- app_assoc.
      * by constructor.
      * intros url [[= <-]|Hin']%elem_of_cons; [left | right; auto].
      * intros Hn. exfalso. apply Hn. left.
      * intros P HPr HPa. apply HP; auto.
    + destruct (IH (alter (add (cb, u)) j l) r)
        as (r' & added & Hr' & Hf & Hall & Hin & Hnot & HP).
      { by rewrite list_lookup_alter_ne. }
      exists r', added. rewrite Hr'. repeat split; try done.
      * intros url [[= _ ?]|Hin']%elem_of_cons; [done | auto].
      * intros Hn. apply Hnot. intros Hx. apply Hn. by right.
Qed.

Lemma onerror_relays cb w :
  relays (onerror cb w) =
  foldl (λ l entry, alter (add_error (cb, entry.1)) entry.2 l)
        (relays w) (registry w).
Proof.
  unfold onerror. generalize (registry w) as m. intros m. revert w.
  induction m as [|e m IH]; intros w; simpl; [done|]. by rewrite IH.
Qed.

Lemma ondisconnect_relays cb w :
  relays (ondisconnect cb w) =
  foldl (λ l entry, alter (add_disconnect (cb, entry.1)) entry.2 l)
        (relays w) (registry w).
Proof.
  unfold ondisconnect. generalize (registry w) as m. intros m. revert w.
  induction m as [|e m IH]; intros w; simpl; [done|]. by rewrite IH.
Qed.

Lemma close_relays_lookup w rid r :
  relays w !! rid = Some r →
  ∃ r', relays (close w) !! rid = Some r' ∧ evolves IClose r r'.
Proof.
  unfold close. simpl.
  generalize (JsMap.values (registry w)) as l. intros l. revert w r.
  induction l as [|j l IH]; intros w r Hl; simpl.
  - exists r. split; [done | apply evolves_refl].
  - destruct (decide (j = rid)) as [->|Hne].
    + destruct (IH (log [AClose rid]
                      (set_relays (alter set_closed rid (relays w)) w))
                   (set_closed r)) as (r' & Hr' & Hev).
      { simpl. by rewrite list_lookup_alter_eq, Hl. }
      exists r'. split; [done|]. exact Hev.
    + apply IH. simpl. by rewrite list_lookup_alter_ne.
Qed.

(** Every [Relay] object survives every turn, and changes only as
    [evolves] allows. *)
Lemma step_relays i w rid r :
  relays w !! rid = Some r →
  ∃ r', relays (step w i) !! rid = Some r' ∧ evolves i r r'.
Proof.
  intros Hl.
  destruct (is_wire i) eqn:Hw.
  { destruct (of_relays _ _ (step_wire i w Hw)) as [urls E].
    exists r. split; [|apply evolves_refl].
    rewrite E. by apply lookup_app_l_Some. }
  destruct i; try done; simpl;
    try (exists r; split; [done | apply evolves_refl]).
  - rewrite onerror_relays.
    destruct (add_listeners_lookup add_error cb (registry w) _ _ _ r_error
                ltac:(done) Hl) as (r' & added & Hr' & Hf & Hall & _ & _ & HP).
    exists r'. split; [done|]. unfold evolves. repeat split.
    + by apply (HP (λ x, r_url x = r_url r)).
    + intros Hn. by apply (HP (λ x, r_notice x = true)).
    + right. eauto.
    + left. by apply (HP (λ x, r_disconnect x = r_disconnect r)).
  - rewrite ondisconnect_relays.
    destruct (add_listeners_lookup add_disconnect cb (registry w) _ _ _
                r_disconnect ltac:(done) Hl)
      as (r' & added & Hr' & Hf & Hall & _ & _ & HP).
    exists r'. split; [done|]. unfold evolves. repeat split.
    + by apply (HP (λ x, r_url x = r_url r)).
    + intros Hn. by apply (HP (λ x, r_notice x = true)).
    + left. by apply (HP (λ x, r_error x = r_error r)).
    + right. eauto.
  - by apply close_relays_lookup.
  - destruct c as [|opened]; simpl.
    + exists r. split; [done | apply evolves_refl].
    + destruct (unsub_all opened w) as (_ & Hr & _). simpl in Hr.
      rewrite Hr. exists r. split; [done | apply evolves_refl].
  - unfold connect_settled. destruct (relays w !! rid0) as [r0|] eqn:Hl0.
    2:{ exists r. split; [done | apply evolves_refl]. }
    destruct (r_status r0);
      try (exists r; split; [done | apply evolves_refl]).
    destruct (decide (rid0 = rid)) as [->|Hne].
    + assert (r0 = r) as -> by congruence.
      apply lookup_lt_Some in Hl.
      destruct fulfilled; simpl; rewrite list_lookup_insert_eq by done;
        eexists; (split; [done|]); unfold evolves; simpl; auto.
    + destruct fulfilled; simpl; rewrite list_lookup_insert_ne by done;
        exists r; (split; [done | apply evolves_refl]).
  - unfold relay_notice. destruct (relays w !! rid0) as [r0|];
      [destruct (r_notice r0)|]; exists r; (split; [done | apply evolves_refl]).
  - unfold relay_error. destruct (relays w !! rid0) as [r0|];
      exists r; (split; [done | apply evolves_refl]).
  - unfold relay_disconnect. destruct (relays w !! rid0) as [r0|];
      exists r; (split; [done | apply evolves_refl]).
  - unfold sub_event. destruct (subs w !! sid) as [s|];
      [destruct (s_unsubbed s)|]; exists r; (split; [done | apply evolves_refl]).
  - unfold sub_eose. destruct (subs w !! sid) as [s|];
      [destruct (s_unsubbed s); [|destruct (s_onEose s); [destruct o|]]|];
      exists r; (split; [done | apply evolves_refl]).
Qed.

(** The pool's registry and notice callbacks across the turns that are
    not covered by [step_wire]. *)
Lemma step_pool i w :
  is_wire i = false →
  noticecbs (pool (step w i)) =
    noticecbs (pool w) ++ (if i is IOnNotice cb then [cb] else [])
  ∧ registry (step w i) = (if i is IClose then [] else registry w).
Proof.
  destruct i; try done; intros _; cbn [step]; rewrite ?app_nil_r; try done.
  - by destruct (onerror_fields cb w) as (-> & _).
  - by destruct (ondisconnect_fields cb w) as (-> & _).
  - by destruct (close_fields w) as (-> & _).
  - destruct c as [|opened]; [done|].
    by destruct (unsub_all opened w) as (-> & _).
  - unfold connect_settled. destruct (relays w !! rid) as [r|]; [|done].
    destruct (r_status r); [destruct fulfilled| |]; done.
  - unfold relay_notice. destruct (relays w !! rid) as [r|]; [|done].
    by destruct (r_notice r).
  - unfold relay_error. by destruct (relays w !! rid).
  - unfold relay_disconnect. by destruct (relays w !! rid).
  - unfold sub_event. destruct (subs w !! sid) as [s|]; [|done].
    by destruct (s_unsubbed s).
  - unfold sub_eose. destruct (subs w !! sid) as [s|]; [|done].
    destruct (s_unsubbed s); [done|]. by destruct (s_onEose s); [destruct o|].
Qed.

Lemma step_registry_ok i w : registry_ok w → registry_ok (step w i).
Proof.
  intros Hok. destruct (is_wire i) eqn:Hw.
  { by apply (of_registry_ok _ _ (step_wire i w Hw)). }
  destruct (step_pool i w Hw) as [_ HR].
  intros url rid. rewrite HR. intros Hg.
  assert (Hg' : JsMap.get url (registry w) = Some rid) by (by destruct i).
  apply Hok in Hg'. rewrite list_lookup_fmap in Hg' |- *.
  destruct (relays w !! rid) as [r|] eqn:Hl; [|done].
  destruct (step_relays i w rid r Hl) as (r' & -> & Hu & _).
  simpl in *. congruence.
Qed.

Lemma step_noticecbs i w cb :
  cb ∈ noticecbs (pool w) → cb ∈ noticecbs (pool (step w i)).
Proof.
  intros Hin. destruct (is_wire i) eqn:Hw.
  { by rewrite (of_noticecbs _ _ (step_wire i w Hw)). }
  destruct (step_pool i w Hw) as [-> _]. set_solver.
Qed.

Lemma step_relays_length i w :
  is_wire i = false → length (relays (step w i)) = length (relays w).
Proof.
  destruct i; try done; intros _; cbn [step]; try done.
  - unfold onerror.
    apply (foldl_keeps _ (λ w, length (relays w))).
    intros w0 a. simpl. apply length_alter.
  - unfold ondisconnect.
    apply (foldl_keeps _ (λ w, length (relays w))).
    intros w0 a. simpl. apply length_alter.
  - unfold close. simpl.
    apply (foldl_keeps _ (λ w, length (relays w))).
    intros w0 a. simpl. apply length_alter.
  - destruct c as [|opened]; [done|].
    by destruct (unsub_all opened w) as (_ & -> & _).
  - unfold connect_settled. destruct (relays w !! rid) as [r|]; [|done].
    destruct (r_status r); [destruct fulfilled| |]; simpl;
      by rewrite ?length_insert.
  - unfold relay_notice. destruct (relays w !! rid) as [r|]; [|done].
    by destruct (r_notice r).
  - unfold relay_error. by destruct (relays w !! rid).
  - unfold relay_disconnect. by destruct (relays w !! rid).
  - unfold sub_event. destruct (subs w !! sid) as [s|]; [|done].
    by destruct (s_unsubbed s).
  - unfold sub_eose. destruct (subs w !! sid) as [s|]; [|done].
    destruct (s_unsubbed s); [done|]. by destruct (s_onEose s); [destruct o|].
Qed.

(** An object that a turn creates is a fresh connection: no listeners. *)
Lemma step_new i w rid r :
  relays (step w i) !! rid = Some r → length (relays w) ≤ rid →
  r = relayInit (r_url r).
Proof.
  intros Hl Hge. destruct (is_wire i) eqn:Hw.
  - destruct (of_relays _ _ (step_wire i w Hw)) as [urls E].
    rewrite E, lookup_app_r, list_lookup_fmap in Hl by done.
    destruct (urls !! _); [|done]. simpl in Hl. by injection Hl as <-.
  - apply lookup_lt_Some in Hl. rewrite step_relays_length in Hl by done. lia.
Qed.

Lemma run_registry_ok w inputs : registry_ok w → registry_ok (run w inputs).
Proof.
  revert w. induction inputs as [|i l IH]; intros w Hok; simpl; [done|].
  by apply IH, step_registry_ok.
Qed.

Lemma constructor_registry_ok init noCache t0 :
  registry_ok (constructor init noCache t0).
Proof.
  unfold constructor. set (w0 := mkWorld _ _ _ _ _ _ _).
  assert (H0 : registry_ok w0) by done.
  destruct init as [l|]; [|done].
  by apply (wf_registry_ok _ _ (add_all_frame (unique l) w0)).
Qed.

Lemma run_noticecbs w inputs cb :
  cb ∈ noticecbs (pool w) → cb ∈ noticecbs (pool (run w inputs)).
Proof.
  revert w. induction inputs as [|i l IH]; intros w Hin; simpl; [done|].
  by apply IH, step_noticecbs.
Qed.

(** Along a run every object survives; the listeners on it only grow. *)
Lemma run_relays w inputs rid r :
  relays w !! rid = Some r →
  ∃ r', relays (run w inputs) !! rid = Some r'
        ∧ r_url r' = r_url r
        ∧ (r_notice r = true → r_notice r' = true)
        ∧ (∀ h, h ∈ r_error r → h ∈ r_error r')
        ∧ (∀ h, h ∈ r_disconnect r → h ∈ r_disconnect r')
        ∧ (∀ cb, (∀ cb', IOnError cb' ∈ inputs → cb' ≠ cb) →
                 cb ∉ (r_error r).*1 → cb ∉ (r_error r').*1)
        ∧ (∀ cb, (∀ cb', IOnDisconnect cb' ∈ inputs → cb' ≠ cb) →
                 cb ∉ (r_disconnect r).*1 → cb ∉ (r_disconnect r').*1).
Proof.
  revert w r. induction inputs as [|i l IH]; intros w r Hl; simpl.
  { exists r. by repeat split. }
  destruct (step_relays i w rid r Hl) as (r1 & Hl1 & Hu & Hn & He & Hd).
  destruct (IH _ _ Hl1) as (r' & Hl' & Hu' & Hn' & Hpe & Hpd & He' & Hd').
  exists r'. split; [done|]. split; [congruence|]. split; [auto|].
  split; [|split; [|split]].
  - intros h Hh. apply Hpe.
    destruct He as [->|(cb0 & added & _ & -> & _)]; set_solver.
  - intros h Hh. apply Hpd.
    destruct Hd as [->|(cb0 & added & _ & -> & _)]; set_solver.
  - intros cb Hno Hnot. apply He'.
    { intros cb' Hin. apply Hno. by right. }
    destruct He as [->|(cb0 & added & -> & -> & Hall)]; [done|].
    rewrite fmap_app, not_elem_of_app. split; [done|].
    intros [h [-> Hh]]%list_elem_of_fmap.
    rewrite Forall_forall in Hall. apply (Hno cb0); [left|].
    symmetry. by apply Hall.
  - intros cb Hno Hnot. apply Hd'.
    { intros cb' Hin. apply Hno. by right. }
    destruct Hd as [->|(cb0 & added & -> & -> & Hall)]; [done|].
    rewrite fmap_app, not_elem_of_app. split; [done|].
    intros [h [-> Hh]]%list_elem_of_fmap.
    rewrite Forall_forall in Hall. apply (Hno cb0); [left|].
    symmetry. by apply Hall.
Qed.

(** [close()] keeps of a connection what [relay.close()] keeps. *)
Lemma close_relays_keep (P : Relay → Prop) w rid r :
  relays w !! rid = Some r → P r → (∀ r0, P r0 → P (set_closed r0)) →
  ∃ r', relays (close w) !! rid = Some r' ∧ P r'.
Proof.
  intros Hl HP Hcl. unfold close. simpl.
  generalize (JsMap.values (registry w)) as l. intros l. revert w r Hl HP.
  induction l as [|j l IH]; intros w r Hl HP; simpl.
  - by exists r.
  - destruct (decide (j = rid)) as [->|Hne].
    + apply (IH _ (set_closed r)); [|by apply Hcl].
      simpl. by rewrite list_lookup_alter_eq, Hl.
    + apply (IH _ r); [|done]. simpl. by rewrite list_lookup_alter_ne.
Qed.

(** The state of a connection's [connect()] promise and its "notice"
    listener change in one turn only: the one in which the promise
    settles. *)
Lemma step_status i w rid r :
  relays w !! rid = Some r →
  ∃ r', relays (step w i) !! rid = Some r'
        ∧ ((r_status r' = r_status r ∧ r_notice r' = r_notice r)
           ∨ (r_status r = Connecting ∧ r_status r' = Connected
              ∧ r_notice r' = true)
           ∨ (r_status r = Connecting ∧ r_status r' = Failed
              ∧ r_notice r' = r_notice r)).
Proof.
  intros Hl.
  destruct (is_wire i) eqn:Hw.
  { destruct (of_relays _ _ (step_wire i w Hw)) as [urls E].
    exists r. split; [|by left]. rewrite E. by apply lookup_app_l_Some. }
  destruct i; try discriminate Hw; cbn [step];
    try (exists r; split; [done | by left]).
  - rewrite onerror_relays.
    destruct (add_listeners_lookup add_error cb (registry w) _ _ _ r_error
                ltac:(done) Hl) as (r' & added & Hr' & _ & _ & _ & _ & HP).
    exists r'. split; [done|]. left.
    by apply (HP (λ x, r_status x = r_status r ∧ r_notice x = r_notice r)).
  - rewrite ondisconnect_relays.
    destruct (add_listeners_lookup add_disconnect cb (registry w) _ _ _
                r_disconnect ltac:(done) Hl)
      as (r' & added & Hr' & _ & _ & _ & _ & HP).
    exists r'. split; [done|]. left.
    by apply (HP (λ x, r_status x = r_status r ∧ r_notice x = r_notice r)).
  - destruct (close_relays_keep
                (λ x, r_status x = r_status r ∧ r_notice x = r_notice r)
                w rid r Hl ltac:(done) ltac:(done)) as (r' & Hr' & HP).
    exists r'. split; [done | by left].
  - destruct c as [|opened]; [exists r; split; [done | by left]|].
    destruct (unsub_all opened w) as (_ & Hr & _).
    rewrite Hr. exists r. split; [done | by left].
  - unfold connect_settled. destruct (relays w !! rid0) as [r0|] eqn:Hl0;
      [|exists r; split; [done | by left]].
    destruct (r_status r0) eqn:Hs0;
      try (exists r; split; [done | by left]).
    destruct (decide (rid0 = rid)) as [->|Hne].
    + assert (r0 = r) as -> by congruence.
      apply lookup_lt_Some in Hl.
      destruct fulfilled; simpl; rewrite list_lookup_insert_eq by done;
        eexists; (split; [done|]); simpl; auto.
    + destruct fulfilled; simpl; rewrite list_lookup_insert_ne by done;
        exists r; (split; [done | by left]).
  - unfold relay_notice. destruct (relays w !! rid0) as [r0|];
      [destruct (r_notice r0)|]; exists r; (split; [done | by left]).
  - unfold relay_error. destruct (relays w !! rid0) as [r0|];
      exists r; (split; [done | by left]).
  - unfold relay_disconnect. destruct (relays w !! rid0) as [r0|];
      exists r; (split; [done | by left]).
  - unfold sub_event. destruct (subs w !! sid) as [s|];
      [destruct (s_unsubbed s)|]; exists r; (split; [done | by left]).
  - unfold sub_eose. destruct (subs w !! sid) as [s|];
      [destruct (s_unsubbed s); [|destruct (s_onEose s); [destruct o|]]|];
      exists r; (split; [done | by left]).
Qed.

Lemma step_listens_ok i w : listens_ok w → listens_ok (step w i).
Proof.
  intros Hok rid r' Hl'.
  destruct (decide (rid < length (relays w))) as [Hlt|Hge].
  - destruct (lookup_lt_is_Some_2 _ _ Hlt) as [r Hl].
    destruct (step_status i w rid r Hl) as (r1 & Hl1 & Hcase).
    assert (r1 = r') as -> by congruence.
    specialize (Hok _ _ Hl).
    destruct Hcase as [[Hs Hn]|[(Hc & Hs & Hn)|(Hc & Hs & Hn)]];
      rewrite Hs, Hn.
    + exact Hok.
    + split; done.
    + rewrite Hc in Hok. split; [|done]. intros Ht. by apply Hok in Ht.
  - rewrite (step_new i w rid r' Hl' ltac:(lia)). simpl. split; done.
Qed.

Lemma run_listens_ok w inputs : listens_ok w → listens_ok (run w inputs).
Proof.
  revert w. induction inputs as [|i l IH]; intros w Hok; simpl; [done|].
  by apply IH, step_listens_ok.
Qed.

(** The constructor's loop is a run of [addOrGetRelay] calls. *)
Lemma add_all_run urls w : add_all urls w = run w (IAddOrGetRelay <$> urls).
Proof.
  unfold add_all, run. revert w.
  induction urls as [|u us IH]; intros w; simpl; [done|]. apply IH.
Qed.

Lemma constructor_listens_ok init noCache t0 :
  listens_ok (constructor init noCache t0).
Proof.
  unfold constructor. set (w0 := mkWorld _ _ _ _ _ _ _).
  assert (H0 : listens_ok w0) by (intros rid r Hl; done).
  destruct init as [l|]; [|done].
  rewrite add_all_run. by apply run_listens_ok.
Qed.

(** A connection whose [connect()] was fulfilled stays connected, with the
    "notice" listener on it. *)
Lemma run_connected w inputs rid r :
  listens_ok w → relays w !! rid = Some r → r_status r = Connected →
  ∃ r', relays (run w inputs) !! rid = Some r' ∧ r_status r' = Connected.
Proof.
  intros Hok Hl Hst.
  destruct (run_relays _ inputs _ _ Hl) as (r' & Hl' & _ & Hn & _).
  exists r'. split; [done|].
  apply (run_listens_ok w inputs Hok _ _ Hl'), Hn. by apply (Hok _ _ Hl).
Qed.

End Turns.

(** ** [publish] *)

Section Publish.
Context `{C : Collaborators}.
Implicit Types (w : World) (url : string) (rid : nat).

Lemma unique_from_unique seen0 seen arr :
  (∀ x, x ∈ seen0 → x ∈ seen) →
  unique_from seen (unique_from seen0 arr) = unique_from seen arr.
Proof.
  revert seen0 seen. induction arr as [|y arr IH]; intros seen0 seen Hsub;
    simpl; [done|].
  destruct (decide (y ∈ seen0)) as [Hy0|Hy0].
  - rewrite decide_True by auto. by apply IH.
  - simpl. destruct (decide (y ∈ seen)).
    + apply IH. set_solver.
    + f_equal. apply IH. set_solver.
Qed.

Lemma add_all_relays urls w :
  relays (add_all urls w) =
  relays w ++ (relayInit <$> unique_from (JsMap.keys (registry w)) urls).
Proof.
  revert w. induction urls as [|u urls IH]; intros w.
  - simpl. by rewrite app_nil_r.
  - change (add_all (u :: urls) w) with (add_all urls (addOrGetRelay u w).2).
    rewrite IH. simpl.
    destruct (JsMap.get u (registry w)) as [rid|] eqn:Hg.
    + rewrite (addOrGetRelay_hit _ _ _ Hg); simpl.
      rewrite decide_True; [done|].
      destruct (decide (u ∈ JsMap.keys (registry w))) as [|Hn]; [done|].
      apply get_None_keys in Hn. congruence.
    + rewrite (addOrGetRelay_miss _ _ Hg); simpl.
      rewrite decide_False by (by apply get_None_keys).
      rewrite <- app_assoc. simpl. do 3 f_equal.
      apply unique_from_ext. unfold JsMap.keys. rewrite fmap_app. set_solver.
Qed.

Lemma addOrGetRelay_ext u w1 w2 :
  pool w1 = pool w2 → relays w1 = relays w2 →
  (addOrGetRelay u w1).1 = (addOrGetRelay u w2).1
  ∧ pool (addOrGetRelay u w1).2 = pool (addOrGetRelay u w2).2
  ∧ relays (addOrGetRelay u w1).2 = relays (addOrGetRelay u w2).2.
Proof.
  intros Hp Hr. unfold addOrGetRelay. rewrite Hp.
  destruct (JsMap.get u (registry w2)); simpl; by rewrite ?Hp, ?Hr.
Qed.

Lemma publish_all_cons e u l w :
  publish_all e (u :: l) w =
  publish_all e l
    (log [APublish (addOrGetRelay u w).1 e] (addOrGetRelay u w).2).
Proof. unfold publish_all. simpl. by destruct (addOrGetRelay u w). Qed.

(** On the registry and the connections, [publish] is a run of
    [addOrGetRelay] calls. *)
Lemma publish_all_objects e l w1 w2 :
  pool w1 = pool w2 → relays w1 = relays w2 →
  pool (publish_all e l w1) = pool (add_all l w2)
  ∧ relays (publish_all e l w1) = relays (add_all l w2).
Proof.
  revert w1 w2. induction l as [|u l IH]; intros w1 w2 Hp Hr; [done|].
  change (add_all (u :: l) w2) with (add_all l (addOrGetRelay u w2).2).
  rewrite publish_all_cons.
  destruct (addOrGetRelay_ext u w1 w2 Hp Hr) as (_ & Hp' & Hr').
  by apply IH.
Qed.

(** The [publish] calls made, in order: one per element of the list, on
    the connection the registry holds for it afterwards. *)
Lemma addOrGetRelay_trace u w :
  ∃ acts, trace (addOrGetRelay u w).2 = trace w ++ acts ∧ publishes acts = [].
Proof.
  destruct (JsMap.get u (registry w)) as [rid|] eqn:Hg.
  - rewrite (addOrGetRelay_hit _ _ _ Hg). exists []. by rewrite app_nil_r.
  - rewrite (addOrGetRelay_miss _ _ Hg). by eexists.
Qed.

Lemma publish_all_trace e l w :
  ∃ acts,
    trace (publish_all e l w) = trace w ++ acts
    ∧ Forall2 (λ u p, JsMap.get u (registry (publish_all e l w)) = Some p.1
                      ∧ p.2 = e) l (publishes acts).
Proof.
  revert w. induction l as [|u l IH]; intros w.
  { exists []. simpl. rewrite app_nil_r. split; [done | constructor]. }
  rewrite publish_all_cons.
  pose proof (addOrGetRelay_registered u w) as Hreg.
  destruct (addOrGetRelay_trace u w) as (a1 & E1 & Hp1).
  destruct (addOrGetRelay u w) as [rid w1]. simpl in *.
  destruct (IH (log [APublish rid e] w1)) as (a2 & E2 & F2).
  exists (a1 ++ APublish rid e :: a2). split.
  - rewrite E2. simpl. rewrite E1, <- !app_assoc. done.
  - unfold publishes in *. rewrite omap_app, Hp1. simpl.
    constructor; [|done]. split; [|done]. simpl.
    by apply (wf_registry _ _ (publish_all_frame e l (log [APublish rid e] w1))).
Qed.

(** C10. [publish(event, relays)] on a pool in any reachable state makes
    exactly one [publish] call for each distinct URL of [relays], in order
    of first occurrence, each on the connection registered for that URL,
    and these connections are pairwise distinct; duplicates in [relays]
    make no further call.  The URLs of [relays] that were not in the
    registry get a connection, created in that order; the others keep
    theirs. *)
Theorem publish_once_per_url
    (init : option (list string)) (noCache : option bool) (t0 : Z)
    (inputs : list Input) (event : Event) (urls : list string) :
  let w := run (constructor init noCache t0) inputs in
  let w' := publish event urls w in
  (∃ acts,
     trace w' = trace w ++ acts
     ∧ Forall2 (λ url p, JsMap.get url (registry w') = Some p.1 ∧ p.2 = event)
               (unique urls) (publishes acts)
     ∧ NoDup (publishes acts).*1)
  ∧ NoDup (unique urls)
  ∧ (∀ url, url ∈ unique urls ↔ url ∈ urls)
  ∧ JsMap.keys (registry w') =
      JsMap.keys (registry w) ++ unique_from (JsMap.keys (registry w)) urls
  ∧ relays w' =
      relays w ++ (relayInit <$> unique_from (JsMap.keys (registry w)) urls).
Proof.
  intros w w'.
  assert (Hok : registry_ok w')
    by apply (wf_registry_ok _ _ (publish_frame event urls w)),
             run_registry_ok, constructor_registry_ok.
  destruct (publish_all_objects event (unique urls) w w eq_refl eq_refl)
    as [Hp Hr].
  fold (publish event urls w) in Hp, Hr. fold w' in Hp, Hr.
  split; [|split; [apply unique_NoDup|split; [apply unique_elem|split]]].
  - destruct (publish_all_trace event (unique urls) w) as (acts & Et & F2).
    fold (publish event urls w) in Et, F2. fold w' in Et, F2.
    exists acts. split; [done|]. split; [done|].
    pose proof (unique_NoDup urls) as Hnd.
    revert Hnd F2. generalize (unique urls) (publishes acts).
    intros l ps Hnd F2. induction F2 as [|u p l ps [Hg _] F2 IH]; simpl.
    { constructor. }
    apply NoDup_cons in Hnd as [Hnin Hnd]. constructor; [|by apply IH].
    intros [p' [Hp' Hin']]%list_elem_of_fmap.
    destruct (proj1 (list_elem_of_lookup _ _) Hin') as [k Hk].
    destruct (Forall2_lookup_r _ _ _ _ _ F2 Hk) as (u' & Hu' & Hg' & _).
    apply Hok in Hg, Hg'. rewrite <- Hp' in Hg'.
    assert (u = u') by congruence. subst u'.
    apply Hnin. eapply list_elem_of_lookup_2. exact Hu'.
  - rewrite Hp, add_all_keys. f_equal. unfold unique.
    apply unique_from_unique. set_solver.
  - rewrite Hr, add_all_relays. do 2 f_equal. unfold unique.
    apply unique_from_unique. set_solver.
Qed.

End Publish.

(** ** Observers: [onnotice], [onerror], [ondisconnect] *)

Section Observers.
Context `{C : Collaborators}.
Implicit Types (w : World) (url : string) (rid : nat) (cb : UrlCb).

(** A connection created during a run carries no "error" ("disconnect")
    listener for [cb] unless [onerror(cb)] ([ondisconnect(cb)]) is called
    after it was created. *)
Lemma run_new inputs w rid r cb :
  relays (run w inputs) !! rid = Some r → length (relays w) ≤ rid →
  ((∀ cb', IOnError cb' ∈ inputs → cb' ≠ cb) → cb ∉ (r_error r).*1)
  ∧ ((∀ cb', IOnDisconnect cb' ∈ inputs → cb' ≠ cb) →
     cb ∉ (r_disconnect r).*1).
Proof.
  revert w. induction inputs as [|i l IH]; intros w Hl Hge; simpl in Hl.
  { apply lookup_lt_Some in Hl. lia. }
  destruct (decide (rid < length (relays (step w i)))) as [Hlt|Hnlt].
  - destruct (lookup_lt_is_Some_2 _ _ Hlt) as [r1 Hl1].
    pose proof (step_new i w rid r1 Hl1 Hge) as Hnew.
    destruct (run_relays _ l _ _ Hl1)
      as (r' & Hl' & _ & _ & _ & _ & He & Hd).
    assert (r' = r) as -> by congruence.
    rewrite Hnew in He, Hd. simpl in He, Hd. split; intros Hno.
    + apply He; [|apply not_elem_of_nil]. intros cb' Hin. apply Hno. by right.
    + apply Hd; [|apply not_elem_of_nil]. intros cb' Hin. apply Hno. by right.
  - destruct (IH (step w i) Hl ltac:(lia)) as [He Hd]. split; intros Hno.
    + apply He. intros cb' Hin. apply Hno. by right.
    + apply Hd. intros cb' Hin. apply Hno. by right.
Qed.

Lemma onerror_wires cb w url rid :
  registry_ok w → JsMap.get url (registry w) = Some rid →
  ∃ r', relays (onerror cb w) !! rid = Some r' ∧ (cb, url) ∈ r_error r'.
Proof.
  intros Hok Hg. pose proof (Hok _ _ Hg) as Hl.
  rewrite list_lookup_fmap in Hl.
  destruct (relays w !! rid) as [r|] eqn:Hr; [|done].
  rewrite onerror_relays.
  destruct (add_listeners_lookup add_error cb (registry w) _ _ _ r_error
              ltac:(done) Hr) as (r' & added & Hr' & Hf & _ & Hin & _).
  exists r'. split; [done|]. rewrite Hf, elem_of_app. right.
  by apply Hin, get_Some_elem.
Qed.

Lemma ondisconnect_wires cb w url rid :
  registry_ok w → JsMap.get url (registry w) = Some rid →
  ∃ r', relays (ondisconnect cb w) !! rid = Some r'
        ∧ (cb, url) ∈ r_disconnect r'.
Proof.
  intros Hok Hg. pose proof (Hok _ _ Hg) as Hl.
  rewrite list_lookup_fmap in Hl.
  destruct (relays w !! rid) as [r|] eqn:Hr; [|done].
  rewrite ondisconnect_relays.
  destruct (add_listeners_lookup add_disconnect cb (registry w) _ _ _
              r_disconnect ltac:(done) Hr)
    as (r' & added & Hr' & Hf & _ & Hin & _).
  exists r'. split; [done|]. rewrite Hf, elem_of_app. right.
  by apply Hin, get_Some_elem.
Qed.

(** C8, as the code has it.  On a pool in any reachable state:
    - a callback registered with [onnotice] stays in [noticecbs];
    - a notice from a connection whose [connect()] has been fulfilled,
      whether the connection existed at registration or was created
      later, is handed to the callbacks of [noticecbs] in registration
      order: to all of them, so to this one, when none throws, and
      otherwise to those up to the first that throws; and such a
      connection stays connected;
    - a notice from a connection whose [connect()] is still pending or
      was rejected reaches no callback and changes nothing;
    - a pending connection becomes a connected one in the turn in which
      its [connect()] is fulfilled;
    - a callback registered with [onerror] ([ondisconnect]) gets the
      "error" ("disconnect") events of every connection that was in
      [relayByUrl] at registration, with that connection's URL;
    - and it gets none from a connection created later, as long as it is
      not registered again. *)
Theorem observers_wiring
    (init : option (list string)) (noCache : option bool) (t0 : Z)
    (inputs0 : list Input) (cb : UrlCb) :
  let w := run (constructor init noCache t0) inputs0 in
  (∀ inputs1 rid r relay msg failing,
     let w1 := run (onnotice cb w) inputs1 in
     relays w1 !! rid = Some r →
     cb ∈ noticecbs (pool w1)
     ∧ (r_status r = Connected →
        trace (relay_notice rid relay msg failing w1) =
          trace w1 ++ ((λ c, ANotice c relay msg)
                       <$> invoked failing (noticecbs (pool w1)))
        ∧ ∀ inputs2,
            ∃ r', relays (run w1 inputs2) !! rid = Some r'
                  ∧ r_status r' = Connected)
     ∧ (r_status r ≠ Connected →
        relay_notice rid relay msg failing w1 = w1)
     ∧ (r_status r = Connecting →
        ∀ inputs2,
          ∃ r', relays (run (connect_settled rid true w1) inputs2) !! rid
                = Some r'
                ∧ r_status r' = Connected))
  ∧ (∀ url rid inputs msg,
       JsMap.get url (registry w) = Some rid →
       (∃ acts, trace (relay_error rid msg (run (onerror cb w) inputs)) =
                  trace (run (onerror cb w) inputs) ++ acts
                ∧ AError cb url msg ∈ acts)
       ∧ (∃ acts,
            trace (relay_disconnect rid msg (run (ondisconnect cb w) inputs)) =
              trace (run (ondisconnect cb w) inputs) ++ acts
            ∧ ADisconnect cb url msg ∈ acts))
  ∧ (∀ rid inputs msg,
       length (relays w) ≤ rid →
       ((∀ cb', IOnError cb' ∈ inputs → cb' ≠ cb) →
        ∃ acts, trace (relay_error rid msg (run (onerror cb w) inputs)) =
                  trace (run (onerror cb w) inputs) ++ acts
                ∧ ∀ u m, AError cb u m ∉ acts)
       ∧ ((∀ cb', IOnDisconnect cb' ∈ inputs → cb' ≠ cb) →
          ∃ acts,
            trace (relay_disconnect rid msg (run (ondisconnect cb w) inputs)) =
              trace (run (ondisconnect cb w) inputs) ++ acts
            ∧ ∀ u m, ADisconnect cb u m ∉ acts)).
Proof.
  intros w.
  assert (Hok : registry_ok w)
    by apply run_registry_ok, constructor_registry_ok.
  assert (Hlw : listens_ok w)
    by apply run_listens_ok, constructor_listens_ok.
  split; [|split].
  - intros inputs1 rid r relay msg failing w1 Hl.
    assert (Hl1 : listens_ok w1).
    { apply run_listens_ok.
      by apply (step_listens_ok (IOnNotice cb)). }
    pose proof (Hl1 _ _ Hl) as Hiff.
    split; [|split; [|split]].
    + apply run_noticecbs. simpl. set_solver.
    + intros Hst. split.
      * unfold relay_notice. rewrite Hl.
        by rewrite (proj2 Hiff Hst).
      * intros inputs2. by apply (run_connected _ _ _ r).
    + intros Hst. unfold relay_notice. rewrite Hl.
      destruct (r_notice r); [|done]. by destruct Hst; apply Hiff.
    + intros Hst inputs2.
      apply (run_connected _ _ _ (add_notice (set_status Connected r))).
      * by apply (step_listens_ok (IConnectSettled rid true)).
      * unfold connect_settled. rewrite Hl, Hst. simpl.
        apply list_lookup_insert_eq. by apply lookup_lt_Some in Hl.
      * done.
  - intros url rid inputs msg Hg. split.
    + destruct (onerror_wires cb w url rid Hok Hg) as (r1 & Hl1 & Hin).
      destruct (run_relays _ inputs _ _ Hl1) as (r' & Hl' & _ & _ & Hpe & _).
      unfold relay_error. rewrite Hl'. eexists. split; [done|].
      apply list_elem_of_fmap. exists (cb, url). split; [done | auto].
    + destruct (ondisconnect_wires cb w url rid Hok Hg) as (r1 & Hl1 & Hin).
      destruct (run_relays _ inputs _ _ Hl1)
        as (r' & Hl' & _ & _ & _ & Hpd & _).
      unfold relay_disconnect. rewrite Hl'. eexists. split; [done|].
      apply list_elem_of_fmap. exists (cb, url). split; [done | auto].
  - intros rid inputs msg Hge. split; intros Hno.
    + unfold relay_error.
      destruct (relays (run (onerror cb w) inputs) !! rid) as [r|] eqn:Hl.
      2:{ exists []. rewrite app_nil_r. split; [done|].
          intros u m. apply not_elem_of_nil. }
      eexists. split; [done|]. intros u m [h [Hh Hin]]%list_elem_of_fmap.
      injection Hh as Hcb _ _.
      assert (Hlen : length (relays (onerror cb w)) ≤ rid)
        by (change (onerror cb w) with (step w (IOnError cb));
            by rewrite step_relays_length).
      destruct (run_new _ _ _ _ cb Hl Hlen) as [He _].
      apply (He Hno). apply list_elem_of_fmap. by exists h.
    + unfold relay_disconnect.
      destruct (relays (run (ondisconnect cb w) inputs) !! rid) as [r|] eqn:Hl.
      2:{ exists []. rewrite app_nil_r. split; [done|].
          intros u m. apply not_elem_of_nil. }
      eexists. split; [done|]. intros u m [h [Hh Hin]]%list_elem_of_fmap.
      injection Hh as Hcb _ _.
      assert (Hlen : length (relays (ondisconnect cb w)) ≤ rid)
        by (change (ondisconnect cb w) with (step w (IOnDisconnect cb));
            by rewrite step_relays_length).
      destruct (run_new _ _ _ _ cb Hl Hlen) as [_ Hd].
      apply (Hd Hno). apply list_elem_of_fmap. by exists h.
Qed.

End Observers.

(** ** Events and the end-of-stored-events marker on one subscription *)

Section Eose.
Context `{C : Collaborators}.
Implicit Types (w : World) (sid : nat) (s : Sub).

Lemma calls_via_silent sid acts :
  Forall (λ a, via_of a = None) acts → calls_via sid acts = [].
Proof.
  induction 1 as [|a l Ha _ IH]; [done|].
  unfold calls_via in *. simpl. rewrite IH, Ha. done.
Qed.

Lemma close_trace w :
  ∃ acts, trace (close w) = trace w ++ acts
          ∧ Forall (λ a, via_of a = None) acts.
Proof.
  unfold close. simpl. generalize (JsMap.values (relayByUrl (pool w))).
  intros l. revert w. induction l as [|j l IH]; intros w; simpl.
  - exists []. by rewrite app_nil_r.
  - destruct (IH (log [AClose j]
                    (set_relays (alter set_closed j (relays w)) w)))
      as (acts & E & F).
    exists (AClose j :: acts). rewrite E. simpl. rewrite <- app_assoc.
    split; [done|]. by constructor.
Qed.

Lemma unsub_others (l : list nat) (ss : list Sub) sid :
  sid ∉ l →
  foldl (λ ss j, alter set_unsubbed j ss) ss l !! sid = ss !! sid.
Proof.
  revert ss. induction l as [|j l IH]; intros ss Hn; simpl; [done|].
  apply not_elem_of_cons in Hn as [Hne Hn].
  rewrite IH by done. by apply list_lookup_alter_ne.
Qed.

(** A turn that is neither a message on [sid] nor a call of an
    unsubscribe function covering it leaves the subscription as it is and
    makes no call on its behalf. *)
Lemma step_other i w sid s :
  subs w !! sid = Some s → msgs_for sid [i] = [] → ¬ cancels sid i →
  subs (step w i) !! sid = Some s
  ∧ ∃ acts, trace (step w i) = trace w ++ acts ∧ calls_via sid acts = [].
Proof.
  intros Hl Hm Hc. destruct (is_wire i) eqn:Hw.
  { destruct (step_wire i w Hw) as [_ _ [new Hs] _ _ (acts & Ht & Hf)].
    split; [rewrite Hs; by apply lookup_app_l_Some|].
    exists acts. split; [done | by apply calls_via_silent]. }
  assert (Hnil : ∃ acts : list Action, trace w = trace w ++ acts
                                       ∧ calls_via sid acts = []).
  { exists []. by rewrite app_nil_r. }
  destruct i; try discriminate Hw; cbn [step].
  - split; [done | exact Hnil].
  - destruct (onerror_fields cb w) as (_ & -> & _ & ->). split; [done | exact Hnil].
  - destruct (ondisconnect_fields cb w) as (_ & -> & _ & ->). split; [done | exact Hnil].
  - destruct (close_fields w) as (_ & -> & _). split; [done|].
    destruct (close_trace w) as (acts & E & F).
    exists acts. split; [done | by apply calls_via_silent].
  - destruct c as [|opened]; [split; [done | exact Hnil]|].
    destruct (unsub_all opened w) as (_ & _ & _ & Hs & Ht).
    rewrite Hs, Ht. split; [by rewrite unsub_others|].
    eexists. split; [done|]. apply calls_via_silent, Forall_fmap, Forall_true.
    done.
  - split; [done | exact Hnil].
  - unfold connect_settled. destruct (relays w !! rid) as [r|]; [|split; [done | exact Hnil]].
    destruct (r_status r); [destruct fulfilled| |]; try (split; [done | exact Hnil]).
    split; [done|]. by eexists.
  - unfold relay_notice. destruct (relays w !! rid) as [r|]; [|split; [done | exact Hnil]].
    destruct (r_notice r); [|split; [done | exact Hnil]]. split; [done|].
    eexists. split; [done|]. apply calls_via_silent, Forall_fmap, Forall_true.
    done.
  - unfold relay_error. destruct (relays w !! rid) as [r|]; [|split; [done | exact Hnil]].
    split; [done|].
    eexists. split; [done|]. apply calls_via_silent, Forall_fmap, Forall_true.
    done.
  - unfold relay_disconnect. destruct (relays w !! rid) as [r|]; [|split; [done | exact Hnil]].
    split; [done|].
    eexists. split; [done|]. apply calls_via_silent, Forall_fmap, Forall_true.
    done.
  - simpl in Hm. destruct (decide (sid0 = sid)) as [|Hne]; [done|].
    unfold sub_event. destruct (subs w !! sid0) as [s0|]; [|split; [done | exact Hnil]].
    destruct (s_unsubbed s0); [split; [done | exact Hnil]|]. simpl.
    rewrite list_lookup_insert_ne by done. split; [done|].
    eexists. split; [done|]. unfold calls_via. simpl.
    by rewrite bool_decide_eq_false_2 by congruence.
  - simpl in Hm. destruct (decide (sid0 = sid)) as [|Hne]; [done|].
    unfold sub_eose. destruct (subs w !! sid0) as [s0|]; [|split; [done | exact Hnil]].
    destruct (s_unsubbed s0); [split; [done | exact Hnil]|].
    destruct (s_onEose s0); [|split; [done | exact Hnil]].
    destruct o; simpl; rewrite ?list_lookup_insert_ne by done;
      (split; [done|]); eexists; (split; [done|]);
      unfold calls_via; simpl;
      by rewrite bool_decide_eq_false_2 by congruence.
Qed.

(** The "event" listener: the event is appended to the accumulator if
    there still is one, and handed to [onEvent] with the flag
    [eventsBySub === undefined]. *)
Lemma sub_event_at sid e w s :
  subs w !! sid = Some s → s_unsubbed s = false →
  subs (sub_event sid e w) !! sid =
    Some (set_eventsBySub ((λ l, l ++ [e]) <$> eventsBySub s) s)
  ∧ trace (sub_event sid e w) =
    trace w ++ [AOnEvent sid (s_onEvent s) e
                  (if eventsBySub s is None then true else false) (s_url s)].
Proof.
  intros Hl Hu. unfold sub_event. rewrite Hl, Hu. simpl. split.
  - apply list_lookup_insert_eq. by apply lookup_lt_Some in Hl.
  - by destruct (eventsBySub s).
Qed.

(** The "eose" listener: [onEose] gets the accumulator, which is then
    [undefined] if [onEose] returns, and keeps its value if it throws. *)
Lemma sub_eose_at sid o w s h :
  subs w !! sid = Some s → s_unsubbed s = false → s_onEose s = Some h →
  subs (sub_eose sid o w) !! sid =
    Some (if o is Returns then set_eventsBySub None s else s)
  ∧ trace (sub_eose sid o w) =
    trace w ++ [AOnEose sid h (eventsBySub s) (s_url s)].
Proof.
  intros Hl Hu Hh. unfold sub_eose. rewrite Hl, Hu, Hh.
  destruct o; simpl; (split; [|done]); [|done].
  apply list_lookup_insert_eq. by apply lookup_lt_Some in Hl.
Qed.

(** A stretch of turns in which the relay sends only events on [sid]. *)
Lemma run_events sid inputs evs w s :
  subs w !! sid = Some s → s_unsubbed s = false →
  (∀ i, i ∈ inputs → ¬ cancels sid i) →
  msgs_for sid inputs = MEvent <$> evs →
  subs (run w inputs) !! sid =
    Some (set_eventsBySub ((λ l, l ++ evs) <$> eventsBySub s) s)
  ∧ ∃ acts,
      trace (run w inputs) = trace w ++ acts
      ∧ calls_via sid acts =
        (λ e, AOnEvent sid (s_onEvent s) e
                (if eventsBySub s is None then true else false) (s_url s))
        <$> evs.
Proof.
  revert evs w s. induction inputs as [|i l IH]; intros evs w s Hl Hu Hc Hm.
  { destruct evs; [|done]. simpl. split.
    - rewrite Hl. f_equal. destruct s as [? ? ? ? ? [acc|] ?]; simpl; [|done].
      by rewrite app_nil_r.
    - exists []. by rewrite app_nil_r. }
  assert (Hc' : ∀ i0, i0 ∈ l → ¬ cancels sid i0)
    by (intros i0 Hin; apply Hc; by right).
  assert (Hci : ¬ cancels sid i) by (apply Hc; left).
  replace (msgs_for sid (i :: l))
    with (msgs_for sid [i] ++ msgs_for sid l) in Hm
    by (symmetry; apply (omap_app _ [i] l)).
  simpl. destruct (msgs_for sid [i]) as [|m [|]] eqn:Hi.
  - destruct (step_other i w sid s Hl Hi Hci) as (Hl1 & a1 & E1 & V1).
    destruct (IH evs _ s Hl1 Hu Hc' Hm) as (Hl2 & a2 & E2 & V2).
    split; [done|]. exists (a1 ++ a2). rewrite E2, E1, <- app_assoc.
    split; [done|]. unfold calls_via in *.
    by rewrite List.filter_app, V1, V2.
  - destruct i; try done; simpl in Hi;
      destruct (decide (sid0 = sid)) as [->|]; try done.
    + injection Hi as <-. destruct evs as [|e evs]; [done|].
      simpl in Hm. injection Hm as <- Hm.
      destruct (sub_event_at sid event w s Hl Hu) as [Hl1 E1].
      destruct (IH evs _ _ Hl1 Hu Hc' Hm) as (Hl2 & a2 & E2 & V2).
      cbn [step]. rewrite Hl2. simpl. split.
      * f_equal. unfold set_eventsBySub. simpl. f_equal.
        destruct (eventsBySub s); simpl; [|done].
        by rewrite <- app_assoc.
      * eexists. rewrite E2, E1, <- app_assoc. split; [done|].
        unfold calls_via in *. simpl.
        rewrite bool_decide_eq_true_2 by done. rewrite V2. simpl.
        f_equal. apply list_fmap_ext. intros _ e _.
        by destruct (eventsBySub s).
    + injection Hi as <-. by destruct evs.
  - destruct i; try done; simpl in Hi;
      destruct (decide (sid0 = sid)); done.
Qed.

Lemma omap_split {A B : Type} (f : A → option B) (l : list A) a b c :
  omap f l = a ++ b :: c →
  ∃ l1 x l2, l = l1 ++ x :: l2 ∧ omap f l1 = a ∧ f x = Some b ∧ omap f l2 = c.
Proof.
  revert a. induction l as [|y l IH]; intros a Hl; simpl in Hl.
  { by destruct a. }
  destruct (f y) as [z|] eqn:Hy.
  - destruct a as [|a0 a]; simpl in Hl; injection Hl as -> Hl.
    + exists [], y, l. by rewrite Hy.
    + destruct (IH _ Hl) as (l1 & x & l2 & -> & <- & Hx & <-).
      exists (y :: l1), x, l2. simpl. by rewrite Hy.
  - destruct (IH _ Hl) as (l1 & x & l2 & -> & <- & Hx & <-).
    exists (y :: l1), x, l2. simpl. by rewrite Hy.
Qed.

(** C4, as the code has it.  Take a wire subscription opened by a flush
    with [onEose], and any later turns of the event loop, in any
    interleaving with other subscriptions and calls, in which the relay
    sends on this subscription the events [before], then its
    end-of-stored-events marker, then the events [after] (and no
    unsubscribe function covering it is called).  Then the calls made on
    behalf of this subscription are, in order: the merged [onEvent] for
    each event of [before] with the flag [false]; [onEose], once, with
    exactly the list [before] and the relay's URL; the merged [onEvent] for
    each event of [after].  When the [onEose] call returns, the
    accumulator is cleared: the events of [after] come with the flag
    [true] and in the end the accumulator is [undefined].  When the
    [onEose] call throws, the accumulator is not cleared: the events of
    [after] come with the flag [false] and are accumulated after those of
    [before]. *)
Theorem eose_accounting
    (w : World) (onEose : OnEose) (k : nat) (entry : string * list Filter)
    (inputs : list Input) (before after : list Event) (o : Outcome) :
  let cb := (batchFiltersByRelay (filtersToSubscribe (pool w))).1 in
  let m := (batchFiltersByRelay (filtersToSubscribe (pool w))).2 in
  let w' := (sendSubscriptions (Some onEose) w).2 in
  let sid := length (subs w) + k in
  live m !! k = Some entry →
  (∀ i, i ∈ inputs → ¬ cancels sid i) →
  msgs_for sid inputs = (MEvent <$> before) ++ MEose o :: (MEvent <$> after) →
  subs w' !! sid = Some (sub_for cb (Some onEose) w' entry)
  ∧ ∃ acts,
      trace (run w' inputs) = trace w' ++ acts
      ∧ calls_via sid acts =
          ((λ e, AOnEvent sid cb e false entry.1) <$> before)
          ++ AOnEose sid onEose (Some before) entry.1
          :: ((λ e, AOnEvent sid cb e (if o is Returns then true else false)
                             entry.1) <$> after)
      ∧ eventsBySub <$> (subs (run w' inputs) !! sid) =
          Some (if o is Returns then None else Some (before ++ after)).
Proof.
  intros cb m w' sid Hk Hc Hm.
  destruct (flush_spec (Some onEose) w)
    as (_ & _ & _ & _ & Hs & _).
  fold cb m w' in Hs.
  assert (Hl : subs w' !! sid = Some (sub_for cb (Some onEose) w' entry)).
  { rewrite Hs, lookup_app_r by (unfold sid; lia).
    replace (sid - length (subs w)) with k by (unfold sid; lia).
    apply list_lookup_fmap_Some. eauto. }
  split; [done|].
  set (s0 := sub_for cb (Some onEose) w' entry) in *.
  destruct (omap_split _ _ _ _ _ Hm) as (i1 & x & i2 & -> & Hm1 & Hx & Hm2).
  assert (x = ISubEose sid o) as ->.
  { destruct x; try done; simpl in Hx;
      destruct (decide (sid0 = sid)) as [->|]; try done.
    by injection Hx as ->. }
  assert (Hc1 : ∀ i, i ∈ i1 → ¬ cancels sid i) by (intros; apply Hc; set_solver).
  assert (Hc2 : ∀ i, i ∈ i2 → ¬ cancels sid i) by (intros; apply Hc; set_solver).
  destruct (run_events sid i1 before w' s0 Hl eq_refl Hc1 Hm1)
    as (Hl1 & a1 & E1 & V1).
  simpl in Hl1, V1.
  destruct (sub_eose_at sid o (run w' i1) _ onEose Hl1 eq_refl eq_refl)
    as [Hl2 E2].
  simpl in E2.
  assert (Hu2 : s_unsubbed
                  (if o is Returns
                   then set_eventsBySub None
                          (set_eventsBySub (Some before) s0)
                   else set_eventsBySub (Some before) s0) = false)
    by (by destruct o).
  destruct (run_events sid i2 after _ _ Hl2 Hu2 Hc2 Hm2)
    as (Hl3 & a3 & E3 & V3).
  unfold run in *. rewrite foldl_app. simpl.
  exists (a1 ++ AOnEose sid onEose (Some before) entry.1 :: a3).
  split; [|split].
  - rewrite E3, E2, E1, <- !app_assoc. done.
  - unfold calls_via in *. rewrite List.filter_app, V1. simpl.
    rewrite bool_decide_eq_true_2 by done. rewrite V3. by destruct o.
  - rewrite Hl3. by destruct o.
Qed.

End Eose.

(** ** The pool on concrete inputs *)

Section Concrete.
Import Reference.

(** C1, as stated, fails: with [maxDelayms = 0] and an [onEose] the call
    does not throw; it flushes, opening a wire subscription on a new
    connection. *)
Lemma subscribe_zero_delay_with_onEose_counterexample :
  ∃ w', subscribe [by_ids ["a"]] ["wss://r1"] (User "cb") (Some (Num 0))
                  (Some "onEose") no_options fresh
        = Ok (UnsubAll [0]) w'
        ∧ JsMap.keys (relayByUrl (pool w')) = ["wss://r1"]
        ∧ s_url <$> subs w' = ["wss://r1"].
Proof. eexists. split; [vm_compute; reflexivity|]. by split. Qed.

Lemma subscribe_rejects_delay_with_onEose_witness :
  truthy (Num 500) = true
  ∧ subscribe [by_ids ["a"]] ["wss://r1"] (User "cb") (Some (Num 500))
              (Some "onEose") no_options fresh
    = Throw "maxDelayms and onEose cannot be used together" fresh.
Proof.
  split; [reflexivity|].
  apply (subscribe_rejects_delay_with_onEose (C := reference)
           [by_ids ["a"]] ["wss://r1"] (User "cb") (Num 500) "onEose"
           no_options fresh).
  reflexivity.
Defined.

(** C2, as stated, fails: [subscribe] with [maxDelayms = Infinity] on a new
    pool returns with the request pending and no timer armed. *)
Lemma infinite_delay_counterexample :
  ∃ w', subscribe [by_ids ["a"]] ["wss://r1"] (User "cb") (Some Infinity)
                  None no_options fresh
        = Ok NoOp w'
        ∧ length (filtersToSubscribe (pool w')) = 1
        ∧ minMaxDelayms (pool w') = Infinity
        ∧ timer (pool w') = None
        ∧ timers w' = [].
Proof. eexists. split; [vm_compute; reflexivity|]. by repeat split. Qed.

(** C3, as stated, fails: the routed mapping has the relay "wss://r1", with
    the filter [{}], and the flush opens no wire subscription (and no
    connection) for it. *)
Lemma flush_skips_empty_relay_counterexample :
  (batchFiltersByRelay (filtersToSubscribe (pool pending_unconstrained))).2
    = [("wss://r1", [unconstrained])]
  ∧ subs (sendSubscriptions None pending_unconstrained).2 = []
  ∧ relays (sendSubscriptions None pending_unconstrained).2 = []
  ∧ trace (sendSubscriptions None pending_unconstrained).2 = [].
Proof. by repeat split. Qed.

Lemma debounce_timer_witness :
  truthy (Num 500) = true
  ∧ minMaxDelayms (pool (run fresh pending_300)) = Num 300
  ∧ num_min (minMaxDelayms (pool (run fresh pending_300))) (Num 100) = Num 100
  ∧ length (timers (run fresh pending_300)) ≤ 1
  ∧ subscribe [by_ids ["a"]] ["wss://r1"] (User "cb1") (Some (Num 500)) None
              no_options (run fresh pending_300)
    = Ok NoOp (resetTimer (Num 500)
                 (enqueued [by_ids ["a"]] ["wss://r1"] (User "cb1")
                           no_options (run fresh pending_300)))
  ∧ timers (step (advance 30
                    (step (run fresh pending_300)
                       (ISubscribe [by_ids ["a"]] ["wss://r1"] (User "cb1")
                                   (Some (Num 500)) None no_options)))
               (ISubscribe [by_ids ["b"]] ["wss://r1"] (User "cb2")
                           (Some (Num 100)) None no_options))
    = [mkTimer 2 (Num 100) 30].
Proof.
  destruct (debounce_timer (C := reference) None None 0 pending_300)
    as ((Hone & _) & Hstep & Hscene).
  destruct (Hstep [by_ids ["a"]] ["wss://r1"] (User "cb1") (Num 500)
                  no_options eq_refl) as (Hsub & _).
  destruct (Hscene [by_ids ["a"]] ["wss://r1"] (User "cb1") no_options
                   [by_ids ["b"]] ["wss://r1"] (User "cb2") no_options
                   30%N eq_refl) as (Htimers & _).
  split; [reflexivity|]. split; [reflexivity|]. split; [reflexivity|].
  split; [exact Hone|]. split; [exact Hsub | exact Htimers].
Defined.

(** C4, as stated, fails: when the [onEose] call throws, the accumulator is
    not cleared; the event that follows the marker is delivered with the
    flag [false] and joins the accumulated list. *)
Lemma onEose_throws_counterexample :
  calls_via 1
    (trace (run (sendSubscriptions (Some "onEose") on_three_relays).2
                onEose_throws))
  = [AOnEvent 1 (Merged [Deduped (User "cb") no_options]) (ev "a")
              false "wss://r2";
     AOnEose 1 "onEose" (Some [ev "a"]) "wss://r2";
     AOnEvent 1 (Merged [Deduped (User "cb") no_options]) (ev "b")
              false "wss://r2"]
  ∧ eventsBySub
    <$> (subs (run (sendSubscriptions (Some "onEose") on_three_relays).2
                   onEose_throws) !! 1)
    = Some (Some [ev "a"; ev "b"]).
Proof. split; vm_compute; reflexivity. Qed.

Lemma eose_accounting_witness :
  live (batchFiltersByRelay (filtersToSubscribe (pool on_three_relays))).2 !! 1
    = Some ("wss://r2", [by_ids ["a"]])
  ∧ (∀ i, i ∈ interleaved → ¬ cancels 1 i)
  ∧ msgs_for 1 interleaved =
      (MEvent <$> [ev "a"; ev "b"]) ++ MEose Returns :: (MEvent <$> [ev "c"])
  ∧ ∃ acts,
      trace (run (sendSubscriptions (Some "onEose") on_three_relays).2
                 interleaved)
        = trace (sendSubscriptions (Some "onEose") on_three_relays).2 ++ acts
      ∧ calls_via 1 acts =
          [AOnEvent 1 (Merged [Deduped (User "cb") no_options]) (ev "a")
                    false "wss://r2";
           AOnEvent 1 (Merged [Deduped (User "cb") no_options]) (ev "b")
                    false "wss://r2";
           AOnEose 1 "onEose" (Some [ev "a"; ev "b"]) "wss://r2";
           AOnEvent 1 (Merged [Deduped (User "cb") no_options]) (ev "c")
                    true "wss://r2"].
Proof.
  assert (Hc : ∀ i : Input, i ∈ interleaved → ¬ cancels 1 i).
  { intros i Hi. destruct i; try (intros []).
    unfold interleaved in Hi.
    repeat (apply elem_of_cons in Hi as [Hi|Hi]; [discriminate Hi|]).
    by apply elem_of_nil in Hi. }
  split; [reflexivity|]. split; [exact Hc|]. split; [reflexivity|].
  destruct (eose_accounting (C := reference) on_three_relays "onEose" 1
              ("wss://r2", [by_ids ["a"]]) interleaved
              [ev "a"; ev "b"] [ev "c"] Returns eq_refl Hc eq_refl)
    as (_ & acts & Ht & Hv & _).
  exists acts. split; [exact Ht | exact Hv].
Defined.

Lemma subscribe_returns_witness :
  truthy (Num 500) = true
  ∧ subscribe [by_ids ["a"]] ["wss://r1"] (User "cb") (Some (Num 500)) None
              no_options fresh
    = Ok NoOp (resetTimer (Num 500)
                 (enqueued [by_ids ["a"]] ["wss://r1"] (User "cb")
                           no_options fresh))
  ∧ subs (resetTimer (Num 500)
            (enqueued [by_ids ["a"]] ["wss://r1"] (User "cb")
                      no_options fresh)) = []
  ∧ subscribe [by_ids ["a"]] ["wss://r1"] (User "cb") None (Some "onEose")
              no_options fresh
    = Ok (UnsubAll [0])
         (sendSubscriptions (Some "onEose")
            (enqueued [by_ids ["a"]] ["wss://r1"] (User "cb")
                      no_options fresh)).2
  ∧ filtersToSubscribe
      (pool (sendSubscriptions (Some "onEose")
               (enqueued [by_ids ["a"]] ["wss://r1"] (User "cb")
                         no_options fresh)).2) = []
  ∧ subs (call_cancel (UnsubAll [0])
            (sendSubscriptions (Some "onEose")
               (enqueued [by_ids ["a"]] ["wss://r1"] (User "cb")
                         no_options fresh)).2)
    = set_unsubbed
      <$> subs (sendSubscriptions (Some "onEose")
                  (enqueued [by_ids ["a"]] ["wss://r1"] (User "cb")
                            no_options fresh)).2.
Proof.
  split; [reflexivity|].
  destruct (subscribe_returns (C := reference) [by_ids ["a"]] ["wss://r1"]
              (User "cb") (Num 500) (Some "onEose") no_options fresh eq_refl)
    as ((Hnoop & _ & _ & Hnone) & Hlive & Hbatch & _ & _ & _ & Hcancel & _).
  split; [exact Hnoop|]. split; [exact Hnone|]. split; [exact Hlive|].
  split; [exact Hbatch | exact Hcancel].
Defined.

Lemma empty_merge_opens_nothing_witness :
  ("wss://r1", [unconstrained])
    ∈ (batchFiltersByRelay (filtersToSubscribe (pool pending_unconstrained))).2
  ∧ (∀ fs,
       ("wss://r1", fs)
         ∈ (batchFiltersByRelay
              (filtersToSubscribe (pool pending_unconstrained))).2 →
       mergeSimilarAndRemoveEmptyFilters fs = [])
  ∧ JsMap.get "wss://r1"
      (relayByUrl (pool (sendSubscriptions None pending_unconstrained).2))
    = JsMap.get "wss://r1" (relayByUrl (pool pending_unconstrained))
  ∧ ∃ new, subs (sendSubscriptions None pending_unconstrained).2
           = subs pending_unconstrained ++ new
           ∧ ∀ s, s ∈ new → s_url s ≠ "wss://r1".
Proof.
  assert (Hin : ("wss://r1", [unconstrained])
    ∈ (batchFiltersByRelay
         (filtersToSubscribe (pool pending_unconstrained))).2)
    by (apply list_elem_of_singleton; reflexivity).
  assert (Hall : ∀ fs,
       ("wss://r1", fs)
         ∈ (batchFiltersByRelay
              (filtersToSubscribe (pool pending_unconstrained))).2 →
       mergeSimilarAndRemoveEmptyFilters fs = []).
  { intros fs Hfs. apply list_elem_of_singleton in Hfs.
    injection Hfs as ->. reflexivity. }
  split; [exact Hin|]. split; [exact Hall|].
  destruct (empty_merge_opens_nothing (C := reference) None
              pending_unconstrained "wss://r1" [unconstrained] Hin Hall)
    as (_ & Hreg & _ & Hsubs).
  split; [exact Hreg | exact Hsubs].
Defined.

(** C8, as stated, fails.  A callback registered with [onnotice] gets no
    notice from a connection whose [connect()] has not been fulfilled: the
    "notice" listener is installed by the promise's continuation.  And on
    a connected relay it gets no notice when a callback registered before
    it throws: the exception ends the [forEach]. *)
Lemma notice_not_delivered_counterexample :
  noticecbs (pool (onnotice "cb" with_r1)) = ["cb"]
  ∧ r_status <$> (relays (onnotice "cb" with_r1) !! 0) = Some Connecting
  ∧ relay_notice 0 "wss://r1" "hello" None (onnotice "cb" with_r1)
    = onnotice "cb" with_r1
  ∧ noticecbs (pool (run with_r1 two_notice_callbacks)) = ["first"; "cb"]
  ∧ r_status <$> (relays (run with_r1 two_notice_callbacks) !! 0)
    = Some Connected
  ∧ trace (relay_notice 0 "wss://r1" "hello" (Some 0)
             (run with_r1 two_notice_callbacks))
    = trace (run with_r1 two_notice_callbacks)
      ++ [ANotice "first" "wss://r1" "hello"].
Proof. by repeat split. Qed.

Lemma observers_wiring_witness :
  relays (run (onnotice "cb" with_r1)
              [IAddOrGetRelay "wss://late"; IConnectSettled 1 true]) !! 1
    = Some (add_notice (set_status Connected (relayInit "wss://late")))
  ∧ r_status (add_notice (set_status Connected (relayInit "wss://late")))
    = Connected
  ∧ trace (relay_notice 1 "wss://late" "hello" None
             (run (onnotice "cb" with_r1)
                  [IAddOrGetRelay "wss://late"; IConnectSettled 1 true]))
    = trace (run (onnotice "cb" with_r1)
                 [IAddOrGetRelay "wss://late"; IConnectSettled 1 true])
      ++ [ANotice "cb" "wss://late" "hello"]
  ∧ JsMap.get "wss://r1" (relayByUrl (pool with_r1)) = Some 0
  ∧ (∃ acts, trace (relay_error 0 "boom" (run (onerror "cb" with_r1) []))
             = trace (run (onerror "cb" with_r1) []) ++ acts
             ∧ AError "cb" "wss://r1" "boom" ∈ acts)
  ∧ length (relays with_r1) ≤ 1
  ∧ (∀ cb', IOnError cb' ∈ [IAddOrGetRelay "wss://late"] → cb' ≠ "cb")
  ∧ (∃ acts, trace (relay_error 1 "boom"
                      (run (onerror "cb" with_r1) [IAddOrGetRelay "wss://late"]))
             = trace (run (onerror "cb" with_r1) [IAddOrGetRelay "wss://late"])
               ++ acts
             ∧ ∀ u m, AError "cb" u m ∉ acts).
Proof.
  assert (Hno : ∀ cb' : UrlCb,
            IOnError cb' ∈ [IAddOrGetRelay "wss://late"] → cb' ≠ "cb").
  { intros cb' Hin. apply list_elem_of_singleton in Hin. discriminate Hin. }
  destruct (observers_wiring (C := reference) (Some ["wss://r1"]) None 0 []
              "cb") as (Hnotice & Hwired & Hlater).
  destruct (Hnotice [IAddOrGetRelay "wss://late"; IConnectSettled 1 true] 1
                    (add_notice (set_status Connected (relayInit "wss://late")))
                    "wss://late" "hello" None eq_refl)
    as (_ & Hdeliver & _).
  destruct (Hdeliver eq_refl) as [Hcb _].
  destruct (Hwired "wss://r1" 0 [] "boom" eq_refl) as [Herr _].
  destruct (Hlater 1 [IAddOrGetRelay "wss://late"] "boom"
                   (le_n 1)) as [Hnone _].
  split; [reflexivity|]. split; [reflexivity|]. split; [exact Hcb|].
  split; [reflexivity|]. split; [exact Herr|]. split; [exact (le_n 1)|].
  split; [exact Hno | exact (Hnone Hno)].
Defined.

End Concrete.

(** * Further properties of the code *)

(** ** [unique] *)

Section UniqueMore.

Lemma filter_all {A : Type} (P : A → Prop) `{!∀ x, Decision (P x)}
    (l : list A) :
  Forall P l → filter P l = l.
Proof.
  induction 1 as [|y l Hy _ IH]; [done|].
  by rewrite filter_cons, decide_True, IH.
Qed.

Lemma unique_from_seen x seen arr :
  unique_from (x :: seen) arr = filter (λ y, y ≠ x) (unique_from seen arr).
Proof.
  revert seen. induction arr as [|y arr IH]; intros seen; simpl; [done|].
  destruct (decide (y ∈ seen)) as [Hy|Hy].
  - rewrite decide_True by set_solver. apply IH.
  - destruct (decide (y = x)) as [->|Hne].
    + rewrite decide_True by set_solver. rewrite filter_cons.
      rewrite decide_False by naive_solver.
      symmetry. apply filter_all, Forall_forall.
      intros z Hz%unique_from_elem. set_solver.
    + rewrite decide_False by set_solver. rewrite filter_cons.
      rewrite decide_True by done. f_equal. rewrite <- IH.
      apply unique_from_ext. set_solver.
Qed.

(** X1. [unique] keeps the first occurrence of every string and drops the
    later ones: on [x :: arr] it is [x] followed by the result for [arr]
    without [x].  So the result has no duplicates and the members of the
    input, a list without duplicates is returned as it is, and applying
    [unique] twice changes nothing more. *)
Theorem unique_keeps_first_occurrences (x : string) (arr : list string) :
  unique [] = []
  ∧ unique (x :: arr) = x :: filter (λ y, y ≠ x) (unique arr)
  ∧ NoDup (unique arr)
  ∧ (∀ y, y ∈ unique arr ↔ y ∈ arr)
  ∧ (NoDup arr → unique arr = arr)
  ∧ unique (unique arr) = unique arr.
Proof.
  split; [done|]. split.
  { unfold unique. simpl. f_equal. apply unique_from_seen. }
  split; [apply unique_from_NoDup|]. split.
  { intros y. unfold unique. rewrite unique_from_elem. set_solver. }
  split; [|apply unique_from_idem].
  clear x. induction 1 as [|y l Hy Hnd IH]; [done|].
  unfold unique in *. simpl. f_equal.
  rewrite unique_from_seen, IH.
  apply filter_all, Forall_forall. intros z Hz ->. done.
Qed.

End UniqueMore.

(** ** Callbacks registered with [onnotice] *)

Section NoticeHistory.
Context `{C : Collaborators}.

Lemma step_registrations i w :
  noticecbs (pool (step w i)) = noticecbs (pool w) ++ registrations [i].
Proof.
  destruct (is_wire i) eqn:Hw.
  - rewrite (of_noticecbs _ _ (step_wire i w Hw)).
    destruct i; try done; simpl; by rewrite app_nil_r.
  - destruct (step_pool i w Hw) as [-> _]. by destruct i.
Qed.

Lemma run_registrations inputs w :
  noticecbs (pool (run w inputs)) = noticecbs (pool w) ++ registrations inputs.
Proof.
  revert w. induction inputs as [|i l IH]; intros w.
  - simpl. by rewrite app_nil_r.
  - change (run w (i :: l)) with (run (step w i) l).
    rewrite IH, step_registrations, <- app_assoc. f_equal.
    symmetry. apply (omap_app _ [i] l).
Qed.

(** X7. [noticecbs] is the history of [onnotice] calls: in every state a
    constructed pool reaches it holds exactly the callbacks registered so
    far, in call order, a callback registered twice being there twice.
    Nothing removes a callback, not even [close()]. *)
Theorem noticecbs_is_registration_history
    (init : option (list string)) (noCache : option bool) (t0 : Z)
    (inputs : list Input) :
  noticecbs (pool (run (constructor init noCache t0) inputs)) =
  registrations inputs.
Proof.
  rewrite run_registrations. unfold constructor.
  destruct init as [l|]; [|done].
  by rewrite (wf_noticecbs _ _ (add_all_frame (unique l) _)).
Qed.

End NoticeHistory.

(** ** More on flushing and publishing *)

Section FlushMore.
Context `{C : Collaborators}.
Implicit Types (w : World) (url : string).

(** X9. A [subscribe] call whose [maxDelayms] is absent, [0] or [NaN], made
    in any reachable state, flushes everything that is pending: the batch
    handed to the router is the pending batch followed by the new request,
    so requests that were waiting for their timer are sent now, with this
    call's [onEose]; the armed timer is cancelled, nothing is left pending,
    and no timeout remains that could flush again. *)
Theorem immediate_subscribe_drains_the_batch
    (init : option (list string)) (noCache : option bool) (t0 : Z)
    (inputs : list Input)
    (filters : list Filter) (urls : list string) (onEvent : OnEvent)
    (onEose : option OnEose) (options : SubscribeOptions) :
  let w := run (constructor init noCache t0) inputs in
  let batch :=
    filtersToSubscribe (pool w) ++
    [routed (eventCache (pool w))
            (mkRequest filters urls onEvent options)] in
  let w' := (sendSubscriptions onEose
               (enqueued filters urls onEvent options w)).2 in
  (∀ maxDelayms,
     supplied_truthy maxDelayms = false →
     subscribe filters urls onEvent maxDelayms onEose options w =
     returned (sendSubscriptions onEose
                 (enqueued filters urls onEvent options w)))
  ∧ timers w' = []
  ∧ timer (pool w') = None
  ∧ filtersToSubscribe (pool w') = []
  ∧ subs w' =
      subs w ++ (sub_for (batchFiltersByRelay batch).1 onEose w' <$>
                 live (batchFiltersByRelay batch).2)
  ∧ ∀ id (wait : N), timer_fires id (advance wait w') = None.
Proof.
  intros w batch w'.
  assert (Hok : timer_ok (enqueued filters urls onEvent options w)).
  { apply (timer_ok_ext w); try done.
    apply run_timer_ok, constructor_timer_ok. }
  destruct (flush_spec onEose (enqueued filters urls onEvent options w))
    as (Ht & Hn & _ & Hb & Hs & _).
  fold w' in Ht, Hn, Hb, Hs. rewrite (timer_ok_cleared _ Hok) in Ht.
  split; [|repeat split; try done].
  - intros md Hmd. rewrite subscribe_cases, Hmd. simpl.
    destruct md as [d|]; [|done]. simpl in Hmd. by rewrite Hmd.
  - intros id wait. by apply timer_fires_unarmed.
Qed.

Lemma publish_all_subs e l w : subs (publish_all e l w) = subs w.
Proof.
  revert w. induction l as [|u l IH]; intros w; [done|].
  rewrite publish_all_cons, IH. simpl. apply addOrGetRelay_subs.
Qed.

Lemma addOrGetRelay_calls u w :
  ∃ acts, trace (addOrGetRelay u w).2 = trace w ++ acts
          ∧ Forall (λ a, publish_call a = true) acts.
Proof.
  destruct (JsMap.get u (registry w)) as [rid|] eqn:Hg.
  - rewrite (addOrGetRelay_hit _ _ _ Hg). exists []. by rewrite app_nil_r.
  - rewrite (addOrGetRelay_miss _ _ Hg). eexists. split; [done|].
    by repeat constructor.
Qed.

Lemma publish_all_calls e l w :
  ∃ acts, trace (publish_all e l w) = trace w ++ acts
          ∧ Forall (λ a, publish_call a = true) acts.
Proof.
  revert w. induction l as [|u l IH]; intros w.
  { exists []. simpl. by rewrite app_nil_r. }
  rewrite publish_all_cons.
  destruct (addOrGetRelay_calls u w) as (a1 & E1 & F1).
  destruct (IH (log [APublish (addOrGetRelay u w).1 e] (addOrGetRelay u w).2))
    as (a2 & E2 & F2).
  exists (a1 ++ APublish (addOrGetRelay u w).1 e :: a2). split.
  - rewrite E2. simpl. by rewrite E1, <- !app_assoc.
  - apply Forall_app. split; [done|]. by constructor.
Qed.

(** X11. [publish] touches nothing but connections: it opens and closes no
    subscription, leaves the pending batch, the debounce state and the
    armed timeout as they are, keeps every registry entry and every
    existing connection object, and invokes no user callback; the only
    calls it makes are [relayInit], [connect] and [publish] on relays. *)
Theorem publish_touches_only_connections
    (event : Event) (urls : list string) (w : World) :
  let w' := publish event urls w in
  subs w' = subs w
  ∧ filtersToSubscribe (pool w') = filtersToSubscribe (pool w)
  ∧ minMaxDelayms (pool w') = minMaxDelayms (pool w)
  ∧ timer (pool w') = timer (pool w)
  ∧ timers w' = timers w
  ∧ noticecbs (pool w') = noticecbs (pool w)
  ∧ eventCache (pool w') = eventCache (pool w)
  ∧ (∀ url rid, JsMap.get url (registry w) = Some rid →
                JsMap.get url (registry w') = Some rid)
  ∧ (∀ rid r, relays w !! rid = Some r → relays w' !! rid = Some r)
  ∧ ∃ acts, trace w' = trace w ++ acts
            ∧ Forall (λ a, publish_call a = true) acts.
Proof.
  intros w'. destruct (publish_frame event urls w)
    as [Hn Hc Hm Hb Ht Hts _ _ [us Hr] _ Hreg _ _].
  fold w' in Hn, Hc, Hm, Hb, Ht, Hts, Hr, Hreg.
  split; [apply publish_all_subs|]. repeat split; try done.
  - intros rid r Hl. rewrite Hr. by apply lookup_app_l_Some.
  - apply publish_all_calls.
Qed.

Lemma subscribeRelay_objects u fs cb oe w :
  mergeSimilarAndRemoveEmptyFilters fs ≠ [] →
  pool (subscribeRelay u fs cb oe w).2 = pool (addOrGetRelay u w).2
  ∧ relays (subscribeRelay u fs cb oe w).2 = relays (addOrGetRelay u w).2.
Proof.
  intros Hne. unfold subscribeRelay. rewrite decide_False.
  2:{ by destruct (mergeSimilarAndRemoveEmptyFilters fs). }
  by destruct (addOrGetRelay u w).
Qed.

(** On the registry and the connections, the loop of [#subscribeRelays] is
    a run of [addOrGetRelay] calls for the live entries. *)
Lemma subscribeRelays_loop_objects m cb oe acc w1 w2 :
  pool w1 = pool w2 → relays w1 = relays w2 →
  pool (subscribeRelays_loop m cb oe acc w1).2 =
    pool (add_all (JsMap.keys (live m)) w2)
  ∧ relays (subscribeRelays_loop m cb oe acc w1).2 =
    relays (add_all (JsMap.keys (live m)) w2).
Proof.
  revert acc w1 w2. induction m as [|[u fs] m IH]; intros acc w1 w2 Hp Hr;
    [done|].
  simpl. destruct (decide (mergeSimilarAndRemoveEmptyFilters fs = [])) as [E|Hne].
  - rewrite (subscribeRelay_skip _ _ _ _ _ E).
    replace (opens_sub (u, fs)) with false
      by (unfold opens_sub; simpl; by rewrite E).
    by apply IH.
  - replace (opens_sub (u, fs)) with true.
    2:{ unfold opens_sub; simpl. rewrite bool_decide_eq_false_2; [done|].
        by destruct (mergeSimilarAndRemoveEmptyFilters fs). }
    destruct (subscribeRelay_objects u fs cb oe w1 Hne) as [Hp1 Hr1].
    destruct (addOrGetRelay_ext u w1 w2 Hp Hr) as (_ & Hp2 & Hr2).
    destruct (subscribeRelay u fs cb oe w1) as [s w1']. simpl in *.
    change (add_all (u :: JsMap.keys (live m)) w2)
      with (add_all (JsMap.keys (live m)) (addOrGetRelay u w2).2).
    apply IH; congruence.
Qed.

(** X12. A flush creates a connection for exactly those relays of the
    routed mapping that get a wire subscription and are not in the registry
    yet, in the order of the mapping; the relays that are registered keep
    their connection, and every wire subscription the flush opens is on the
    connection registered for its relay. *)
Theorem flush_connects_only_new_live_relays
    (onEose : option OnEose) (w : World) :
  let cb := (batchFiltersByRelay (filtersToSubscribe (pool w))).1 in
  let m := (batchFiltersByRelay (filtersToSubscribe (pool w))).2 in
  let w' := (sendSubscriptions onEose w).2 in
  let new := unique_from (JsMap.keys (registry w)) (JsMap.keys (live m)) in
  JsMap.keys (registry w') = JsMap.keys (registry w) ++ new
  ∧ relays w' = relays w ++ (relayInit <$> new)
  ∧ (∀ url rid, JsMap.get url (registry w) = Some rid →
                JsMap.get url (registry w') = Some rid)
  ∧ (∀ k s, subs w' !! (length (subs w) + k) = Some s →
            JsMap.get (s_url s) (registry w') = Some (s_relay s)).
Proof.
  intros cb m w' new.
  destruct (flush_spec onEose w) as (_ & _ & _ & _ & Hs & _).
  fold cb m w' in Hs.
  pose proof (sendSubscriptions_frame onEose w) as Hf. fold w' in Hf.
  assert (Hobj : pool w' = pool (add_all (JsMap.keys (live m))
                    (upd_pool (set_filtersToSubscribe [])
                       (upd_pool (set_minMaxDelayms Infinity)
                          (upd_pool (set_timer None)
                             (clearTimeout (timer (pool w)) w)))))
                 ∧ relays w' = relays (add_all (JsMap.keys (live m))
                    (upd_pool (set_filtersToSubscribe [])
                       (upd_pool (set_minMaxDelayms Infinity)
                          (upd_pool (set_timer None)
                             (clearTimeout (timer (pool w)) w)))))).
  { subst w'. rewrite sendSubscriptions_unfold. simpl.
    by apply subscribeRelays_loop_objects. }
  destruct Hobj as [Hp Hr].
  split; [|split; [|split]].
  - rewrite Hp, add_all_keys. simpl. by rewrite clearTimeout_pool.
  - rewrite Hr, add_all_relays. simpl.
    by rewrite clearTimeout_relays, clearTimeout_pool.
  - apply (of_registry _ _ Hf).
  - intros k s Hl. rewrite Hs, lookup_app_r in Hl by lia.
    replace (length (subs w) + k - length (subs w)) with k in Hl by lia.
    apply list_lookup_fmap_Some in Hl as (entry & -> & Hentry). simpl.
    assert (Hin : entry.1 ∈ JsMap.keys (registry w')).
    { rewrite Hp, add_all_keys. simpl. rewrite clearTimeout_pool.
      apply list_elem_of_lookup_2 in Hentry.
      destruct (decide (entry.1 ∈ JsMap.keys (registry w))); [set_solver|].
      apply elem_of_app. right. apply unique_from_elem. split; [|done].
      unfold JsMap.keys. apply list_elem_of_fmap. by exists entry. }
    destruct (JsMap.get entry.1 (registry w')) as [rid|] eqn:Hg; [done|].
    by apply get_None_keys in Hg.
Qed.

End FlushMore.

(** ** Subscriptions without an "eose" listener, and repeated markers *)

Section MarkersMore.
Context `{C : Collaborators}.
Implicit Types (w : World) (sid : nat) (s : Sub).

Lemma set_eventsBySub_same s o : eventsBySub s = o → set_eventsBySub o s = s.
Proof. intros <-. by destruct s. Qed.

Lemma msgs_for_cons sid i l :
  msgs_for sid (i :: l) = msgs_for sid [i] ++ msgs_for sid l.
Proof. apply (omap_app _ [i] l). Qed.

(** Turns seen from a subscription whose "eose" listener was never
    installed: markers are ignored, every event is accumulated. *)
Lemma run_unlistened sid inputs w s :
  subs w !! sid = Some s → s_unsubbed s = false → s_onEose s = None →
  (∀ i, i ∈ inputs → ¬ cancels sid i) →
  subs (run w inputs) !! sid =
    Some (set_eventsBySub
            ((λ l, l ++ events_of (msgs_for sid inputs)) <$> eventsBySub s) s)
  ∧ ∃ acts,
      trace (run w inputs) = trace w ++ acts
      ∧ calls_via sid acts =
        (λ e, AOnEvent sid (s_onEvent s) e
                (if eventsBySub s is None then true else false) (s_url s))
        <$> events_of (msgs_for sid inputs).
Proof.
  revert w s. induction inputs as [|i l IH]; intros w s Hl Hu Hn Hc.
  { simpl. split.
    - rewrite Hl. f_equal. symmetry. apply set_eventsBySub_same.
      destruct (eventsBySub s); simpl; [|done]. by rewrite app_nil_r.
    - exists []. by rewrite app_nil_r. }
  assert (Hc' : ∀ i0, i0 ∈ l → ¬ cancels sid i0)
    by (intros i0 Hin; apply Hc; by right).
  assert (Hci : ¬ cancels sid i) by (apply Hc; left).
  rewrite msgs_for_cons. change (run w (i :: l)) with (run (step w i) l).
  destruct (msgs_for sid [i]) as [|m [|]] eqn:Hi.
  - destruct (step_other i w sid s Hl Hi Hci) as (Hl1 & a1 & E1 & V1).
    destruct (IH _ s Hl1 Hu Hn Hc') as (Hl2 & a2 & E2 & V2).
    split; [done|]. exists (a1 ++ a2). rewrite E2, E1, <- app_assoc.
    split; [done|]. unfold calls_via in *.
    by rewrite List.filter_app, V1, V2.
  - destruct i; try done; simpl in Hi;
      destruct (decide (sid0 = sid)) as [->|]; try done.
    + injection Hi as <-.
      destruct (sub_event_at sid event w s Hl Hu) as [Hl1 E1].
      destruct (IH _ _ Hl1 Hu Hn Hc') as (Hl2 & a2 & E2 & V2).
      cbn [step]. rewrite Hl2. simpl. split.
      * f_equal. unfold set_eventsBySub. simpl. f_equal.
        destruct (eventsBySub s); simpl; [|done].
        by rewrite <- app_assoc.
      * eexists. rewrite E2, E1, <- app_assoc. split; [done|].
        unfold calls_via in *. simpl.
        rewrite bool_decide_eq_true_2 by done. rewrite V2. simpl.
        f_equal. apply list_fmap_ext. intros _ e _.
        by destruct (eventsBySub s).
    + injection Hi as <-.
      assert (Hsame : step w (ISubEose sid o) = w).
      { cbn [step]. unfold sub_eose. by rewrite Hl, Hu, Hn. }
      rewrite Hsame. simpl. by apply IH.
  - destruct i; try done; simpl in Hi;
      destruct (decide (sid0 = sid)); done.
Qed.

(** Turns seen from a subscription whose "eose" listener has run. *)
Lemma run_after_marker sid inputs w s h :
  subs w !! sid = Some s → s_unsubbed s = false → s_onEose s = Some h →
  eventsBySub s = None →
  (∀ i, i ∈ inputs → ¬ cancels sid i) →
  subs (run w inputs) !! sid = Some s
  ∧ ∃ acts,
      trace (run w inputs) = trace w ++ acts
      ∧ calls_via sid acts =
        after_marker sid (s_onEvent s) h (s_url s) <$> msgs_for sid inputs.
Proof.
  revert w. induction inputs as [|i l IH]; intros w Hl Hu Hh Hacc Hc.
  { simpl. split; [done|]. exists []. by rewrite app_nil_r. }
  assert (Hc' : ∀ i0, i0 ∈ l → ¬ cancels sid i0)
    by (intros i0 Hin; apply Hc; by right).
  assert (Hci : ¬ cancels sid i) by (apply Hc; left).
  rewrite msgs_for_cons. change (run w (i :: l)) with (run (step w i) l).
  destruct (msgs_for sid [i]) as [|m [|]] eqn:Hi.
  - destruct (step_other i w sid s Hl Hi Hci) as (Hl1 & a1 & E1 & V1).
    destruct (IH _ Hl1 Hu Hh Hacc Hc') as (Hl2 & a2 & E2 & V2).
    split; [done|]. exists (a1 ++ a2). rewrite E2, E1, <- app_assoc.
    split; [done|]. unfold calls_via in *.
    by rewrite List.filter_app, V1, V2.
  - destruct i; try done; simpl in Hi;
      destruct (decide (sid0 = sid)) as [->|]; try done.
    + injection Hi as <-.
      destruct (sub_event_at sid event w s Hl Hu) as [Hl1 E1].
      rewrite Hacc in Hl1, E1. simpl in Hl1.
      rewrite (set_eventsBySub_same _ _ Hacc) in Hl1.
      destruct (IH _ Hl1 Hu Hh Hacc Hc') as (Hl2 & a2 & E2 & V2).
      cbn [step]. split; [done|].
      eexists. rewrite E2, E1, <- app_assoc. split; [done|].
      unfold calls_via in *. simpl.
      rewrite bool_decide_eq_true_2 by done. by rewrite V2.
    + injection Hi as <-.
      destruct (sub_eose_at sid o w s h Hl Hu Hh) as [Hl0 E1].
      rewrite Hacc in E1.
      assert (Hl1 : subs (sub_eose sid o w) !! sid = Some s).
      { rewrite Hl0. destruct o; [|done].
        by rewrite (set_eventsBySub_same _ _ Hacc). }
      destruct (IH _ Hl1 Hu Hh Hacc Hc') as (Hl2 & a2 & E2 & V2).
      cbn [step]. split; [done|].
      eexists. rewrite E2, E1, <- app_assoc. split; [done|].
      unfold calls_via in *. simpl.
      rewrite bool_decide_eq_true_2 by done. by rewrite V2.
  - destruct i; try done; simpl in Hi;
      destruct (decide (sid0 = sid)); done.
Qed.

(** X5. A wire subscription opened by a flush without [onEose] (so every
    flush run by the debounce timer, whose callback passes none) has no
    "eose" listener: whatever the relay sends, markers included, [onEose]
    is never called, every event is handed to the merged [onEvent] with the
    after-end-marker flag [false], and every event stays in the
    subscription's accumulator, which is never reset. *)
Theorem without_onEose_flag_stays_false
    (w : World) (k : nat) (entry : string * list Filter)
    (inputs : list Input) :
  let cb := (batchFiltersByRelay (filtersToSubscribe (pool w))).1 in
  let m := (batchFiltersByRelay (filtersToSubscribe (pool w))).2 in
  let w' := (sendSubscriptions None w).2 in
  let sid := length (subs w) + k in
  live m !! k = Some entry →
  (∀ i, i ∈ inputs → ¬ cancels sid i) →
  ∃ acts,
    trace (run w' inputs) = trace w' ++ acts
    ∧ calls_via sid acts =
        (λ e, AOnEvent sid cb e false entry.1)
        <$> events_of (msgs_for sid inputs)
    ∧ eventsBySub <$> (subs (run w' inputs) !! sid) =
        Some (Some (events_of (msgs_for sid inputs))).
Proof.
  intros cb m w' sid Hk Hc.
  destruct (flush_spec None w) as (_ & _ & _ & _ & Hs & _).
  fold cb m w' in Hs.
  assert (Hl : subs w' !! sid = Some (sub_for cb None w' entry)).
  { rewrite Hs, lookup_app_r by (unfold sid; lia).
    replace (sid - length (subs w)) with k by (unfold sid; lia).
    apply list_lookup_fmap_Some. eauto. }
  destruct (run_unlistened sid inputs w' _ Hl eq_refl eq_refl Hc)
    as (Hl1 & acts & Et & Hv).
  exists acts. split; [done|]. split; [exact Hv|]. by rewrite Hl1.
Qed.

(** X6. On a wire subscription opened with [onEose], once an [onEose]
    call has returned (here the one for the relay's first
    end-of-stored-events marker), whatever the relay sends afterwards is
    handled with the accumulator [undefined]: every further event goes to
    the merged [onEvent] with the flag [true], and every further marker
    calls [onEose] again, with [undefined] instead of a list, whether
    those later calls return or throw. *)
Theorem repeated_marker_passes_undefined
    (w : World) (onEose : OnEose) (k : nat) (entry : string * list Filter)
    (inputs : list Input) (before : list Event) (rest : list SubMsg) :
  let cb := (batchFiltersByRelay (filtersToSubscribe (pool w))).1 in
  let m := (batchFiltersByRelay (filtersToSubscribe (pool w))).2 in
  let w' := (sendSubscriptions (Some onEose) w).2 in
  let sid := length (subs w) + k in
  live m !! k = Some entry →
  (∀ i, i ∈ inputs → ¬ cancels sid i) →
  msgs_for sid inputs = (MEvent <$> before) ++ MEose Returns :: rest →
  ∃ acts,
    trace (run w' inputs) = trace w' ++ acts
    ∧ calls_via sid acts =
        ((λ e, AOnEvent sid cb e false entry.1) <$> before)
        ++ AOnEose sid onEose (Some before) entry.1
        :: (after_marker sid cb onEose entry.1 <$> rest).
Proof.
  intros cb m w' sid Hk Hc Hm.
  destruct (flush_spec (Some onEose) w) as (_ & _ & _ & _ & Hs & _).
  fold cb m w' in Hs.
  assert (Hl : subs w' !! sid = Some (sub_for cb (Some onEose) w' entry)).
  { rewrite Hs, lookup_app_r by (unfold sid; lia).
    replace (sid - length (subs w)) with k by (unfold sid; lia).
    apply list_lookup_fmap_Some. eauto. }
  set (s0 := sub_for cb (Some onEose) w' entry) in *.
  destruct (omap_split _ _ _ _ _ Hm) as (i1 & x & i2 & -> & Hm1 & Hx & Hm2).
  assert (x = ISubEose sid Returns) as ->.
  { destruct x; try done; simpl in Hx;
      destruct (decide (sid0 = sid)) as [->|]; try done.
    by injection Hx as ->. }
  assert (Hc1 : ∀ i, i ∈ i1 → ¬ cancels sid i) by (intros; apply Hc; set_solver).
  assert (Hc2 : ∀ i, i ∈ i2 → ¬ cancels sid i) by (intros; apply Hc; set_solver).
  destruct (run_events sid i1 before w' s0 Hl eq_refl Hc1 Hm1)
    as (Hl1 & a1 & E1 & V1).
  simpl in Hl1, V1.
  destruct (sub_eose_at sid Returns (run w' i1) _ onEose Hl1 eq_refl eq_refl)
    as [Hl2 E2].
  simpl in Hl2, E2.
  destruct (run_after_marker sid i2 _ _ onEose Hl2 eq_refl eq_refl eq_refl Hc2)
    as (_ & a3 & E3 & V3).
  simpl in V3. unfold msgs_for in V3. rewrite Hm2 in V3.
  unfold run in *. rewrite foldl_app. simpl.
  exists (a1 ++ AOnEose sid onEose (Some before) entry.1 :: a3).
  split.
  - rewrite E3, E2, E1, <- !app_assoc. done.
  - unfold calls_via in *. rewrite List.filter_app, V1. simpl.
    rewrite bool_decide_eq_true_2 by done. by rewrite V3.
Qed.

End MarkersMore.

(** ** Connections: construction, failure, [close()] *)

Section ConnectionsMore.
Context `{C : Collaborators}.
Implicit Types (w : World) (url : string) (rid : nat) (r : Relay).

(** [addOrGetRelay] for URLs that are all new and distinct, in closed
    form. *)
Lemma add_all_fresh l w :
  NoDup l → (∀ u, u ∈ l → JsMap.get u (registry w) = None) →
  add_all l w =
  mkWorld
    (set_relayByUrl
       (registry w ++ imap (λ i u, (u, length (relays w) + i)) l) (pool w))
    (relays w ++ (relayInit <$> l)) (subs w) (timers w) (next_timer w) (now w)
    (trace w ++
     mjoin (imap (λ i u, [ARelayInit u (length (relays w) + i);
                          AConnect (length (relays w) + i)]) l)).
Proof.
  revert w. induction l as [|u l IH]; intros w Hnd Hnew.
  { simpl. rewrite !app_nil_r. by destruct w as [[]]. }
  apply NoDup_cons in Hnd as [Hu Hnd].
  change (add_all (u :: l) w) with (add_all l (addOrGetRelay u w).2).
  rewrite (addOrGetRelay_miss u w) by (apply Hnew; left). simpl.
  rewrite IH; [|done|].
  2:{ intros u' Hin. simpl. rewrite get_app, Hnew by (by right). simpl.
      rewrite decide_False; [done|]. intros ->. done. }
  simpl. rewrite length_app. simpl. rewrite Nat.add_0_r.
  f_equal.
  - unfold set_relayByUrl. simpl. f_equal. rewrite <- app_assoc. simpl.
    do 2 f_equal. apply imap_ext. intros i x _. simpl. f_equal. lia.
  - by rewrite <- app_assoc.
  - rewrite <- app_assoc. simpl. do 4 f_equal.
    apply imap_ext. intros i x _. simpl.
    by replace (length (relays w) + 1 + i) with (length (relays w) + S i) by lia.
Qed.

(** X2. The constructor, in closed form.  Without [relays] it leaves an
    empty pool.  With [relays] it creates one connection for each distinct
    URL, in order of first occurrence, calls [connect()] on each right
    after registering it, and does nothing else.  The event cache is
    created unless [noCache] is [true]; no timer is armed, nothing is
    pending, [minMaxDelayms] is [Infinity]. *)
Theorem constructor_connects_each_url_once
    (urls : option (list string)) (noCache : option bool) (t0 : Z) :
  constructor urls noCache t0 =
  mkWorld
    (mkPool (imap (λ i u, (u, i)) (unique (default [] urls))) []
            (if noCache is Some true then None else Some newEventCache)
            Infinity [] None)
    (relayInit <$> unique (default [] urls)) [] [] 0 t0
    (mjoin (imap (λ i u, [ARelayInit u i; AConnect i])
                 (unique (default [] urls)))).
Proof.
  unfold constructor. destruct urls as [l|]; [|done]. simpl.
  rewrite add_all_fresh; [done|apply unique_NoDup|done].
Qed.

Lemma close_trace_exact w :
  trace (close w) = trace w ++ (AClose <$> JsMap.values (registry w)).
Proof.
  unfold close. simpl. generalize (JsMap.values (registry w)).
  intros l. revert w. induction l as [|j l IH]; intros w; simpl.
  - by rewrite app_nil_r.
  - rewrite IH. simpl. by rewrite <- app_assoc.
Qed.

Lemma close_relays_exact w rid r :
  relays w !! rid = Some r →
  relays (close w) !! rid =
  Some (if decide (rid ∈ JsMap.values (registry w)) then set_closed r else r).
Proof.
  unfold close. simpl. generalize (JsMap.values (registry w)).
  intros l. revert w r. induction l as [|j l IH]; intros w r Hl; simpl.
  - done.
  - destruct (decide (j = rid)) as [->|Hne].
    + rewrite (IH _ (set_closed r)).
      2:{ simpl. by rewrite list_lookup_alter_eq, Hl. }
      rewrite (decide_True (P := rid ∈ rid :: l)) by set_solver.
      by destruct (decide (rid ∈ l)).
    + rewrite (IH _ r).
      2:{ simpl. by rewrite list_lookup_alter_ne. }
      destruct (decide (rid ∈ l)).
      * by rewrite decide_True by set_solver.
      * by rewrite decide_False by set_solver.
Qed.

(** X3. [close()] in any reachable state: it calls [close()] once on every
    registered connection, in registration order, and empties the
    registry.  It does not touch the pending batch, the debounce state or
    the armed timeout (a pending flush will still run), nor [noticecbs],
    nor the open subscriptions.  Afterwards [addOrGetRelay] for a URL that
    was registered creates a new connection, not the one closed, and
    [onerror] and [ondisconnect] wire to nothing. *)
Theorem close_forgets_every_connection
    (init : option (list string)) (noCache : option bool) (t0 : Z)
    (inputs : list Input) :
  let w := run (constructor init noCache t0) inputs in
  registry (close w) = []
  ∧ trace (close w) = trace w ++ (AClose <$> JsMap.values (registry w))
  ∧ (∀ rid r, relays w !! rid = Some r →
       relays (close w) !! rid =
       Some (if decide (rid ∈ JsMap.values (registry w))
             then set_closed r else r))
  ∧ (filtersToSubscribe (pool (close w)) = filtersToSubscribe (pool w)
     ∧ minMaxDelayms (pool (close w)) = minMaxDelayms (pool w)
     ∧ timer (pool (close w)) = timer (pool w)
     ∧ timers (close w) = timers w
     ∧ noticecbs (pool (close w)) = noticecbs (pool w)
     ∧ subs (close w) = subs w)
  ∧ (∀ url rid, JsMap.get url (registry w) = Some rid →
       (addOrGetRelay url (close w)).1 = length (relays w)
       ∧ (addOrGetRelay url (close w)).1 ≠ rid)
  ∧ (∀ cb, onerror cb (close w) = close w
           ∧ ondisconnect cb (close w) = close w).
Proof.
  intros w.
  assert (Hok : registry_ok w)
    by apply run_registry_ok, constructor_registry_ok.
  destruct (close_fields w) as (Hp & Hs & Ht).
  split; [by rewrite Hp|]. split; [apply close_trace_exact|].
  split; [apply close_relays_exact|]. split; [by rewrite Hp|]. split.
  - intros url rid Hg.
    assert (Hfresh : (addOrGetRelay url (close w)).1 = length (relays w)).
    { assert (Hlen : length (relays (close w)) = length (relays w)).
      { change (close w) with (step w IClose).
        by rewrite step_relays_length. }
      rewrite addOrGetRelay_miss by (by rewrite Hp). exact Hlen. }
    split; [done|]. rewrite Hfresh.
    apply Hok, lookup_lt_Some in Hg. rewrite length_fmap in Hg. lia.
  - intros cb. unfold onerror, ondisconnect. by rewrite Hp.
Qed.

(** How a turn changes the state of a connection that exists: only the
    settling of its [connect()] does. *)
Lemma step_settled i w rid r :
  relays w !! rid = Some r → r_status r ≠ Connecting →
  ∃ r', relays (step w i) !! rid = Some r'
        ∧ r_status r' = r_status r ∧ r_notice r' = r_notice r.
Proof.
  intros Hl Hst.
  destruct (is_wire i) eqn:Hw.
  { destruct (of_relays _ _ (step_wire i w Hw)) as [urls E].
    exists r. split; [|done]. rewrite E. by apply lookup_app_l_Some. }
  destruct i; try discriminate Hw; cbn [step];
    try (exists r; split; [done | done]).
  - rewrite onerror_relays.
    destruct (add_listeners_lookup add_error cb (registry w) _ _ _ r_error
                ltac:(done) Hl) as (r' & added & Hr' & _ & _ & _ & _ & HP).
    exists r'. split; [done|].
    by apply (HP (λ x, r_status x = r_status r ∧ r_notice x = r_notice r)).
  - rewrite ondisconnect_relays.
    destruct (add_listeners_lookup add_disconnect cb (registry w) _ _ _
                r_disconnect ltac:(done) Hl)
      as (r' & added & Hr' & _ & _ & _ & _ & HP).
    exists r'. split; [done|].
    by apply (HP (λ x, r_status x = r_status r ∧ r_notice x = r_notice r)).
  - rewrite (close_relays_exact w rid r Hl). eexists. split; [done|].
    by destruct (decide _).
  - destruct c as [|opened]; [by exists r|].
    destruct (unsub_all opened w) as (_ & Hr & _).
    rewrite Hr. by exists r.
  - unfold connect_settled. destruct (relays w !! rid0) as [r0|] eqn:Hl0;
      [|by exists r].
    destruct (r_status r0) eqn:Hs0; try by exists r.
    destruct (decide (rid0 = rid)) as [->|Hne].
    + congruence.
    + destruct fulfilled; simpl; rewrite list_lookup_insert_ne by done;
        by exists r.
  - unfold relay_notice. destruct (relays w !! rid0) as [r0|];
      [destruct (r_notice r0)|]; by exists r.
  - unfold relay_error. destruct (relays w !! rid0) as [r0|]; by exists r.
  - unfold relay_disconnect. destruct (relays w !! rid0) as [r0|];
      by exists r.
  - unfold sub_event. destruct (subs w !! sid) as [s|];
      [destruct (s_unsubbed s)|]; by exists r.
  - unfold sub_eose. destruct (subs w !! sid) as [s|];
      [destruct (s_unsubbed s); [|destruct (s_onEose s); [destruct o|]]|]; by exists r.
Qed.

Lemma run_settled inputs w rid r :
  relays w !! rid = Some r → r_status r ≠ Connecting →
  ∃ r', relays (run w inputs) !! rid = Some r'
        ∧ r_status r' = r_status r ∧ r_notice r' = r_notice r.
Proof.
  revert w r. induction inputs as [|i l IH]; intros w r Hl Hst; simpl.
  { by exists r. }
  destruct (step_settled i w rid r Hl Hst) as (r1 & Hl1 & Hs1 & Hn1).
  destruct (IH _ _ Hl1 ltac:(congruence)) as (r' & Hl' & Hs' & Hn').
  exists r'. split; [done|]. split; congruence.
Qed.

(** Only [close()] removes an entry from the registry. *)
Lemma run_keeps_entry inputs w url rid :
  IClose ∉ inputs →
  JsMap.get url (registry w) = Some rid →
  JsMap.get url (registry (run w inputs)) = Some rid.
Proof.
  revert w. induction inputs as [|i l IH]; intros w Hno Hg; [done|].
  apply not_elem_of_cons in Hno as [Hi Hno].
  simpl. apply IH; [done|].
  destruct (is_wire i) eqn:Hw.
  - by apply (of_registry _ _ (step_wire i w Hw)).
  - destruct (step_pool i w Hw) as [_ HR]. rewrite HR. by destruct i.
Qed.

(** X4. When the [connect()] of a connection is rejected, the pool logs
    the warning "failed to connect to relay <url>" and installs no "notice"
    listener.  From then on, whatever happens (a later settling of the same
    promise included), the connection stays failed, notices from it reach
    no [onnotice] callback, and, until [close()] is called, it stays in
    the registry: [addOrGetRelay] keeps returning the failed connection and
    opens no other one for that URL. *)
Theorem rejected_connect_is_never_retried
    (w : World) (rid : nat) (r : Relay) (inputs : list Input) :
  relays w !! rid = Some r →
  r_status r = Connecting →
  r_notice r = false →
  let w1 := connect_settled rid false w in
  trace w1 = trace w ++ [AWarn ("failed to connect to relay " ++ r_url r)]
  ∧ (∃ r', relays (run w1 inputs) !! rid = Some r'
           ∧ r_status r' = Failed ∧ r_notice r' = false)
  ∧ (∀ relay msg failing,
       relay_notice rid relay msg failing (run w1 inputs) = run w1 inputs)
  ∧ (∀ url, JsMap.get url (registry w) = Some rid →
       IClose ∉ inputs →
       addOrGetRelay url (run w1 inputs) = (rid, run w1 inputs)).
Proof.
  intros Hl Hst Hn w1.
  assert (E1 : w1 = log [AWarn ("failed to connect to relay " ++ r_url r)]
                      (set_relays (<[rid := set_status Failed r]> (relays w)) w)).
  { subst w1. unfold connect_settled. by rewrite Hl, Hst. }
  assert (Hl1 : relays w1 !! rid = Some (set_status Failed r)).
  { rewrite E1. simpl. apply list_lookup_insert_eq. by apply lookup_lt_Some in Hl. }
  destruct (run_settled inputs w1 rid _ Hl1 ltac:(done))
    as (r' & Hl' & Hs' & Hn').
  simpl in Hs', Hn'. rewrite Hn in Hn'.
  split; [by rewrite E1|]. split; [by exists r'|]. split.
  - intros relay msg failing. unfold relay_notice. by rewrite Hl', Hn'.
  - intros url Hg Hno. apply addOrGetRelay_hit, run_keeps_entry; [done|].
    by rewrite E1.
Qed.

End ConnectionsMore.

(** ** Every connection is connected once *)

Section ConnectOnce.
Context `{C : Collaborators}.
Implicit Types (w : World) (i : Input).

Lemma grows_quiet w w' acts :
  r_url <$> relays w' = r_url <$> relays w →
  trace w' = trace w ++ acts → created acts = [] → connects acts = [] →
  grows_by w w'.
Proof.
  intros Hr Ht Hc Hn. exists acts, []. rewrite app_nil_r. by repeat split.
Qed.

Lemma grows_same w w' :
  relays w' = relays w → trace w' = trace w → grows_by w w'.
Proof.
  intros Hr Ht. apply (grows_quiet _ _ []); try done.
  - by rewrite Hr.
  - by rewrite app_nil_r.
Qed.

Lemma grows_trans w1 w2 w3 : grows_by w1 w2 → grows_by w2 w3 → grows_by w1 w3.
Proof.
  intros (a1 & u1 & Ht1 & Hr1 & Hc1 & Hn1) (a2 & u2 & Ht2 & Hr2 & Hc2 & Hn2).
  assert (Hlen : length (relays w2) = length (relays w1) + length u1).
  { rewrite <- (length_fmap r_url (relays w2)), Hr1, length_app.
    by rewrite length_fmap. }
  exists (a1 ++ a2), (u1 ++ u2). split; [by rewrite Ht2, Ht1, app_assoc|].
  split; [by rewrite Hr2, Hr1, app_assoc|]. split.
  - unfold created in *. rewrite omap_app, Hc1, Hc2, imap_app. f_equal.
    apply imap_ext. intros k x _. simpl. f_equal. lia.
  - unfold connects in *.
    rewrite omap_app, Hn1, Hn2, length_app, seq_app. by rewrite Hlen.
Qed.

Lemma silent_fmap {A : Type} (g : A → Action) (l : list A) :
  (∀ x, created [g x] = [] ∧ connects [g x] = []) →
  created (g <$> l) = [] ∧ connects (g <$> l) = [].
Proof.
  intros Hg. induction l as [|x l [IH1 IH2]]; [done|].
  destruct (Hg x) as [H1 H2]. unfold created, connects in *. simpl in *.
  split.
  - destruct (match g x with ARelayInit url rid => Some (url, rid)
                           | _ => None end); [done | exact IH1].
  - destruct (match g x with AConnect rid => Some rid | _ => None end);
      [done | exact IH2].
Qed.

Lemma addOrGetRelay_grows u w : grows_by w (addOrGetRelay u w).2.
Proof.
  destruct (JsMap.get u (registry w)) as [rid|] eqn:Hg.
  - rewrite (addOrGetRelay_hit _ _ _ Hg). by apply grows_same.
  - rewrite (addOrGetRelay_miss _ _ Hg).
    exists [ARelayInit u (length (relays w)); AConnect (length (relays w))], [u].
    simpl. rewrite fmap_app, Nat.add_0_r. done.
Qed.

Lemma subscribeRelay_grows u fs cb oe w :
  grows_by w (subscribeRelay u fs cb oe w).2.
Proof.
  unfold subscribeRelay. case_decide; [by apply grows_same|].
  pose proof (addOrGetRelay_grows u w) as Hg.
  destruct (addOrGetRelay u w) as [rid w1]. simpl in *.
  eapply grows_trans; [exact Hg|].
  by eapply (grows_quiet _ _ [ASub _ _ _]).
Qed.

Lemma subscribeRelays_loop_grows m cb oe acc w :
  grows_by w (subscribeRelays_loop m cb oe acc w).2.
Proof.
  revert acc w. induction m as [|[u fs] m IH]; intros acc w; simpl.
  - by apply grows_same.
  - pose proof (subscribeRelay_grows u fs cb oe w) as Hg.
    destruct (subscribeRelay u fs cb oe w) as [s w1].
    eapply grows_trans; [exact Hg | apply IH].
Qed.

Lemma publish_all_grows e l w : grows_by w (publish_all e l w).
Proof.
  revert w. induction l as [|u l IH]; intros w; [by apply grows_same|].
  rewrite publish_all_cons.
  eapply grows_trans; [apply (addOrGetRelay_grows u w)|].
  eapply grows_trans; [|apply IH].
  by eapply (grows_quiet _ _ [APublish _ _]).
Qed.

Lemma add_all_grows l w : grows_by w (add_all l w).
Proof.
  revert w. induction l as [|u l IH]; intros w; [by apply grows_same|].
  change (add_all (u :: l) w) with (add_all l (addOrGetRelay u w).2).
  eapply grows_trans; [apply addOrGetRelay_grows | apply IH].
Qed.

Lemma sendSubscriptions_grows oe w : grows_by w (sendSubscriptions oe w).2.
Proof.
  rewrite sendSubscriptions_unfold. simpl.
  eapply grows_trans; [|apply subscribeRelays_loop_grows].
  destruct (timer (pool w)); by apply grows_same.
Qed.

Lemma resetTimer_grows d w : grows_by w (resetTimer d w).
Proof.
  unfold resetTimer.
  destruct (gt (minMaxDelayms (pool w)) d);
    destruct (timer (pool _)); simpl;
    match goal with |- context [not_Infinity ?x] => destruct (not_Infinity x) end;
    by apply grows_same.
Qed.

Lemma enqueued_grows fs rs cb opts w : grows_by w (enqueued fs rs cb opts w).
Proof.
  unfold enqueued.
  eapply (grows_quiet _ _ (_ <$> _)); [done | done | |];
    by apply silent_fmap.
Qed.

Lemma step_urls i w :
  is_wire i = false → r_url <$> relays (step w i) = r_url <$> relays w.
Proof.
  intros Hw. apply list_eq. intros j. rewrite !list_lookup_fmap.
  destruct (relays w !! j) as [r|] eqn:Hl.
  - destruct (step_relays i w j r Hl) as (r' & -> & Hu & _). simpl. by rewrite Hu.
  - apply lookup_ge_None in Hl. rewrite <- (step_relays_length i w Hw) in Hl.
    apply lookup_ge_None in Hl. by rewrite Hl.
Qed.

Lemma step_grows i w : grows_by w (step w i).
Proof.
  destruct (is_wire i) eqn:Hw.
  - destruct i; try discriminate Hw; cbn [step].
    + rewrite subscribe_cases.
      destruct (supplied_truthy maxDelayms && supplied onEose);
        [by apply grows_same|].
      pose proof (enqueued_grows filters relays0 onEvent options w) as He.
      destruct maxDelayms as [d|]; [destruct (truthy d)|]; simpl;
        (eapply grows_trans; [exact He|]);
        auto using resetTimer_grows, sendSubscriptions_grows.
    + apply sendSubscriptions_grows.
    + apply addOrGetRelay_grows.
    + apply publish_all_grows.
    + unfold timer_fires. destruct (filter _ (timers w)) as [|t ?]; simpl;
        [by apply grows_same|].
      case_decide; simpl; [|by apply grows_same].
      eapply grows_trans; [|apply sendSubscriptions_grows].
      by apply grows_same.
  - pose proof (step_urls i w Hw) as Hu.
    destruct i; try discriminate Hw; cbn [step] in *.
    + by apply (grows_quiet _ _ []); [| rewrite app_nil_r | |].
    + destruct (onerror_fields cb w) as (_ & _ & _ & Ht).
      by apply (grows_quiet _ _ []); [| rewrite app_nil_r | |].
    + destruct (ondisconnect_fields cb w) as (_ & _ & _ & Ht).
      by apply (grows_quiet _ _ []); [| rewrite app_nil_r | |].
    + eapply grows_quiet; [done | apply close_trace_exact | |];
        by apply silent_fmap.
    + destruct c as [|opened]; [by apply grows_same|].
      destruct (unsub_all opened w) as (_ & _ & _ & _ & Ht).
      eapply grows_quiet; [done | exact Ht | |]; by apply silent_fmap.
    + by apply grows_same.
    + unfold connect_settled in *.
      destruct (relays w !! rid) as [r|]; [|by apply grows_same].
      destruct (r_status r); [destruct fulfilled| |];
        try (by apply (grows_quiet _ _ []); [| rewrite app_nil_r | |]).
      by eapply (grows_quiet _ _ [AWarn _]).
    + unfold relay_notice in *.
      destruct (relays w !! rid) as [r|]; [|by apply grows_same].
      destruct (r_notice r); [|by apply grows_same].
      eapply (grows_quiet _ _ (_ <$> _)); [done | done | |];
        by apply silent_fmap.
    + unfold relay_error in *.
      destruct (relays w !! rid) as [r|]; [|by apply grows_same].
      eapply (grows_quiet _ _ (_ <$> _)); [done | done | |];
        by apply silent_fmap.
    + unfold relay_disconnect in *.
      destruct (relays w !! rid) as [r|]; [|by apply grows_same].
      eapply (grows_quiet _ _ (_ <$> _)); [done | done | |];
        by apply silent_fmap.
    + unfold sub_event in *.
      destruct (subs w !! sid) as [s|]; [|by apply grows_same].
      destruct (s_unsubbed s); [by apply grows_same|].
      by eapply (grows_quiet _ _ [AOnEvent _ _ _ _ _]).
    + unfold sub_eose in *.
      destruct (subs w !! sid) as [s|]; [|by apply grows_same].
      destruct (s_unsubbed s); [by apply grows_same|].
      destruct (s_onEose s); [|by apply grows_same].
      destruct o; by eapply (grows_quiet _ _ [AOnEose _ _ _ _]).
Qed.

Lemma run_grows inputs w : grows_by w (run w inputs).
Proof.
  revert w. induction inputs as [|i l IH]; intros w; [by apply grows_same|].
  simpl. eapply grows_trans; [apply step_grows | apply IH].
Qed.

(** X8. In every state a constructed pool reaches, the [relayInit] calls
    and the [connect()] calls made so far are exactly one per connection
    object, in creation order, each [relayInit] with the URL the object
    holds: no connection is connected twice, the pool never reconnects. *)
Theorem every_connection_connects_once
    (init : option (list string)) (noCache : option bool) (t0 : Z)
    (inputs : list Input) :
  let w := run (constructor init noCache t0) inputs in
  created (trace w) = imap (λ k u, (u, k)) (r_url <$> relays w)
  ∧ connects (trace w) = seq 0 (length (relays w)).
Proof.
  intros w.
  set (w0 := mkWorld (empty_pool noCache) [] [] [] 0 t0 []).
  assert (Hg : grows_by w0 w).
  { eapply grows_trans; [|apply run_grows].
    unfold constructor. fold w0. destruct init as [l|];
      [apply add_all_grows | by apply grows_same]. }
  destruct Hg as (acts & urls & Ht & Hr & Hc & Hn). simpl in *.
  rewrite Ht, Hr, Hc, Hn. split; [done|].
  by rewrite <- (length_fmap r_url (relays w)), Hr.
Qed.

End ConnectOnce.

(** ** A burst of debounced calls *)

Section Burst.
Context `{C : Collaborators}.
Implicit Types (w : World) (d : Z).

Lemma burst_cons d c calls :
  burst d (c :: calls) =
  IAdvance c.1
  :: ISubscribe (q_filters c.2) (q_relays c.2) (q_onEvent c.2)
                (Some (Num d)) None (q_options c.2)
  :: burst d calls.
Proof. done. Qed.

(** The state right after a call of the burst (or before the first):
    if a timeout is armed, it waits for [d] and was armed just now. *)
Lemma burst_spec d calls w :
  (0 < d)%Z → timer_ok w →
  (minMaxDelayms (pool w) = Infinity ∨ minMaxDelayms (pool w) = Num d) →
  (∀ t, t ∈ timers w → t_armed_at t = now w) →
  timer_ok (run w (burst d calls))
  ∧ (minMaxDelayms (pool (run w (burst d calls))) = Infinity
     ∨ minMaxDelayms (pool (run w (burst d calls))) = Num d)
  ∧ (∀ t, t ∈ timers (run w (burst d calls)) →
          t_armed_at t = now (run w (burst d calls)))
  ∧ filtersToSubscribe (pool (run w (burst d calls))) =
      filtersToSubscribe (pool w) ++ (routed (eventCache (pool w)) <$> calls.*2)
  ∧ now (run w (burst d calls)) = (now w + elapsed calls)%Z
  ∧ subs (run w (burst d calls)) = subs w.
Proof.
  intros Hd. revert w. induction calls as [|c calls IH]; intros w Hok Hmin Harm.
  { simpl. rewrite app_nil_r, Z.add_0_r. done. }
  rewrite burst_cons.
  change (run w (?a :: ?b :: ?l)) with (run (step (step w a) b) l).
  set (wa := step w (IAdvance c.1)).
  assert (Hoka : timer_ok wa) by (by apply step_timer_ok).
  assert (He : timer_ok (enqueued (q_filters c.2) (q_relays c.2) (q_onEvent c.2)
                                  (q_options c.2) wa))
    by (by apply (timer_ok_ext wa)).
  assert (Htr : truthy (Num d) = true).
  { simpl. apply negb_true_iff, Z.eqb_neq. lia. }
  destruct (resetTimer_spec (Num d) _ He ltac:(done))
    as (Hm & Hb & Hc & Hn & Hs & Hl).
  set (ws := step wa _).
  assert (E : ws = resetTimer (Num d)
                     (enqueued (q_filters c.2) (q_relays c.2) (q_onEvent c.2)
                               (q_options c.2) wa)).
  { subst ws. cbn [step]. rewrite subscribe_cases. simpl.
    apply negb_true_iff in Htr. simpl in Htr. by rewrite Htr. }
  rewrite <- E in *. simpl in Hm, Hb, Hc, Hn, Hs, Hl.
  assert (Hlow : num_min (minMaxDelayms (pool w)) (Num d) = Num d).
  { destruct Hmin as [->| ->]; simpl; [done|]. by rewrite Z.min_id. }
  rewrite Hlow in Hm, Hl. simpl in Hl. destruct Hl as (Ht & _ & _).
  destruct (IH ws) as (Hok' & Hmin' & Harm' & Hb' & Hn' & Hs').
  { rewrite E. by apply resetTimer_timer_ok. }
  { by right. }
  { intros t Hin. rewrite Ht in Hin. apply list_elem_of_singleton in Hin.
    subst t. simpl. by rewrite Hn. }
  split; [done|]. split; [done|]. split; [done|]. split; [|split].
  - rewrite Hb', Hb, Hc, <- app_assoc. done.
  - rewrite Hn', Hn. simpl. lia.
  - by rewrite Hs', Hs.
Qed.

(** A delay that fits a timeout is waited for as it is. *)
Lemma timeout_ms_in_range d :
  (0 < d ≤ TIMEOUT_MAX)%Z → timeout_ms (Num d) = d.
Proof.
  intros [Hlo Hhi]. unfold timeout_ms.
  destruct (Z.leb_spec 1 d); [|lia].
  destruct (Z.leb_spec d TIMEOUT_MAX); [done | lia].
Qed.

Lemma not_yet_due w d (wait : N) :
  (0 < d ≤ TIMEOUT_MAX)%Z →
  (Z.of_N wait < d)%Z → timer_ok w →
  (minMaxDelayms (pool w) = Infinity ∨ minMaxDelayms (pool w) = Num d) →
  (∀ t, t ∈ timers w → t_armed_at t = now w) →
  ∀ id, timer_fires id (advance wait w) = None.
Proof.
  intros Hd Hw [_ Hok] Hmin Harm id. unfold timer_fires. simpl.
  destruct (timer (pool w)) as [id0|].
  - destruct Hok as (Hne & t0 & Hts). rewrite Hts in *.
    destruct Hmin as [Hm|Hm]; [done|]. rewrite Hm in *.
    rewrite filter_cons, filter_nil. simpl.
    case_decide; [|done]. rewrite decide_False; [done|].
    pose proof (Harm _ ltac:(left)) as Ha. unfold due_at.
    cbn [t_delay t_armed_at] in *. rewrite (timeout_ms_in_range d Hd). lia.
  - destruct Hok as [_ ->]. done.
Qed.

Lemma not_due_now id w :
  timer_fires id (advance 0 w) = None → timer_fires id w = None.
Proof.
  unfold timer_fires. simpl. rewrite Z.add_0_r.
  destruct (filter _ (timers w)); [done|]. by case_decide.
Qed.

(** X10. Each debounced [subscribe] restarts the timer.  Take a pool in
    any reachable state with no delayed request pending, and any burst of
    [subscribe] calls with the same delay [d], a delay that a timeout can
    wait for (at most [TIMEOUT_MAX]), each made less than [d] milliseconds
    after the one before.  However long the burst lasts, no
    flush can happen during it: no timeout is due right after a call or
    right before the next one, and after the burst none becomes due before
    [d] milliseconds have passed without a call.
    All the requests of the burst are still pending and no wire
    subscription has been opened; the first request has then waited for the
    whole burst, which may be longer than its [maxDelayms]. *)
Theorem burst_postpones_the_flush
    (init : option (list string)) (noCache : option bool) (t0 : Z)
    (inputs : list Input) (d : Z) (calls : list (N * Request)) :
  let w := run (constructor init noCache t0) inputs in
  let w' := run w (burst d calls) in
  (0 < d ≤ TIMEOUT_MAX)%Z →
  minMaxDelayms (pool w) = Infinity →
  (∀ c, c ∈ calls → (Z.of_N c.1 < d)%Z) →
  filtersToSubscribe (pool w') =
    filtersToSubscribe (pool w) ++ (routed (eventCache (pool w)) <$> calls.*2)
  ∧ subs w' = subs w
  ∧ now w' = (now w + elapsed calls)%Z
  ∧ (∀ id, timer_fires id w' = None)
  ∧ (∀ id (wait : N), (Z.of_N wait < d)%Z →
       timer_fires id (advance wait w') = None)
  ∧ (∀ k id, timer_fires id (run w (burst d (take k calls))) = None)
  ∧ (∀ k c id, calls !! k = Some c →
       timer_fires id (advance c.1 (run w (burst d (take k calls)))) = None).
Proof.
  intros w w' Hd Hinf Hgaps.
  assert (Hok : timer_ok w) by apply run_timer_ok, constructor_timer_ok.
  assert (Harm : ∀ t, t ∈ timers w → t_armed_at t = now w).
  { destruct Hok as [_ Hok]. destruct (timer (pool w)).
    - by destruct Hok as [Hne _].
    - destruct Hok as [_ ->]. intros t Hin. by apply elem_of_nil in Hin. }
  assert (Hwaits : ∀ l id (wait : N), (Z.of_N wait < d)%Z →
            timer_fires id (advance wait (run w (burst d l))) = None).
  { intros l id wait Hwait.
    destruct (burst_spec d l w (proj1 Hd) Hok (or_introl Hinf) Harm)
      as (Hok' & Hmin' & Harm' & _).
    by apply (not_yet_due _ d). }
  assert (Hquiet : ∀ l id, timer_fires id (run w (burst d l)) = None).
  { intros l id.
    apply not_due_now, Hwaits. simpl. lia. }
  destruct (burst_spec d calls w (proj1 Hd) Hok (or_introl Hinf) Harm)
    as (Hok' & Hmin' & Harm' & Hb & Hn & Hs).
  fold w' in Hok', Hmin', Harm', Hb, Hn, Hs.
  split; [done|]. split; [done|]. split; [done|].
  split; [apply Hquiet|]. split; [intros id wait; apply Hwaits|].
  split; [intros k id; apply Hquiet|].
  intros k c id Hk. apply Hwaits, Hgaps.
  by apply list_elem_of_lookup_2 in Hk.
Qed.

End Burst.

(** ** The further properties on concrete inputs *)

Section ConcreteMore.
Import Reference Scenarios.

Lemma rejected_connect_is_never_retried_witness :
  relays with_r1 !! 0 = Some (relayInit "wss://r1")
  ∧ r_status (relayInit "wss://r1") = Connecting
  ∧ r_notice (relayInit "wss://r1") = false
  ∧ trace (connect_settled 0 false with_r1) =
      trace with_r1 ++ [AWarn ("failed to connect to relay " ++ "wss://r1")]
  ∧ relay_notice 0 "wss://r1" "hello" None
      (run (connect_settled 0 false with_r1) after_failure)
    = run (connect_settled 0 false with_r1) after_failure
  ∧ (IClose ∉ after_failure)
  ∧ addOrGetRelay "wss://r1"
      (run (connect_settled 0 false with_r1) after_failure)
    = (0, run (connect_settled 0 false with_r1) after_failure).
Proof.
  assert (Hno : IClose ∉ after_failure).
  { intros Hin. unfold after_failure in Hin.
    repeat (apply elem_of_cons in Hin as [Hin|Hin]; [discriminate Hin|]).
    by apply elem_of_nil in Hin. }
  destruct (rejected_connect_is_never_retried (C := reference) with_r1 0
              (relayInit "wss://r1") after_failure eq_refl eq_refl eq_refl)
    as (Hwarn & _ & Hsilent & Hsame).
  split; [reflexivity|]. split; [reflexivity|]. split; [reflexivity|].
  split; [exact Hwarn|]. split; [exact (Hsilent "wss://r1" "hello" None)|].
  split; [exact Hno | exact (Hsame "wss://r1" eq_refl Hno)].
Defined.

Lemma without_onEose_flag_stays_false_witness :
  live (batchFiltersByRelay (filtersToSubscribe (pool on_three_relays))).2 !! 1
    = Some ("wss://r2", [by_ids ["a"]])
  ∧ (∀ i, i ∈ interleaved → ¬ cancels 1 i)
  ∧ ∃ acts,
      trace (run (sendSubscriptions None on_three_relays).2 interleaved)
        = trace (sendSubscriptions None on_three_relays).2 ++ acts
      ∧ calls_via 1 acts =
          [AOnEvent 1 (Merged [Deduped (User "cb") no_options]) (ev "a")
                    false "wss://r2";
           AOnEvent 1 (Merged [Deduped (User "cb") no_options]) (ev "b")
                    false "wss://r2";
           AOnEvent 1 (Merged [Deduped (User "cb") no_options]) (ev "c")
                    false "wss://r2"]
      ∧ eventsBySub <$>
          (subs (run (sendSubscriptions None on_three_relays).2 interleaved)
             !! 1)
        = Some (Some [ev "a"; ev "b"; ev "c"]).
Proof.
  assert (Hc : ∀ i : Input, i ∈ interleaved → ¬ cancels 1 i).
  { intros i Hi. destruct i; try (intros []).
    unfold interleaved in Hi.
    repeat (apply elem_of_cons in Hi as [Hi|Hi]; [discriminate Hi|]).
    by apply elem_of_nil in Hi. }
  split; [reflexivity|]. split; [exact Hc|].
  destruct (without_onEose_flag_stays_false (C := reference) on_three_relays 1
              ("wss://r2", [by_ids ["a"]]) interleaved eq_refl Hc)
    as (acts & Ht & Hv & Hacc).
  exists acts. split; [exact Ht|]. split; [exact Hv | exact Hacc].
Defined.

Lemma repeated_marker_passes_undefined_witness :
  live (batchFiltersByRelay (filtersToSubscribe (pool on_three_relays))).2 !! 1
    = Some ("wss://r2", [by_ids ["a"]])
  ∧ (∀ i, i ∈ marked_twice → ¬ cancels 1 i)
  ∧ msgs_for 1 marked_twice =
      (MEvent <$> [ev "a"]) ++ MEose Returns
        :: (MEvent <$> [ev "b"]) ++ [MEose Throws]
  ∧ ∃ acts,
      trace (run (sendSubscriptions (Some "onEose") on_three_relays).2
                 marked_twice)
        = trace (sendSubscriptions (Some "onEose") on_three_relays).2 ++ acts
      ∧ calls_via 1 acts =
          [AOnEvent 1 (Merged [Deduped (User "cb") no_options]) (ev "a")
                    false "wss://r2";
           AOnEose 1 "onEose" (Some [ev "a"]) "wss://r2";
           AOnEvent 1 (Merged [Deduped (User "cb") no_options]) (ev "b")
                    true "wss://r2";
           AOnEose 1 "onEose" None "wss://r2"].
Proof.
  assert (Hc : ∀ i : Input, i ∈ marked_twice → ¬ cancels 1 i).
  { intros i Hi. destruct i; try (intros []).
    unfold marked_twice in Hi.
    repeat (apply elem_of_cons in Hi as [Hi|Hi]; [discriminate Hi|]).
    by apply elem_of_nil in Hi. }
  assert (Hm : msgs_for 1 marked_twice =
                 (MEvent (C := reference) <$> [ev "a"]) ++ MEose Returns
                   :: (MEvent (C := reference) <$> [ev "b"])
                      ++ [MEose Throws])
    by (vm_compute; reflexivity).
  split; [reflexivity|]. split; [exact Hc|]. split; [exact Hm|].
  destruct (repeated_marker_passes_undefined (C := reference) on_three_relays
              "onEose" 1 ("wss://r2", [by_ids ["a"]]) marked_twice
              [ev "a"]
              ((MEvent (C := reference) <$> [ev "b"]) ++ [MEose Throws])
              eq_refl Hc Hm)
    as (acts & Ht & Hv).
  exists acts. split; [exact Ht | exact Hv].
Defined.

Lemma burst_postpones_the_flush_witness :
  (0 < 100 ≤ TIMEOUT_MAX)%Z
  ∧ minMaxDelayms (pool fresh) = Infinity
  ∧ (∀ c, c ∈ three_calls → (Z.of_N c.1 < 100)%Z)
  ∧ elapsed three_calls = 120%Z
  ∧ length (filtersToSubscribe (pool (run fresh (burst 100 three_calls)))) = 3
  ∧ subs (run fresh (burst 100 three_calls)) = []
  ∧ now (run fresh (burst 100 three_calls)) = 120%Z
  ∧ ∀ id, timer_fires id (run fresh (burst 100 three_calls)) = None.
Proof.
  assert (Hgaps : ∀ c : N * Request, c ∈ three_calls → (Z.of_N c.1 < 100)%Z).
  { intros c Hin. unfold three_calls in Hin.
    repeat (apply elem_of_cons in Hin as [->|Hin]; [reflexivity|]).
    by apply elem_of_nil in Hin. }
  assert (Hd : (0 < 100 ≤ TIMEOUT_MAX)%Z) by (unfold TIMEOUT_MAX; lia).
  destruct (burst_postpones_the_flush (C := reference) None None 0 [] 100
              three_calls Hd eq_refl Hgaps)
    as (Hb & Hs & Hn & Hq & _).
  split; [exact Hd|]. split; [reflexivity|]. split; [exact Hgaps|].
  split; [reflexivity|]. split; [reflexivity|]. split; [exact Hs|].
  split; [exact Hn | exact Hq].
Defined.

End ConcreteMore.
